(** * llvm-lang front end: lexer, AST rendering and Pratt parser

    A shallow embedding of the Go packages [token], [utils], [lexer], [ast]
    and [parser], one Rocq module per package, followed by the properties
    proved about them.

    Conventions of the embedding:
    - a Go [string] is a byte sequence: Rocq's [string] (a list of 8-bit
      [ascii]); a Go [byte] is an [ascii];
    - the lexer's [position] and [readPosition] are Go [int]s that start at 0
      and grow by one per read step; they are modelled as [nat] (a run would
      need 2^63 read steps to leave the range of [int]);
    - an operation that does not return normally (a Go run-time panic, or a
      loop that is not finished within its unrolling bound) yields [None];
    - the parser threads its mutable state through a state-and-failure monad. *)

From Stdlib Require Import Bool Arith Lia List String Ascii ZArith QArith.
Import ListNotations.

Open Scope string_scope.
Open Scope nat_scope.

(** ** Failure monad for steps that may not return normally *)

Definition obind {A B : Type} (m : option A) (k : A -> option B) : option B :=
  match m with
  | Some a => k a
  | None => None
  end.

Notation "x <- m ;; k" := (obind m (fun x => k))
  (at level 61, m at next level, right associativity).

(** ** Package token *)

Module token.

(** Go's conversion [string(c)] of a byte: the UTF-8 encoding of the code
    point [c], one byte below 128 and two bytes from 128 on. *)
Definition byte_to_string (c : ascii) : string :=
  let n := nat_of_ascii c in
  if n <? 128 then String.String c EmptyString
  else String.String (ascii_of_nat (192 + n / 64))
         (String.String (ascii_of_nat (128 + n mod 64)) EmptyString).

(** [TokenType] is a Go string type whose values are the constants below;
    [NoType] is its zero value, the empty string, which a [Token] holds
    before its fields are assigned. *)
Inductive TokenType : Set :=
| NoType
| Identifier | Number | String
| Def | Extern
| LeftParen | RightParen | LeftCurlyBracket | RightCurlyBracket
| LeftSquareBracket | RightSquareBracket
| Semicolon | Comma | Colon | Dot
| Plus | Minus | Slash | Star | Modulo | Assign
| GreaterThan | LessThan | Bang
| EqualTo | GreaterThanEqualTo | LessThanEqualTo | NotEqualTo | And | Or
| EOF | Illegal.

Scheme Equality for TokenType.

(** The string each constant stands for (what [%s] prints). *)
Definition TokenType_string (t : TokenType) : string :=
  match t with
  | NoType => ""
  | Identifier => "Identifier" | Number => "Number" | String => "String"
  | Def => "Def" | Extern => "Extern"
  | LeftParen => "LeftParen" | RightParen => "RightParen"
  | LeftCurlyBracket => "LeftCurlyBracket"
  | RightCurlyBracket => "RightCurlyBracket"
  | LeftSquareBracket => "LeftSquareBracket"
  | RightSquareBracket => "RightSquareBracket"
  | Semicolon => "Semicolon" | Comma => "Comma" | Colon => "Colon"
  | Dot => "Dot"
  | Plus => "Plus" | Minus => "Minus" | Slash => "Slash" | Star => "Star"
  | Modulo => "Modulus" | Assign => "Assign"
  | GreaterThan => "GreaterThan" | LessThan => "LessThan" | Bang => "Bang"
  | EqualTo => "Equality" | GreaterThanEqualTo => "GreaterThanEqualTo"
  | LessThanEqualTo => "LessThanEqualTo" | NotEqualTo => "NotEqual"
  | And => "And" | Or => "Or"
  | EOF => "EOF" | Illegal => "Illegal"
  end.

Record Token : Set := mkToken { Literal : string; Typ : TokenType }.

(** The zero value of [Token]. *)
Definition zeroToken : Token := {| Literal := ""; Typ := NoType |}.

Definition MakeToken (Type_ : TokenType) (char : ascii) : Token :=
  {| Literal := byte_to_string char; Typ := Type_ |}.

End token.

(** ** Package utils *)

Module utils.

(** [regexp ^[a-zA-Z_]+$] on the one-symbol string [string(c)]. *)
Definition IsAlpha (c : ascii) : bool :=
  let n := nat_of_ascii c in
  ((97 <=? n) && (n <=? 122)) || ((65 <=? n) && (n <=? 90)) || (n =? 95).

(** [regexp ^[0-9]+$] on the one-symbol string [string(c)]. *)
Definition IsNumeric (c : ascii) : bool :=
  let n := nat_of_ascii c in (48 <=? n) && (n <=? 57).

Definition IsSkipable (c : ascii) : bool :=
  (c =? " ")%char || (c =? "010")%char || (c =? "009")%char
  || (c =? "013")%char.

End utils.

(** ** Package lexer *)

Module lexer.

Record Lexer : Set := mkLexer {
  source : string;
  position : nat;
  readPosition : nat;
  char : ascii
}.

Definition eqSym : ascii := "=".
Definition leftParen : ascii := "(".
Definition rightParen : ascii := ")".
Definition leftSquareBracket : ascii := "[".
Definition rightSquareBracket : ascii := "]".
Definition leftCurlyBracket : ascii := "{".
Definition rightCurlyBracket : ascii := "}".
Definition semi : ascii := ";".
Definition comma : ascii := ",".
Definition colon : ascii := ":".
Definition dot : ascii := ".".
Definition quote : ascii := "034".
Definition plus : ascii := "+".
Definition star : ascii := "*".
Definition slash : ascii := "/".
Definition minus : ascii := "-".
Definition modulo : ascii := "%".
Definition greaterThan : ascii := ">".
Definition lessThan : ascii := "<".
Definition bang : ascii := "!".
Definition ampersand : ascii := "&".
Definition pipe : ascii := "|".

(** The byte 0, which the lexer uses as its end sentinel. *)
Definition nul : ascii := Ascii.zero.

Definition keywords (ident : string) : option token.TokenType :=
  if (ident =? "def")%string then Some token.Def
  else if (ident =? "extern")%string then Some token.Extern
  else None.

(** [s[i]]; every use below is guarded by [i < len(s)], where [get]
    answers [Some] (lemma [byte_at_get]). *)
Definition byte_at (s : string) (i : nat) : ascii :=
  match String.get i s with
  | Some c => c
  | None => nul
  end.

(** [s[lo:hi]], which panics unless [lo <= hi <= len(s)]. *)
Definition slice (s : string) (lo hi : nat) : option string :=
  if (lo <=? hi) && (hi <=? String.length s)
  then Some (String.substring lo (hi - lo) s)
  else None.

Definition readChar (l : Lexer) : Lexer :=
  {| source := source l;
     char := if String.length (source l) <=? readPosition l then nul
             else byte_at (source l) (readPosition l);
     position := readPosition l;
     readPosition := readPosition l + 1 |}.

Definition New (source : string) : Lexer :=
  readChar {| source := source; position := 0; readPosition := 0;
              char := nul |}.

(** Unrolling bound of the scanning loops: every iteration reads one
    symbol, and a loop stops at the end sentinel at the latest. *)
Definition bound (l : Lexer) : nat :=
  S (String.length (source l) - position l).

Fixpoint readIdentifer_loop (fuel : nat) (l : Lexer) : option Lexer :=
  match fuel with
  | 0 => None
  | S fuel' =>
      if utils.IsAlpha (char l) then readIdentifer_loop fuel' (readChar l)
      else Some l
  end.

Definition readIdentifer (l : Lexer) : option (string * Lexer) :=
  let position_ := position l in
  l' <- readIdentifer_loop (bound l) l ;;
  s <- slice (source l') position_ (position l') ;;
  Some (s, l').

Fixpoint readNumber_loop (fuel : nat) (l : Lexer) : option Lexer :=
  match fuel with
  | 0 => None
  | S fuel' =>
      if utils.IsNumeric (char l) || (char l =? dot)%char
      then readNumber_loop fuel' (readChar l)
      else Some l
  end.

Definition readNumber (l : Lexer) : option (string * Lexer) :=
  let position_ := position l in
  l' <- readNumber_loop (bound l) l ;;
  s <- slice (source l') position_ (position l') ;;
  Some (s, l').

Fixpoint readString_loop (fuel : nat) (l : Lexer) : option Lexer :=
  match fuel with
  | 0 => None
  | S fuel' =>
      let l1 := readChar l in
      if (char l1 =? quote)%char || (char l1 =? nul)%char then Some l1
      else readString_loop fuel' l1
  end.

Definition readString (l : Lexer) : option (string * Lexer) :=
  let position_ := position l + 1 in
  l' <- readString_loop (bound l) l ;;
  s <- slice (source l') position_ (position l') ;;
  Some (s, l').

Fixpoint skipWhitespace_loop (fuel : nat) (l : Lexer) : option Lexer :=
  match fuel with
  | 0 => None
  | S fuel' =>
      if (char l =? " ")%char || (char l =? "009")%char
         || (char l =? "010")%char || (char l =? "013")%char
      then skipWhitespace_loop fuel' (readChar l)
      else Some l
  end.

Definition skipWhitespace (l : Lexer) : option Lexer :=
  skipWhitespace_loop (bound l) l.

Definition peekChar (l : Lexer) : ascii :=
  if String.length (source l) <=? readPosition l then nul
  else byte_at (source l) (readPosition l).

Definition LookupIdent (ident : string) : token.TokenType :=
  match keywords ident with
  | Some tok => tok
  | None => token.Identifier
  end.

(** The two-symbol operators of [NextToken] all follow one pattern: when
    the symbol after the current one is [next], read it and build the
    token [two] from both symbols; otherwise the token [one] from the
    current symbol alone.  The lexer is left on the last symbol of the
    token. *)
Definition twoChar (l : Lexer) (next : ascii) (two one : token.TokenType)
  : token.Token * Lexer :=
  if (peekChar l =? next)%char then
    let char_ := char l in
    let l1 := readChar l in
    let literal := token.byte_to_string char_
                   ++ token.byte_to_string (char l1) in
    ({| token.Literal := literal; token.Typ := two |}, l1)
  else (token.MakeToken one (char l), l).

(** The common exit of [NextToken]: [l.readChar(); return tok]. *)
Definition advance (r : token.Token * Lexer) : option (token.Token * Lexer) :=
  Some (fst r, readChar (snd r)).

Definition NextToken (l0 : Lexer) : option (token.Token * Lexer) :=
  l <- skipWhitespace l0 ;;
  let c := char l in
  if (c =? leftParen)%char then advance (token.MakeToken token.LeftParen c, l)
  else if (c =? rightParen)%char then
    advance (token.MakeToken token.RightParen c, l)
  else if (c =? leftCurlyBracket)%char then
    advance (token.MakeToken token.LeftCurlyBracket c, l)
  else if (c =? rightCurlyBracket)%char then
    advance (token.MakeToken token.RightCurlyBracket c, l)
  else if (c =? leftSquareBracket)%char then
    advance (token.MakeToken token.LeftSquareBracket c, l)
  else if (c =? rightSquareBracket)%char then
    advance (token.MakeToken token.RightSquareBracket c, l)
  else if (c =? semi)%char then advance (token.MakeToken token.Semicolon c, l)
  else if (c =? comma)%char then advance (token.MakeToken token.Comma c, l)
  else if (c =? colon)%char then advance (token.MakeToken token.Colon c, l)
  else if (c =? dot)%char then advance (token.MakeToken token.Dot c, l)
  else if (c =? quote)%char then
    r <- readString l ;;
    advance ({| token.Literal := fst r; token.Typ := token.String |}, snd r)
  else if (c =? eqSym)%char then
    advance (twoChar l eqSym token.EqualTo token.Assign)
  else if (c =? plus)%char then advance (token.MakeToken token.Plus c, l)
  else if (c =? minus)%char then advance (token.MakeToken token.Minus c, l)
  else if (c =? star)%char then advance (token.MakeToken token.Star c, l)
  else if (c =? slash)%char then advance (token.MakeToken token.Slash c, l)
  else if (c =? modulo)%char then advance (token.MakeToken token.Modulo c, l)
  else if (c =? greaterThan)%char then
    advance (twoChar l eqSym token.GreaterThanEqualTo token.GreaterThan)
  else if (c =? lessThan)%char then
    advance (twoChar l eqSym token.LessThanEqualTo token.LessThan)
  else if (c =? bang)%char then
    advance (twoChar l eqSym token.NotEqualTo token.Bang)
  else if (c =? ampersand)%char then
    advance (twoChar l ampersand token.And token.Illegal)
  else if (c =? pipe)%char then
    advance (twoChar l pipe token.Or token.Illegal)
  else if (c =? nul)%char then
    advance ({| token.Literal := ""; token.Typ := token.EOF |}, l)
  else if utils.IsAlpha c then
    r <- readIdentifer l ;;
    Some ({| token.Literal := fst r; token.Typ := LookupIdent (fst r) |},
          snd r)
  else if utils.IsNumeric c then
    r <- readNumber l ;;
    Some ({| token.Literal := fst r; token.Typ := token.Number |}, snd r)
  else advance (token.MakeToken token.Illegal c, l).

(** The lexer after [k] calls of [NextToken]. *)
Fixpoint pulls (k : nat) (l : Lexer) : option Lexer :=
  match k with
  | 0 => Some l
  | S k' => r <- NextToken l ;; pulls k' (snd r)
  end.

(** The token returned by the call of [NextToken] that follows [k]
    earlier calls. *)
Definition nthToken (k : nat) (l : Lexer) : option token.Token :=
  l' <- pulls k l ;; r <- NextToken l' ;; Some (fst r).

End lexer.

(** ** strconv.ParseFloat

    The Go standard library function, restricted to what the lexer's
    [readNumber] can hand to it: texts made of decimal digits and dots.  Such
    a text is well formed when it has at least one digit and at most one dot;
    a well-formed text is rejected (range error) when its value rounds to
    infinity, that is from [2^1024 - 2^970] on.  The value is kept as the
    exact rational the text denotes: its rounding to binary64 is not
    modelled, and nothing below reads it. *)

Module strconv.

Definition float64 : Set := Q.

Definition digit_value (c : ascii) : Z := Z.of_nat (nat_of_ascii c - 48).

(** Mantissa and number of fractional digits of a well-formed text;
    [frac] is [None] before the dot and counts the digits after it. *)
Fixpoint scan (s : string) (mant : Z) (frac : option nat) (sawdigits : bool)
  : option (Z * nat) :=
  match s with
  | EmptyString =>
      if sawdigits
      then Some (mant, match frac with Some k => k | None => 0 end)
      else None
  | String.String c s' =>
      if utils.IsNumeric c then
        scan s' (10 * mant + digit_value c)%Z (option_map S frac) true
      else if (c =? ".")%char then
        match frac with
        | None => scan s' mant (Some 0) sawdigits
        | Some _ => None
        end
      else None
  end.

Definition overflow_threshold : Z := (2 ^ 1024 - 2 ^ 970)%Z.

(** [Some v] for [(v, nil)], [None] for a non-nil error. *)
Definition ParseFloat (s : string) : option float64 :=
  match scan s 0%Z None false with
  | Some (mant, k) =>
      if (mant <? overflow_threshold * 10 ^ Z.of_nat k)%Z
      then Some (Qmake mant (Z.to_pos (10 ^ Z.of_nat k)))
      else None
  | None => None
  end.

End strconv.

(** ** Package ast

    The interfaces [Expr] and [Stmt] are closed sums here; an interface value
    that may be nil is an [option], and so is a slice that may be nil. *)

Module ast.

#[warnings="-register-all"]
Inductive Expr : Set :=
| NumberLiteral (Token : token.Token) (Value : strconv.float64)
| Identifier (Token : token.Token) (Value : string)
| PrefixExpr (Token : token.Token) (Operator : string)
    (Right : option Expr)
| InfixExpr (Token : token.Token) (Left : option Expr) (Operator : string)
    (Right : option Expr)
| CallExpr (Token : token.Token) (Function : option Expr)
    (Arguments : option (list (option Expr))).

Inductive Stmt : Set :=
| ExpressionStmt (Token : token.Token) (Expr_ : option Expr).

Record Program : Set := mkProgram { Stmts : list Stmt }.

Definition Expr_TokenLiteral (e : Expr) : string :=
  match e with
  | NumberLiteral t _ | Identifier t _ | PrefixExpr t _ _
  | InfixExpr t _ _ _ | CallExpr t _ _ => token.Literal t
  end.

Definition Stmt_TokenLiteral (s : Stmt) : string :=
  match s with ExpressionStmt t _ => token.Literal t end.

Definition Program_TokenLiteral (p : Program) : string :=
  match Stmts p with
  | s :: _ => Stmt_TokenLiteral s
  | [] => ""
  end.

(** [String()] of an expression; [None] is the panic of a method call on a
    nil interface value. *)
Fixpoint Expr_String (e : Expr) : option string :=
  match e with
  | Identifier _ Value => Some Value
  | NumberLiteral Token _ => Some (token.Literal Token)
  | PrefixExpr _ Operator Right =>
      r <- match Right with Some x => Expr_String x | None => None end ;;
      Some ("(" ++ Operator ++ r ++ ")")
  | InfixExpr _ Left Operator Right =>
      a <- match Left with Some x => Expr_String x | None => None end ;;
      b <- match Right with Some x => Expr_String x | None => None end ;;
      Some ("(" ++ a ++ (" " ++ Operator ++ " ") ++ b ++ ")")
  | CallExpr _ Function Arguments =>
      args <- match Arguments with
              | Some l =>
                  (fix each (l : list (option Expr)) : option (list string) :=
                     match l with
                     | [] => Some []
                     | arg :: l' =>
                         s <- match arg with
                              | Some x => Expr_String x
                              | None => None
                              end ;;
                         ss <- each l' ;;
                         Some (s :: ss)
                     end) l
              | None => Some []
              end ;;
      f <- match Function with Some x => Expr_String x | None => None end ;;
      Some (f ++ "(" ++ String.concat ", " args ++ ")")
  end.

Definition Stmt_String (s : Stmt) : option string :=
  match s with
  | ExpressionStmt _ (Some e) => Expr_String e
  | ExpressionStmt _ None => Some ""
  end.

Fixpoint Stmts_String (l : list Stmt) : option string :=
  match l with
  | [] => Some ""
  | s :: l' => a <- Stmt_String s ;; b <- Stmts_String l' ;; Some (a ++ b)
  end.

Definition Program_String (p : Program) : option string :=
  Stmts_String (Stmts p).

End ast.

(** ** Package parser *)

Module parser.

Definition Precedence : Set := Z.

Definition LOWEST : Precedence := 1%Z.
Definition ANDOR : Precedence := 2%Z.
Definition EQUALS : Precedence := 3%Z.
Definition LESSGREATEREQUAL : Precedence := 4%Z.
Definition LESSGREATER : Precedence := 5%Z.
Definition SUM : Precedence := 6%Z.
Definition PRODUCT : Precedence := 7%Z.
Definition PREFIX : Precedence := 8%Z.
Definition CALL : Precedence := 9%Z.
Definition INDEX : Precedence := 10%Z.

Definition precedences (t : token.TokenType) : option Precedence :=
  match t with
  | token.And => Some ANDOR
  | token.Or => Some ANDOR
  | token.EqualTo => Some EQUALS
  | token.NotEqualTo => Some EQUALS
  | token.LessThan => Some LESSGREATER
  | token.GreaterThan => Some LESSGREATER
  | token.GreaterThanEqualTo => Some LESSGREATEREQUAL
  | token.LessThanEqualTo => Some LESSGREATEREQUAL
  | token.Plus => Some SUM
  | token.Minus => Some SUM
  | token.Slash => Some PRODUCT
  | token.Star => Some PRODUCT
  | token.Modulo => Some PRODUCT
  | token.LeftParen => Some CALL
  | token.LeftSquareBracket => Some INDEX
  | _ => None
  end.

(** The parser's mutable fields.  The two handler registries are filled
    once, in [New], and never change: they are the tables
    [prefixParseFns] and [infixParseFns] below. *)
Record Parser : Set := mkParser {
  lexer_ : lexer.Lexer;
  currToken : token.Token;
  peekToken : token.Token;
  errors : list string
}.

(** A method of the parser: from a state, a result and the next state, or
    [None] when it does not return normally. *)
Definition M (A : Type) : Type := Parser -> option (A * Parser).

Definition ret {A : Type} (a : A) : M A := fun p => Some (a, p).

Definition bind {A B : Type} (m : M A) (k : A -> M B) : M B :=
  fun p => match m p with
           | Some (a, p') => k a p'
           | None => None
           end.

Definition fail {A : Type} : M A := fun _ => None.

Notation "x <~ m ;; k" := (bind m (fun x => k))
  (at level 61, m at next level, right associativity).
Notation "m ;; k" := (bind m (fun _ => k))
  (at level 61, right associativity).

Definition appendError (msg : string) : M unit :=
  fun p => Some (tt, {| lexer_ := lexer_ p; currToken := currToken p;
                        peekToken := peekToken p;
                        errors := errors p ++ [msg] |}).

Definition noPrefixParseFnError (t : token.TokenType) : M unit :=
  appendError ("Honk! no prefix parse function for "
               ++ token.TokenType_string t ++ " found").

Definition nextToken : M unit :=
  fun p =>
    r <- lexer.NextToken (lexer_ p) ;;
    Some (tt, {| lexer_ := snd r; currToken := peekToken p;
                 peekToken := fst r; errors := errors p |}).

Definition currTokenIs (t : token.TokenType) (p : Parser) : bool :=
  token.TokenType_beq (token.Typ (currToken p)) t.

Definition peekTokenIs (t : token.TokenType) (p : Parser) : bool :=
  token.TokenType_beq (token.Typ (peekToken p)) t.

Definition peekError (t : token.TokenType) : M unit :=
  fun p =>
    appendError ("Honk! expected next token to be "
                 ++ token.TokenType_string t ++ ", got "
                 ++ token.TokenType_string (token.Typ (peekToken p))
                 ++ " instead") p.

Definition expectPeek (t : token.TokenType) : M bool :=
  fun p =>
    if peekTokenIs t p then (nextToken ;; ret true) p
    else (peekError t ;; ret false) p.

Definition peekPrecedence (p : Parser) : Precedence :=
  match precedences (token.Typ (peekToken p)) with
  | Some pr => pr
  | None => LOWEST
  end.

Definition currPrecedence (p : Parser) : Precedence :=
  match precedences (token.Typ (currToken p)) with
  | Some pr => pr
  | None => LOWEST
  end.

(** [%q] of a number token's literal, which holds digits and dots only:
    the text between two double quotes, nothing to escape. *)
Definition quoted (s : string) : string :=
  String.String lexer.quote (s ++ String.String lexer.quote EmptyString).

Definition parseIdentifier : M (option ast.Expr) :=
  fun p =>
    Some (Some (ast.Identifier (currToken p) (token.Literal (currToken p))),
          p).

Definition parseNumberLiteral : M (option ast.Expr) :=
  fun p =>
    match strconv.ParseFloat (token.Literal (currToken p)) with
    | None =>
        (appendError ("could not parse "
                           ++ quoted (token.Literal (currToken p))
                           ++ " as integer") ;;
         ret None) p
    | Some value => Some (Some (ast.NumberLiteral (currToken p) value), p)
    end.

(** The handlers that call back into [parseExpression], written over the
    function they call ([parseExpression] of the remaining nesting depth)
    and the bound [fuel] on the iterations of a loop. *)
Section Handlers.

Variable parseExpression : Precedence -> M (option ast.Expr).
Variable fuel : nat.

Definition parsePrefixExpr : M (option ast.Expr) :=
  fun p =>
    let tok := currToken p in
    (nextToken ;;
     right <~ parseExpression PREFIX ;;
     ret (Some (ast.PrefixExpr tok (token.Literal tok) right))) p.

Definition parseInfixExpr (left : option ast.Expr) : M (option ast.Expr) :=
  fun p =>
    let tok := currToken p in
    let precedence := currPrecedence p in
    (nextToken ;;
     right <~ parseExpression precedence ;;
     ret (Some (ast.InfixExpr tok left (token.Literal tok) right))) p.

Definition parseGroupedExpr : M (option ast.Expr) :=
  nextToken ;;
  expr <~ parseExpression LOWEST ;;
  ok <~ expectPeek token.RightParen ;;
  if ok : bool then ret expr else ret None.

(** The loop [for p.peekTokenIs(token.Comma)] of [parseExpressionList]. *)
Fixpoint parseExpressionList_loop (n : nat) (list_ : list (option ast.Expr))
  : M (list (option ast.Expr)) :=
  match n with
  | 0 => fail
  | S n' =>
      fun p =>
        if peekTokenIs token.Comma p then
          (nextToken ;;
           nextToken ;;
           e <~ parseExpression LOWEST ;;
           parseExpressionList_loop n' (list_ ++ [e])) p
        else Some (list_, p)
  end.

Definition parseExpressionList (end_ : token.TokenType)
  : M (option (list (option ast.Expr))) :=
  fun p =>
    if peekTokenIs end_ p then (nextToken ;; ret (Some [])) p
    else
      (nextToken ;;
       e <~ parseExpression LOWEST ;;
       list_ <~ parseExpressionList_loop fuel [e] ;;
       ok <~ expectPeek end_ ;;
       if ok : bool then ret (Some list_) else ret None) p.

Definition parseCallExpr (function : option ast.Expr)
  : M (option ast.Expr) :=
  fun p =>
    let tok := currToken p in
    (args <~ parseExpressionList token.RightParen ;;
     ret (Some (ast.CallExpr tok function args))) p.

(** The registrations made by [New]. *)
Definition prefixParseFns (t : token.TokenType)
  : option (M (option ast.Expr)) :=
  match t with
  | token.Identifier => Some parseIdentifier
  | token.Number => Some parseNumberLiteral
  | token.Bang => Some parsePrefixExpr
  | token.Minus => Some parsePrefixExpr
  | token.LeftParen => Some parseGroupedExpr
  | _ => None
  end.

Definition infixParseFns (t : token.TokenType)
  : option (option ast.Expr -> M (option ast.Expr)) :=
  match t with
  | token.Plus | token.Minus | token.Slash | token.Star | token.Modulo
  | token.EqualTo | token.NotEqualTo
  | token.GreaterThanEqualTo | token.LessThanEqualTo
  | token.GreaterThan | token.LessThan
  | token.And | token.Or => Some parseInfixExpr
  | token.LeftParen => Some parseCallExpr
  | _ => None
  end.

(** The loop of [parseExpression]. *)
Fixpoint parseExpression_loop (n : nat) (precedence : Precedence)
  (left : option ast.Expr) : M (option ast.Expr) :=
  match n with
  | 0 => fail
  | S n' =>
      fun p =>
        if negb (peekTokenIs token.Semicolon p)
           && (precedence <? peekPrecedence p)%Z
        then
          match infixParseFns (token.Typ (peekToken p)) with
          | None => Some (left, p)
          | Some infix =>
              (nextToken ;;
               left' <~ infix left ;;
               parseExpression_loop n' precedence left') p
          end
        else Some (left, p)
  end.

Definition parseExpression_body (precedence : Precedence)
  : M (option ast.Expr) :=
  fun p =>
    match prefixParseFns (token.Typ (currToken p)) with
    | None =>
        (noPrefixParseFnError (token.Typ (currToken p)) ;;
         ret None) p
    | Some prefix =>
        (left <~ prefix ;; parseExpression_loop fuel precedence left) p
    end.

End Handlers.

(** [fuel] bounds the nesting depth of [parseExpression] and the number of
    iterations of each loop run at that depth. *)
Fixpoint parseExpression (fuel : nat) (precedence : Precedence)
  : M (option ast.Expr) :=
  match fuel with
  | 0 => fail
  | S fuel' =>
      parseExpression_body (parseExpression fuel') fuel' precedence
  end.

Definition parseExpressionStmt (fuel : nat) : M ast.Stmt :=
  fun p =>
    let tok := currToken p in
    (expr <~ parseExpression fuel LOWEST ;;
     fun p' =>
       if peekTokenIs token.Semicolon p'
       then (nextToken ;; ret (ast.ExpressionStmt tok expr)) p'
       else Some (ast.ExpressionStmt tok expr, p')) p.

Definition parseStatement (fuel : nat) : M ast.Stmt :=
  parseExpressionStmt fuel.

(** The loop of [ParseProgram].  [parseStatement] returns a non-nil
    pointer to an [ExpressionStmt], so the test [stmt != nil] holds and
    every statement is appended. *)
Fixpoint ParseProgram_loop (n fuel : nat) (stmts : list ast.Stmt)
  : M (list ast.Stmt) :=
  match n with
  | 0 => fail
  | S n' =>
      fun p =>
        if negb (currTokenIs token.EOF p) then
          (stmt <~ parseStatement fuel ;;
           nextToken ;;
           ParseProgram_loop n' fuel (stmts ++ [stmt])) p
        else Some (stmts, p)
  end.

Definition ParseProgram (fuel : nat) : M ast.Program :=
  stmts <~ ParseProgram_loop fuel fuel [] ;;
  ret {| ast.Stmts := stmts |}.

Definition New (l : lexer.Lexer) : option Parser :=
  r <- (nextToken ;; nextToken)
         {| lexer_ := l; currToken := token.zeroToken;
            peekToken := token.zeroToken; errors := [] |} ;;
  Some (snd r).

Definition Errors (p : Parser) : list string := errors p.

End parser.

(** ** Parsing a source text

    What a caller does: build a lexer on the text, a parser on the lexer,
    and call [ParseProgram] once. *)

Definition parse (fuel : nat) (src : string)
  : option (ast.Program * parser.Parser) :=
  p <- parser.New (lexer.New src) ;;
  parser.ParseProgram fuel p.

(** The rendering of the parsed program and the diagnostics. *)
Definition parse_render (fuel : nat) (src : string)
  : option (option string * list string) :=
  r <- parse fuel src ;;
  Some (ast.Program_String (fst r), parser.Errors (snd r)).

(** * Vocabulary of the properties

    The invariant of the lexer, the measures of the termination argument,
    the view of the lexer as a function of the text that remains, and the
    operands and operators of the statements about chains. *)

Section Vocabulary.

Import lexer parser.

(** The state invariant of the lexer: the read position is one past the
    position, and the current symbol is the one at the position, or the
    end sentinel from the end of the source on. *)
Definition lexer_inv (l : Lexer) : Prop :=
  readPosition l = position l + 1
  /\ (position l < String.length (source l) ->
      String.get (position l) (source l) = Some (char l))
  /\ (String.length (source l) <= position l -> char l = nul).

(** The three [for cond(l.char) { l.readChar() }] loops are instances of
    one scheme. *)
Fixpoint scan_while (cond : ascii -> bool) (fuel : nat) (l : Lexer)
  : option Lexer :=
  match fuel with
  | 0 => None
  | S fuel' =>
      if cond (char l) then scan_while cond fuel' (readChar l) else Some l
  end.

Definition isSpace (c : ascii) : bool :=
  (c =? " ")%char || (c =? "009")%char || (c =? "010")%char
  || (c =? "013")%char.

Definition isNumberChar (c : ascii) : bool :=
  utils.IsNumeric c || (c =? dot)%char.

(** What a scanning loop returns: the first state from [l] on whose
    symbol fails [cond]; all symbols passed over satisfy [cond]. *)
Record scanned (cond : ascii -> bool) (l l' : Lexer) : Prop := {
  scanned_inv : lexer_inv l';
  scanned_source : source l' = source l;
  scanned_le : position l <= position l';
  scanned_stop : cond (char l') = false;
  scanned_none : cond (char l) = false -> l' = l;
  scanned_some : cond (char l) = true ->
                 position l < position l'
                 /\ position l' <= String.length (source l);
  scanned_run : forall i, position l <= i < position l' ->
                exists c, String.get i (source l) = Some c /\ cond c = true
}.

(** The loop of [readString] stops on the first quote or NUL symbol after
    the current one, at the end of the source at the latest. *)
Record string_scanned (l l' : Lexer) : Prop := {
  sscanned_inv : lexer_inv l';
  sscanned_source : source l' = source l;
  sscanned_lt : position l < position l';
  sscanned_le : position l' <= String.length (source l);
  sscanned_stop : char l' = quote \/ char l' = nul;
  sscanned_run : forall i, position l < i < position l' ->
                 exists c, String.get i (source l) = Some c
                           /\ c <> quote /\ c <> nul
}.

(** A call that returns a token and leaves the lexer, still within its
    invariant, strictly further in the same source. *)
Definition lex_step (l : Lexer) (r : option (token.Token * Lexer)) : Prop :=
  exists t l', r = Some (t, l') /\ lexer_inv l' /\ source l' = source l
               /\ position l < position l'.

Definition EOFToken : token.Token :=
  {| token.Literal := ""; token.Typ := token.EOF |}.

(** Symbols of the source not yet passed by the lexer. *)
Definition remaining (l : lexer.Lexer) : nat :=
  String.length (lexer.source l) - lexer.position l.

(** 1 for a token that is not the end-of-input token. *)
Definition live (t : token.Token) : nat :=
  if token.TokenType_beq (token.Typ t) token.EOF then 0 else 1.

(** The measure that every call of [nextToken] made by the parser (but
    the one closing an iteration of [ParseProgram]) strictly decreases. *)
Definition potential (p : Parser) : nat :=
  2 * remaining (lexer_ p) + 2 * live (peekToken p) + live (currToken p).

(** [p'] is reached from [p] by [k] calls of [nextToken] and by appending
    the diagnostics [ds]. *)
Record advanced (k : nat) (ds : list string) (p p' : Parser) : Prop := {
  adv_inv : lexer_inv (lexer_ p');
  adv_pulls : lexer.pulls k (lexer_ p) = Some (lexer_ p');
  adv_potential : k + potential p' <= potential p;
  adv_errors : errors p' = (errors p ++ ds)%list;
  adv_same : k = 0 ->
             currToken p' = currToken p /\ peekToken p' = peekToken p
}.

(** [r] is the normal return of a method run from [p], and [Q] holds of
    its result, of the number of tokens it pulled and of the diagnostics
    it appended. *)
Definition returns {A : Type} (r : option (A * Parser)) (p : Parser)
  (Q : A -> nat -> list string -> Parser -> Prop) : Prop :=
  exists a p' k ds, r = Some (a, p') /\ advanced k ds p p' /\ Q a k ds p'.

(** An expression all of whose operands, callees and arguments are
    present, and whose argument lists are not nil. *)
Fixpoint complete (e : ast.Expr) : bool :=
  match e with
  | ast.NumberLiteral _ _ | ast.Identifier _ _ => true
  | ast.PrefixExpr _ _ Right =>
      match Right with Some x => complete x | None => false end
  | ast.InfixExpr _ Left _ Right =>
      match Left with Some x => complete x | None => false end
      && match Right with Some x => complete x | None => false end
  | ast.CallExpr _ Function Arguments =>
      match Function with Some x => complete x | None => false end
      && match Arguments with
         | Some l =>
             (fix every (l : list (option ast.Expr)) : bool :=
                match l with
                | [] => true
                | arg :: l' =>
                    match arg with Some x => complete x | None => false end
                    && every l'
                end) l
         | None => false
         end
  end.

Definition ocomplete (e : option ast.Expr) : bool :=
  match e with Some x => complete x | None => false end.

Definition complete_args (a : option (list (option ast.Expr))) : bool :=
  match a with Some l => forallb ocomplete l | None => false end.

Definition complete_stmt (s : ast.Stmt) : bool :=
  match s with ast.ExpressionStmt _ e => ocomplete e end.

(** What is assumed of the function the handlers call back: it returns
    from every state of potential below [bound - 1], and when it appends
    no diagnostic its result is a complete expression. *)
Definition rec_spec (rec : Precedence -> M (option ast.Expr)) (bound : nat)
  : Prop :=
  forall prec p,
    lexer_inv (lexer_ p) -> potential p + 1 < bound ->
    returns (rec prec p) p (fun e _ ds _ => ds = [] -> ocomplete e = true).

(** The result of a run of the statement loop: the lexer was pulled [k]
    times, at most twice the loss of potential, the diagnostics [ds] were
    appended, and the current token is the end-of-input token. *)
Record finished (k : nat) (ds : list string) (p p' : Parser) : Prop := {
  fin_inv : lexer_inv (lexer_ p');
  fin_pulls : lexer.pulls k (lexer_ p) = Some (lexer_ p');
  fin_cost : k + 2 * potential p' <= 2 * potential p;
  fin_errors : errors p' = (errors p ++ ds)%list;
  fin_eof : token.Typ (currToken p') = token.EOF
}.

(** The fuel given to [ParseProgram] on a source: linear in its length. *)
Definition enough_fuel (src : string) : nat := 2 * String.length src + 5.

(** The rendering of the arguments of a call, as [CallExpr.String] collects
    them. *)
Definition args_String (l : list (option ast.Expr)) : option (list string) :=
  (fix each (l : list (option ast.Expr)) : option (list string) :=
     match l with
     | [] => Some []
     | arg :: l' =>
         s <- match arg with
              | Some x => ast.Expr_String x
              | None => None
              end ;;
         ss <- each l' ;;
         Some (s :: ss)
     end) l.

Definition oString (e : option ast.Expr) : option string :=
  match e with Some x => ast.Expr_String x | None => None end.

Fixpoint drop (n : nat) (s : string) : string :=
  match n, s with
  | 0, _ => s
  | S n', String.String _ s' => drop n' s'
  | S _, EmptyString => EmptyString
  end.

(** The text from the position of the lexer on. *)
Definition rest_of (l : Lexer) : string := drop (position l) (source l).

(** First symbol of a text, the end sentinel for the empty text. *)
Definition hd (s : string) : ascii :=
  match s with String.String c _ => c | EmptyString => nul end.

Definition tl (s : string) : string :=
  match s with String.String _ t => t | EmptyString => EmptyString end.

(** The longest prefix of [s] whose symbols satisfy [cond], and the rest. *)
Fixpoint span (cond : ascii -> bool) (s : string) : string * string :=
  match s with
  | EmptyString => (EmptyString, EmptyString)
  | String.String c s' =>
      if cond c
      then (String.String c (fst (span cond s')), snd (span cond s'))
      else (EmptyString, s)
  end.

(** A symbol inside a string literal: neither the quote nor byte 0. *)
Definition notStop (c : ascii) : bool :=
  negb ((c =? quote)%char || (c =? nul)%char).

Definition twoCharSuffix (c : ascii) (rest : string) (next : ascii)
  (two one : token.TokenType) : token.Token * string :=
  if (hd rest =? next)%char then
    ({| token.Literal := token.byte_to_string c
                         ++ token.byte_to_string (hd rest);
        token.Typ := two |}, tl rest)
  else (token.MakeToken one c, rest).

(** The token at the head of the text [s0], and the text after it. *)
Definition lexSuffix (s0 : string) : token.Token * string :=
  let s := snd (span isSpace s0) in
  let c := hd s in
  let rest := tl s in
  if (c =? leftParen)%char then (token.MakeToken token.LeftParen c, rest)
  else if (c =? rightParen)%char then
    (token.MakeToken token.RightParen c, rest)
  else if (c =? leftCurlyBracket)%char then
    (token.MakeToken token.LeftCurlyBracket c, rest)
  else if (c =? rightCurlyBracket)%char then
    (token.MakeToken token.RightCurlyBracket c, rest)
  else if (c =? leftSquareBracket)%char then
    (token.MakeToken token.LeftSquareBracket c, rest)
  else if (c =? rightSquareBracket)%char then
    (token.MakeToken token.RightSquareBracket c, rest)
  else if (c =? semi)%char then (token.MakeToken token.Semicolon c, rest)
  else if (c =? comma)%char then (token.MakeToken token.Comma c, rest)
  else if (c =? colon)%char then (token.MakeToken token.Colon c, rest)
  else if (c =? dot)%char then (token.MakeToken token.Dot c, rest)
  else if (c =? quote)%char then
    ({| token.Literal := fst (span notStop rest);
        token.Typ := token.String |}, tl (snd (span notStop rest)))
  else if (c =? eqSym)%char then
    twoCharSuffix c rest eqSym token.EqualTo token.Assign
  else if (c =? plus)%char then (token.MakeToken token.Plus c, rest)
  else if (c =? minus)%char then (token.MakeToken token.Minus c, rest)
  else if (c =? star)%char then (token.MakeToken token.Star c, rest)
  else if (c =? slash)%char then (token.MakeToken token.Slash c, rest)
  else if (c =? modulo)%char then (token.MakeToken token.Modulo c, rest)
  else if (c =? greaterThan)%char then
    twoCharSuffix c rest eqSym token.GreaterThanEqualTo token.GreaterThan
  else if (c =? lessThan)%char then
    twoCharSuffix c rest eqSym token.LessThanEqualTo token.LessThan
  else if (c =? bang)%char then
    twoCharSuffix c rest eqSym token.NotEqualTo token.Bang
  else if (c =? ampersand)%char then
    twoCharSuffix c rest ampersand token.And token.Illegal
  else if (c =? pipe)%char then
    twoCharSuffix c rest pipe token.Or token.Illegal
  else if (c =? nul)%char then
    ({| token.Literal := ""; token.Typ := token.EOF |}, rest)
  else if utils.IsAlpha c then
    ({| token.Literal := fst (span utils.IsAlpha s);
        token.Typ := LookupIdent (fst (span utils.IsAlpha s)) |},
     snd (span utils.IsAlpha s))
  else if utils.IsNumeric c then
    ({| token.Literal := fst (span isNumberChar s);
        token.Typ := token.Number |}, snd (span isNumberChar s))
  else (token.MakeToken token.Illegal c, rest).

(** A state [l'] reached from [l] in the same source, [n] symbols further,
    with [rest] left to read. *)
Definition reaches (l l' : Lexer) (n : nat) (rest : string) : Prop :=
  lexer_inv l' /\ source l' = source l /\ rest_of l' = rest
  /\ position l' = position l + n.

(** The call [r] returns the token of [spec] and leaves the lexer, within
    its invariant, on the text of [spec]. *)
Definition refines (r : option (token.Token * Lexer))
  (spec : token.Token * string) : Prop :=
  exists l', r = Some (fst spec, l') /\ lexer_inv l'
             /\ rest_of l' = snd spec.

(** All symbols of a text satisfy [f]. *)
Fixpoint string_forall (f : ascii -> bool) (s : string) : bool :=
  match s with
  | EmptyString => true
  | String.String c s' => f c && string_forall f s'
  end.

(** An operand that is one token: an identifier or a number literal. *)
Inductive operand : Set :=
| Ident (name : string)
| Num (text : string).

Definition operand_text (o : operand) : string :=
  match o with Ident x => x | Num x => x end.

(** The texts that lex as one identifier token, respectively as one number
    token that [ParseFloat] accepts. *)
Definition operand_ok (o : operand) : bool :=
  match o with
  | Ident x =>
      utils.IsAlpha (hd x) && string_forall utils.IsAlpha x
      && match keywords x with None => true | Some _ => false end
  | Num x =>
      utils.IsNumeric (hd x) && string_forall isNumberChar x
      && match strconv.ParseFloat x with Some _ => true | None => false end
  end.

Definition operand_token (o : operand) : token.Token :=
  match o with
  | Ident x => {| token.Literal := x; token.Typ := token.Identifier |}
  | Num x => {| token.Literal := x; token.Typ := token.Number |}
  end.

(** The node [parseIdentifier], respectively [parseNumberLiteral], builds
    on the operand's token. *)
Definition operand_expr (o : operand) : option ast.Expr :=
  match o with
  | Ident x => Some (ast.Identifier (operand_token o) x)
  | Num x =>
      match strconv.ParseFloat x with
      | Some v => Some (ast.NumberLiteral (operand_token o) v)
      | None => None
      end
  end.

(** The spelling of the token kinds registered with [parseInfixExpr]. *)
Definition operator_symbol (t : token.TokenType) : option string :=
  match t with
  | token.Plus => Some "+"
  | token.Minus => Some "-"
  | token.Slash => Some "/"
  | token.Star => Some "*"
  | token.Modulo => Some "%"
  | token.EqualTo => Some "=="
  | token.NotEqualTo => Some "!="
  | token.GreaterThanEqualTo => Some ">="
  | token.LessThanEqualTo => Some "<="
  | token.GreaterThan => Some ">"
  | token.LessThan => Some "<"
  | token.And => Some "&&"
  | token.Or => Some "||"
  | _ => None
  end.

(** The rendering [InfixExpr.String] gives to two rendered operands. *)
Definition infix_text (x op y : string) : string :=
  "(" ++ x ++ " " ++ op ++ " " ++ y ++ ")".

(** The source text [a op b op c], with single spaces. *)
Definition chain_source (a : operand) (sym : string) (b c : operand)
  : string :=
  operand_text a ++ " " ++ sym ++ " " ++ operand_text b ++ " " ++ sym
  ++ " " ++ operand_text c.

(** The tree [((a op b) op c)]. *)
Definition chain_tree (a : operand) (t : token.TokenType) (sym : string)
  (b c : operand) : ast.Expr :=
  let op := {| token.Literal := sym; token.Typ := t |} in
  ast.InfixExpr op
    (Some (ast.InfixExpr op (operand_expr a) sym (operand_expr b)))
    sym (operand_expr c).

(** The run a caller gets on a source text: [ParseProgram] with
    [enough_fuel], then the rendering of the program, next to the
    diagnostics. *)
Definition render (src : string) : option (option string * list string) :=
  parse_render (enough_fuel src) src.

(** The statements of the parsed program, next to the diagnostics. *)
Definition parsed (src : string) : option (list ast.Stmt * list string) :=
  r <- parse (enough_fuel src) src ;;
  Some (ast.Stmts (fst r), Errors (snd r)).

(** [m2] returns whatever [m1] returns. *)
Definition below {A : Type} (m1 m2 : M A) : Prop :=
  forall p r, m1 p = Some r -> m2 p = Some r.

(** ** Vocabulary of the further properties *)

(** The text of a token is the text it was read from: every kind but the
    string literal (read without its quotes), the end of input (read from
    nothing, or from a NUL symbol) and the illegal symbol (re-encoded by
    [string(c)] from byte 128 on). *)
Definition verbatim (t : token.TokenType) : bool :=
  match t with
  | token.String | token.EOF | token.Illegal => false
  | _ => true
  end.

(** The two-symbol operators of [NextToken]: first symbol, second symbol,
    the kind of the pair, and the kind of the first symbol alone. *)
Definition two_char_operators
  : list (ascii * ascii * token.TokenType * token.TokenType) :=
  [ (eqSym, eqSym, token.EqualTo, token.Assign);
    (greaterThan, eqSym, token.GreaterThanEqualTo, token.GreaterThan);
    (lessThan, eqSym, token.LessThanEqualTo, token.LessThan);
    (bang, eqSym, token.NotEqualTo, token.Bang);
    (ampersand, ampersand, token.And, token.Illegal);
    (pipe, pipe, token.Or, token.Illegal) ].

(** Whatever a method returns with from [p], the diagnostics of [p] are
    still there, [ds] were appended to them, and [Q] holds of the result
    and of [ds]. *)
Definition yields {A : Type} (r : option (A * Parser)) (p : Parser)
  (Q : A -> list string -> Prop) : Prop :=
  forall a p', r = Some (a, p') ->
    exists ds, errors p' = (errors p ++ ds)%list /\ Q a ds.

(** A result built while a diagnostic was appended is not complete. *)
Definition flawed (e : option ast.Expr) (ds : list string) : Prop :=
  ds = [] \/ ocomplete e = false.

(** An expression that [String()] can render: no operand, callee or
    argument is nil (a nil argument list renders as an empty one). *)
Fixpoint renderable (e : ast.Expr) : bool :=
  match e with
  | ast.NumberLiteral _ _ | ast.Identifier _ _ => true
  | ast.PrefixExpr _ _ Right =>
      match Right with Some x => renderable x | None => false end
  | ast.InfixExpr _ Left _ Right =>
      match Left with Some x => renderable x | None => false end
      && match Right with Some x => renderable x | None => false end
  | ast.CallExpr _ Function Arguments =>
      match Function with Some x => renderable x | None => false end
      && match Arguments with
         | Some l =>
             (fix every (l : list (option ast.Expr)) : bool :=
                match l with
                | [] => true
                | arg :: l' =>
                    match arg with
                    | Some x => renderable x
                    | None => false
                    end && every l'
                end) l
         | None => true
         end
  end.

Definition orenderable (e : option ast.Expr) : bool :=
  match e with Some x => renderable x | None => false end.

(** A statement whose expression, when it has one, can be rendered. *)
Definition renderable_stmt (s : ast.Stmt) : bool :=
  match s with
  | ast.ExpressionStmt _ (Some e) => renderable e
  | ast.ExpressionStmt _ None => true
  end.

(** The source text [a op1 b op2 c], with single spaces. *)
Definition two_operator_source (a : operand) (sym1 : string) (b : operand)
  (sym2 : string) (c : operand) : string :=
  operand_text a ++ " " ++ sym1 ++ " " ++ operand_text b ++ " " ++ sym2
  ++ " " ++ operand_text c.

(** The infix node [parseInfixExpr] builds on the operator token of kind
    [t] spelled [sym]. *)
Definition infix_node (t : token.TokenType) (sym : string)
  (l r : option ast.Expr) : ast.Expr :=
  ast.InfixExpr {| token.Literal := sym; token.Typ := t |} l sym r.

(** The spelling of the token kinds registered with [parsePrefixExpr]. *)
Definition prefix_symbol (t : token.TokenType) : option string :=
  match t with
  | token.Minus => Some "-"
  | token.Bang => Some "!"
  | _ => None
  end.

(** The prefix node [parsePrefixExpr] builds on the operator token of kind
    [t] spelled [sym]. *)
Definition prefix_node (t : token.TokenType) (sym : string)
  (r : option ast.Expr) : ast.Expr :=
  ast.PrefixExpr {| token.Literal := sym; token.Typ := t |} sym r.

(** The rendering [PrefixExpr.String] gives to a rendered operand. *)
Definition prefix_text (op x : string) : string := "(" ++ op ++ x ++ ")".

(** The tokens of the two parentheses. *)
Definition LeftParenToken : token.Token :=
  {| token.Literal := "("; token.Typ := token.LeftParen |}.

Definition RightParenToken : token.Token :=
  {| token.Literal := ")"; token.Typ := token.RightParen |}.

Definition CommaToken : token.Token :=
  {| token.Literal := ","; token.Typ := token.Comma |}.

(** The token kinds [New] registers a prefix handler for: the kinds an
    expression can start with. *)
Definition starts_expression (t : token.TokenType) : bool :=
  match prefixParseFns (fun _ => fail) t with
  | Some _ => true
  | None => false
  end.

(** The tokens the next [n] calls of [NextToken] return. *)
Fixpoint next_tokens (n : nat) (l : Lexer) : option (list token.Token) :=
  match n with
  | 0 => Some []
  | S n' =>
      r <- NextToken l ;;
      ts <- next_tokens n' (snd r) ;;
      Some (fst r :: ts)
  end.

(** Two lexers that return the same tokens from here on. *)
Definition same_tokens (l1 l2 : Lexer) : Prop :=
  forall n, next_tokens n l1 = next_tokens n l2.

(** Two parser states with the same current and next token, on lexers
    that return the same tokens; their diagnostics may differ. *)
Definition alike (p q : Parser) : Prop :=
  currToken p = currToken q /\ peekToken p = peekToken q
  /\ same_tokens (lexer_ p) (lexer_ q).

(** Two runs of a method, from [p] and from [q], end alike: both fail to
    return, or both return the same result, in states that are alike,
    after appending the same diagnostics. *)
Definition agree {A : Type} (r1 r2 : option (A * Parser)) (p q : Parser)
  : Prop :=
  match r1, r2 with
  | Some (a, p'), Some (b, q') =>
      a = b /\ alike p' q'
      /\ exists ds, errors p' = (errors p ++ ds)%list
                    /\ errors q' = (errors q ++ ds)%list
  | None, None => True
  | _, _ => False
  end.

(** The statement [parseExpressionStmt] builds on a single-token
    operand. *)
Definition operand_stmt (a : operand) : ast.Stmt :=
  ast.ExpressionStmt (operand_token a) (operand_expr a).

(** A node as the handlers build it: its token is of a kind its handler
    is registered for, the operator of a prefix or infix node and the
    value of an identifier are the literal of its token, and the value of
    a number is what [ParseFloat] makes of the literal of its token; so
    for the nodes below it. *)
Fixpoint well_formed (e : ast.Expr) : Prop :=
  match e with
  | ast.Identifier t v =>
      token.Typ t = token.Identifier /\ v = token.Literal t
  | ast.NumberLiteral t v =>
      token.Typ t = token.Number
      /\ strconv.ParseFloat (token.Literal t) = Some v
  | ast.PrefixExpr t op r =>
      prefix_symbol (token.Typ t) <> None /\ op = token.Literal t
      /\ match r with Some x => well_formed x | None => True end
  | ast.InfixExpr t l op r =>
      operator_symbol (token.Typ t) <> None /\ op = token.Literal t
      /\ match l with Some x => well_formed x | None => True end
      /\ match r with Some x => well_formed x | None => True end
  | ast.CallExpr t f a =>
      token.Typ t = token.LeftParen
      /\ match f with Some x => well_formed x | None => True end
      /\ match a with
         | Some l =>
             (fix every (l : list (option ast.Expr)) : Prop :=
                match l with
                | [] => True
                | arg :: l' =>
                    match arg with
                    | Some x => well_formed x
                    | None => True
                    end /\ every l'
                end) l
         | None => True
         end
  end.

Definition owell_formed (e : option ast.Expr) : Prop :=
  match e with Some x => well_formed x | None => True end.

Definition well_formed_stmt (s : ast.Stmt) : Prop :=
  match s with ast.ExpressionStmt _ e => owell_formed e end.

(** Whatever the call [r] returns satisfies [Q]. *)
Definition produces {A : Type} (r : option (A * Parser)) (Q : A -> Prop)
  : Prop :=
  forall a p', r = Some (a, p') -> Q a.

(** The token kinds [New] registers an infix handler for: the kinds that
    continue an expression. *)
Definition continues_expression (t : token.TokenType) : bool :=
  match infixParseFns (fun _ => fail) 0 t with
  | Some _ => true
  | None => false
  end.

(** ** Expression trees and their rendering *)

(** The expressions the handlers build from single-token operands: prefix
    and infix nodes on an operator token of kind [t], and calls. *)
#[warnings="-register-all"]
Inductive tree : Set :=
| Leaf (o : operand)
| Prefix (t : token.TokenType) (r : tree)
| Infix (t : token.TokenType) (l r : tree)
| Call (f : tree) (args : list tree).

Definition prefix_spelling (t : token.TokenType) : string :=
  match prefix_symbol t with Some sym => sym | None => "" end.

Definition operator_spelling (t : token.TokenType) : string :=
  match operator_symbol t with Some sym => sym | None => "" end.

(** The node of the AST for a tree. *)
Fixpoint tree_expr (tr : tree) : option ast.Expr :=
  match tr with
  | Leaf o => operand_expr o
  | Prefix t r => Some (prefix_node t (prefix_spelling t) (tree_expr r))
  | Infix t l r =>
      Some (infix_node t (operator_spelling t) (tree_expr l) (tree_expr r))
  | Call f args =>
      Some (ast.CallExpr LeftParenToken (tree_expr f)
              (Some (map tree_expr args)))
  end.

(** The text [String()] gives to the node of a tree. *)
Fixpoint tree_text (tr : tree) : string :=
  match tr with
  | Leaf o => operand_text o
  | Prefix t r => prefix_text (prefix_spelling t) (tree_text r)
  | Infix t l r =>
      infix_text (tree_text l) (operator_spelling t) (tree_text r)
  | Call f args =>
      tree_text f ++ "(" ++ String.concat ", " (map tree_text args) ++ ")"
  end.

(** The operands are single tokens and the operators are registered. *)
Fixpoint tree_ok (tr : tree) : bool :=
  match tr with
  | Leaf o => operand_ok o
  | Prefix t r =>
      match prefix_symbol t with Some _ => true | None => false end
      && tree_ok r
  | Infix t l r =>
      match operator_symbol t with Some _ => true | None => false end
      && tree_ok l && tree_ok r
  | Call f args => tree_ok f && forallb tree_ok args
  end.

(** The first token of the text of a tree. *)
Fixpoint tree_first (tr : tree) : token.Token :=
  match tr with
  | Leaf o => operand_token o
  | Prefix _ _ | Infix _ _ _ => LeftParenToken
  | Call f _ => tree_first f
  end.

(** The calls at the root of a tree: the iterations the loop of
    [parseExpression] makes on its text. *)
Fixpoint calls (tr : tree) : nat :=
  match tr with
  | Call f _ => S (calls f)
  | _ => 0
  end.

(** A nesting depth that suffices to parse the text of a tree. *)
Fixpoint need (tr : tree) : nat :=
  match tr with
  | Leaf _ => 1
  | Prefix _ r => 2 + need r
  | Infix _ l r => 2 + need l + need r
  | Call f args =>
      2 + need f + fold_right (fun a n => S (need a) + n) 0 args
  end.

(** The text behind an argument of a call: the arguments [rest] that
    follow, each behind a comma and a space, the closing parenthesis, and
    the text [y] behind the call. *)
Fixpoint more_trees (rest : list tree) (y : string) : string :=
  match rest with
  | [] => ")" ++ y
  | a :: r => ", " ++ tree_text a ++ more_trees r y
  end.

(** A symbol that ends an identifier and a number. *)
Definition stop_char (c : ascii) : bool :=
  negb (utils.IsAlpha c) && negb (isNumberChar c).

(** A symbol an expression can start with in a rendering. *)
Definition start_char (c : ascii) : bool :=
  utils.IsAlpha c || utils.IsNumeric c || (c =? leftParen)%char.

(** The text behind the current token of [p] is [s]: the next token of
    [p] is the first token of [s], and its lexer stands behind it. *)
Definition after (p : Parser) (s : string) : Prop :=
  lexer_inv (lexer_ p)
  /\ peekToken p = fst (lexSuffix s)
  /\ rest_of (lexer_ p) = snd (lexSuffix s).

(** The loop of [parseExpression] at [prec] ends before the token [t]. *)
Definition ends_at (prec : Precedence) (t : token.Token) : bool :=
  token.TokenType_beq (token.Typ t) token.Semicolon
  || negb (prec <? match precedences (token.Typ t) with
                   | Some pr => pr
                   | None => LOWEST
                   end)%Z.

(** What the lexer guarantees of a token, by its kind: the literal of an
    identifier is a run of letters and underscores that is no keyword,
    the literal of a number is a run of digits and dots that starts with
    a digit, and the literal of an operator or of the opening parenthesis
    is its spelling. *)
Definition lexed (t : token.Token) : bool :=
  match token.Typ t with
  | token.Identifier => operand_ok (Ident (token.Literal t))
  | token.Number =>
      utils.IsNumeric (hd (token.Literal t))
      && string_forall isNumberChar (token.Literal t)
  | token.Bang => (token.Literal t =? "!")%string
  | token.LeftParen => (token.Literal t =? "(")%string
  | ty =>
      match operator_symbol ty with
      | Some sym => (token.Literal t =? sym)%string
      | None => true
      end
  end.

(** A parser state whose two tokens are as the lexer makes them. *)
Definition state_ok (p : Parser) : Prop :=
  lexed (currToken p) = true /\ lexed (peekToken p) = true
  /\ lexer_inv (lexer_ p).

(** The node of a tree. *)
Definition shape (e : option ast.Expr) : Prop :=
  exists tr, tree_ok tr = true /\ e = tree_expr tr.

Definition shapes (l : list (option ast.Expr)) : Prop :=
  exists trs, forallb tree_ok trs = true /\ l = map tree_expr trs.

Definition stmt_shape (s : ast.Stmt) : Prop :=
  exists tok tr, tree_ok tr = true /\ s = ast.ExpressionStmt tok (tree_expr tr).

(** From a state as the lexer makes it, whatever the call [r] returns
    leaves such a state, with the diagnostics [ds] appended, and [Q] holds
    of the result and of [ds]. *)
Definition shaped {A : Type} (r : option (A * Parser)) (p : Parser)
  (Q : A -> list string -> Prop) : Prop :=
  state_ok p ->
  forall a p', r = Some (a, p') ->
    state_ok p'
    /\ exists ds, errors p' = (errors p ++ ds)%list /\ Q a ds.

(** ** Chains of binary operators *)

(** The trees of binary operators over single-token operands. *)
Inductive bin : Set :=
| BLeaf (o : operand)
| BNode (t : token.TokenType) (l r : bin).

Fixpoint bin_tree (b : bin) : tree :=
  match b with
  | BLeaf o => Leaf o
  | BNode t l r => Infix t (bin_tree l) (bin_tree r)
  end.

(** The operands and operators of a tree, from left to right: the first
    operand, then each operator with the operand behind it. *)
Fixpoint flatten (b : bin) : operand * list (token.TokenType * operand) :=
  match b with
  | BLeaf o => (o, [])
  | BNode t l r =>
      (fst (flatten l),
       (snd (flatten l) ++ (t, fst (flatten r)) :: snd (flatten r))%list)
  end.

(** The precedence [peekPrecedence] and [currPrecedence] give a kind. *)
Definition prec_of (t : token.TokenType) : Precedence :=
  match precedences t with Some pr => pr | None => LOWEST end.

Definition root_prec (b : bin) : option Precedence :=
  match b with
  | BLeaf _ => None
  | BNode t _ _ => Some (prec_of t)
  end.

(** At every node, the operator at the root of the left operand binds at
    least as tightly as the node's operator, and the operator at the root
    of the right operand strictly tighter. *)
Fixpoint respects (b : bin) : bool :=
  match b with
  | BLeaf _ => true
  | BNode t l r =>
      respects l && respects r
      && match root_prec l with
         | Some pl => (prec_of t <=? pl)%Z
         | None => true
         end
      && match root_prec r with
         | Some pr => (prec_of t <? pr)%Z
         | None => true
         end
  end.

(** The text of the operators and operands behind the first operand of a
    chain, with single spaces. *)
Fixpoint items_text (items : list (token.TokenType * operand)) : string :=
  match items with
  | [] => ""
  | (t, a) :: r =>
      " " ++ operator_spelling t ++ " " ++ operand_text a ++ items_text r
  end.

Definition item_ok (it : token.TokenType * operand) : bool :=
  match operator_symbol (fst it) with Some _ => true | None => false end
  && operand_ok (snd it).

(** The operator at the root of [b], if any, binds tighter than [prec]. *)
Definition above (prec : Precedence) (b : bin) : Prop :=
  match root_prec b with Some pr => (prec < pr)%Z | None => True end.

(** The first operator of [items], if any, binds at most like [prec]. *)
Definition stops_before (prec : Precedence)
  (items : list (token.TokenType * operand)) : Prop :=
  match items with
  | [] => True
  | (t, _) :: _ => (prec_of t <= prec)%Z
  end.

(** The first operator of [items], if any, binds at most like the
    operator at the root of [b], if any. *)
Definition left_ok (b : bin) (items : list (token.TokenType * operand))
  : Prop :=
  match root_prec b with
  | Some pl => stops_before pl items
  | None => True
  end.

(** The call [r], made in the state [p] on the text of [items], returns
    the node of a tree [b] that holds the operands and operators [first],
    [before] and those it took from [items], up to the first operator
    that binds at most like [prec]. *)
Definition climbed (r : option (option ast.Expr * Parser)) (p : Parser)
  (prec : Precedence) (first : operand)
  (before items : list (token.TokenType * operand)) : Prop :=
  exists b taken items' p',
    r = Some (tree_expr (bin_tree b), p')
    /\ items = (taken ++ items')%list
    /\ flatten b = (first, (before ++ taken)%list)
    /\ respects b = true /\ above prec b /\ stops_before prec items'
    /\ after p' (items_text items') /\ errors p' = errors p.

End Vocabulary.

(** * Properties of the lexer *)

Section LexerInvariant.

Import lexer.

Lemma get_in_range (s : string) (i : nat) :
  i < String.length s -> exists c, String.get i s = Some c.
Proof.
  revert i; induction s as [|a s IH]; simpl; intros i Hi; [lia|].
  destruct i as [|i]; [eauto|]. apply IH; lia.
Qed.

Lemma byte_at_get (s : string) (i : nat) :
  i < String.length s -> String.get i s = Some (byte_at s i).
Proof.
  intros Hi. unfold byte_at.
  destruct (get_in_range s i Hi) as [c ->]. reflexivity.
Qed.

Lemma readChar_source (l : Lexer) : source (readChar l) = source l.
Proof. reflexivity. Qed.

Lemma readChar_position (l : Lexer) :
  position (readChar l) = readPosition l.
Proof. reflexivity. Qed.

(** Every read step establishes the invariant, whatever the state before. *)
Lemma readChar_inv (l : Lexer) : lexer_inv (readChar l).
Proof.
  unfold lexer_inv, readChar; simpl.
  destruct (Nat.leb_spec (String.length (source l)) (readPosition l)).
  - split; [reflexivity|]. split; [lia | reflexivity].
  - split; [reflexivity|]. split; [|lia]. intros _. now apply byte_at_get.
Qed.

Lemma New_inv (src : string) : lexer_inv (New src).
Proof. apply readChar_inv. Qed.

Lemma inv_char_nul (l : Lexer) :
  lexer_inv l -> char l <> nul -> position l < String.length (source l).
Proof.
  intros (_ & _ & H) Hc.
  destruct (Nat.lt_ge_cases (position l) (String.length (source l)));
    [assumption | now elim Hc; apply H].
Qed.

End LexerInvariant.

Section LexerLoops.

Import lexer.

Lemma readIdentifer_loop_scan fuel l :
  readIdentifer_loop fuel l = scan_while utils.IsAlpha fuel l.
Proof.
  revert l; induction fuel as [|n IH]; intros l; simpl; [reflexivity|].
  now rewrite IH.
Qed.

Lemma readNumber_loop_scan fuel l :
  readNumber_loop fuel l = scan_while isNumberChar fuel l.
Proof.
  revert l; induction fuel as [|n IH]; intros l; simpl; [reflexivity|].
  now rewrite IH.
Qed.

Lemma skipWhitespace_loop_scan fuel l :
  skipWhitespace_loop fuel l = scan_while isSpace fuel l.
Proof.
  revert l; induction fuel as [|n IH]; intros l; simpl; [reflexivity|].
  now rewrite IH.
Qed.

Lemma scan_while_ok (cond : ascii -> bool) (Hnul : cond nul = false) :
  forall fuel l,
    lexer_inv l ->
    String.length (source l) - position l < fuel ->
    exists l', scan_while cond fuel l = Some l' /\ scanned cond l l'.
Proof.
  induction fuel as [|n IH]; intros l Hinv Hfuel; [lia|].
  simpl. destruct (cond (char l)) eqn:Hc.
  - assert (Hlt : position l < String.length (source l)).
    { apply inv_char_nul; [assumption|]. intros E. congruence. }
    destruct (IH (readChar l) (readChar_inv l)) as (l' & Hrun & Hs).
    { rewrite readChar_source, readChar_position.
      destruct Hinv as (-> & _). lia. }
    destruct Hs as [Hi Hsrc Hle Hstop Hnone Hsome Hrun'].
    rewrite readChar_source in *. rewrite readChar_position in *.
    pose proof Hinv as (Hrp & Hget & _). rewrite Hrp in *.
    exists l'. split; [assumption|].
    assert (Hbound : position l' <= String.length (source l)).
    { destruct (cond (char (readChar l))) eqn:Hc'.
      - now apply Hsome.
      - rewrite (Hnone eq_refl), readChar_position. lia. }
    constructor; try assumption; try lia; try congruence.
    intros i Hi'. destruct (Nat.eq_dec i (position l)) as [->|Hne].
    + exists (char l). split; [now apply Hget | assumption].
    + apply Hrun'. lia.
  - exists l. split; [reflexivity|].
    constructor; try assumption; try reflexivity; try lia; try congruence.
Qed.

Lemma readString_loop_ok :
  forall fuel l,
    lexer_inv l ->
    position l < String.length (source l) ->
    String.length (source l) - position l <= fuel ->
    exists l', readString_loop fuel l = Some l' /\ string_scanned l l'.
Proof.
  induction fuel as [|n IH]; intros l Hinv Hlt Hfuel; [lia|].
  cbn [readString_loop]. pose proof (readChar_inv l) as Hinv1.
  pose proof Hinv as (Hrp & _ & _).
  destruct ((char (readChar l) =? quote)%char
            || (char (readChar l) =? nul)%char) eqn:Hc.
  - exists (readChar l). split; [reflexivity|].
    constructor; try assumption; try reflexivity.
    + rewrite readChar_position. lia.
    + rewrite readChar_position. lia.
    + apply orb_true_iff in Hc as [Hc|Hc]; apply Ascii.eqb_eq in Hc; auto.
    + intros i. rewrite readChar_position. lia.
  - apply orb_false_iff in Hc as [Hq Hn].
    apply Ascii.eqb_neq in Hq, Hn.
    assert (Hlt1 : position (readChar l) < String.length (source l)).
    { apply (inv_char_nul _ Hinv1 Hn). }
    destruct (IH (readChar l) Hinv1) as (l' & Hrun & Hs).
    { exact Hlt1. }
    { rewrite readChar_source, readChar_position. lia. }
    destruct Hs as [Hi Hsrc Hl Hle Hstop Hrun'].
    rewrite readChar_source in *. rewrite readChar_position in *.
    exists l'. split; [assumption|].
    constructor; try assumption; try lia.
    intros i Hi'. destruct (Nat.eq_dec i (readPosition l)) as [->|Hne].
    + exists (char (readChar l)). repeat split; try assumption.
      destruct Hinv1 as (_ & Hget & _). rewrite readChar_position in Hget.
      now apply Hget.
    + apply Hrun'. lia.
Qed.

End LexerLoops.

Section LexerSteps.

Import lexer.

Lemma advance_step l l1 t :
  lexer_inv l1 -> source l1 = source l -> position l <= position l1 ->
  lex_step l (advance (t, l1)).
Proof.
  intros (Hrp & _) Hsrc Hle. exists t, (readChar l1).
  split; [reflexivity|]. split; [apply readChar_inv|].
  split; [now rewrite readChar_source|].
  rewrite readChar_position. lia.
Qed.

Lemma advance_twoChar l l1 next two one :
  lexer_inv l1 -> source l1 = source l -> position l <= position l1 ->
  lex_step l (advance (twoChar l1 next two one)).
Proof.
  intros Hinv Hsrc Hle. unfold twoChar.
  destruct (peekChar l1 =? next)%char.
  - apply advance_step; [apply readChar_inv | now rewrite readChar_source |].
    rewrite readChar_position. destruct Hinv as (-> & _). lia.
  - now apply advance_step.
Qed.

Lemma slice_some s lo hi :
  lo <= hi -> hi <= String.length s ->
  slice s lo hi = Some (String.substring lo (hi - lo) s).
Proof.
  intros H1 H2. unfold slice.
  apply Nat.leb_le in H1, H2. now rewrite H1, H2.
Qed.

Lemma skipWhitespace_ok l :
  lexer_inv l -> exists l', skipWhitespace l = Some l' /\ scanned isSpace l l'.
Proof.
  intros Hinv. unfold skipWhitespace. rewrite skipWhitespace_loop_scan.
  apply scan_while_ok; [reflexivity | assumption | unfold bound; lia].
Qed.

Lemma readString_ok l :
  lexer_inv l -> char l = quote ->
  exists l', readString l
             = Some (String.substring (position l + 1)
                       (position l' - (position l + 1)) (source l), l')
             /\ string_scanned l l'.
Proof.
  intros Hinv Hq.
  assert (Hlt : position l < String.length (source l)).
  { apply inv_char_nul; [assumption|]. rewrite Hq. discriminate. }
  destruct (readString_loop_ok (bound l) l Hinv Hlt) as (l' & Hrun & Hs).
  { unfold bound. lia. }
  exists l'. split; [|assumption].
  unfold readString. rewrite Hrun. cbn [obind].
  destruct Hs as [Hi Hsrc Hl Hle Hstop _].
  rewrite Hsrc, slice_some by lia. reflexivity.
Qed.

Lemma scan_slice_ok cond l l' :
  scanned cond l l' -> cond (char l) = true ->
  slice (source l') (position l) (position l')
  = Some (String.substring (position l) (position l' - position l)
            (source l)).
Proof.
  intros [Hi Hsrc Hle _ _ Hsome _] Hc.
  destruct (Hsome Hc). rewrite Hsrc. apply slice_some; lia.
Qed.

Lemma readIdentifer_ok l :
  lexer_inv l -> utils.IsAlpha (char l) = true ->
  exists l', readIdentifer l
             = Some (String.substring (position l)
                       (position l' - position l) (source l), l')
             /\ scanned utils.IsAlpha l l'.
Proof.
  intros Hinv Hc. unfold readIdentifer. rewrite readIdentifer_loop_scan.
  destruct (scan_while_ok utils.IsAlpha eq_refl (bound l) l Hinv)
    as (l' & -> & Hs); [unfold bound; lia|].
  exists l'. split; [|assumption]. cbn [obind].
  now rewrite (scan_slice_ok _ _ _ Hs Hc).
Qed.

Lemma readNumber_ok l :
  lexer_inv l -> isNumberChar (char l) = true ->
  exists l', readNumber l
             = Some (String.substring (position l)
                       (position l' - position l) (source l), l')
             /\ scanned isNumberChar l l'.
Proof.
  intros Hinv Hc. unfold readNumber. rewrite readNumber_loop_scan.
  destruct (scan_while_ok isNumberChar eq_refl (bound l) l Hinv)
    as (l' & -> & Hs); [unfold bound; lia|].
  exists l'. split; [|assumption]. cbn [obind].
  now rewrite (scan_slice_ok _ _ _ Hs Hc).
Qed.

(** [NextToken] returns from every state within the invariant, and
    strictly advances the position. *)
Lemma NextToken_ok l : lexer_inv l -> lex_step l (NextToken l).
Proof.
  intros Hinv. unfold NextToken.
  destruct (skipWhitespace_ok l Hinv) as (l1 & -> & Hs). cbn [obind].
  destruct Hs as [Hinv1 Hsrc Hle _ _ _ _].
  repeat match goal with
         | |- lex_step _ (if ?b then _ else _) => destruct b eqn:?
         end;
    try (apply advance_step; assumption);
    try (apply advance_twoChar; assumption).
  - (* string *)
    destruct (readString_ok l1 Hinv1) as (l2 & -> & Hs2).
    { now apply Ascii.eqb_eq. }
    cbn [obind fst snd]. destruct Hs2 as [Hi2 Hsrc2 Hl2 _ _ _].
    apply advance_step; [assumption | congruence | lia].
  - (* identifier *)
    destruct (readIdentifer_ok l1 Hinv1) as (l2 & -> & Hs2);
      [assumption|].
    cbn [obind fst snd]. destruct Hs2 as [Hi2 Hsrc2 _ _ _ Hsome _].
    destruct Hsome; [assumption|].
    eexists _, l2. split; [reflexivity|].
    split; [assumption|]. split; [congruence | lia].
  - (* number *)
    assert (Hn : isNumberChar (char l1) = true).
    { unfold isNumberChar. apply orb_true_iff. now left. }
    destruct (readNumber_ok l1 Hinv1 Hn) as (l2 & -> & Hs2).
    cbn [obind fst snd]. destruct Hs2 as [Hi2 Hsrc2 _ _ _ Hsome _].
    destruct Hsome; [assumption|].
    eexists _, l2. split; [reflexivity|].
    split; [assumption|]. split; [congruence | lia].
Qed.

(** From the end of the source on, [NextToken] returns the end-of-input
    token. *)
Lemma NextToken_at_end l :
  lexer_inv l -> String.length (source l) <= position l ->
  NextToken l = Some (EOFToken, readChar l).
Proof.
  intros (_ & _ & Hnul) Hle. specialize (Hnul Hle).
  assert (Hs : skipWhitespace l = Some l).
  { unfold skipWhitespace, bound. cbn [skipWhitespace_loop].
    now rewrite Hnul. }
  unfold NextToken. rewrite Hs. cbn [obind]. rewrite Hnul. reflexivity.
Qed.

End LexerSteps.

Section LexerRuns.

Import lexer.

Lemma pulls_add a b l :
  pulls (a + b) l = (l' <- pulls a l ;; pulls b l').
Proof.
  revert l; induction a as [|a IH]; intros l; [reflexivity|].
  cbn [Nat.add pulls]. destruct (NextToken l) as [[t l1]|]; cbn [obind];
    [apply IH | reflexivity].
Qed.

Lemma pulls_ok k :
  forall l, lexer_inv l ->
  exists l', pulls k l = Some l' /\ lexer_inv l' /\ source l' = source l
             /\ position l + k <= position l'.
Proof.
  induction k as [|k IH]; intros l Hinv.
  - exists l. split; [reflexivity|]. split; [assumption|].
    split; [reflexivity | lia].
  - destruct (NextToken_ok l Hinv) as (t & l1 & Hn & Hinv1 & Hsrc1 & Hlt).
    destruct (IH l1 Hinv1) as (l' & Hp & Hinv' & Hsrc' & Hle).
    exists l'. cbn [pulls]. rewrite Hn. cbn [obind snd].
    split; [assumption|]. split; [assumption|].
    split; [congruence | lia].
Qed.

End LexerRuns.

(** * Progress of the parser *)

Section ParserProgress.

Import parser.

Lemma advanced_refl p : lexer_inv (lexer_ p) -> advanced 0 [] p p.
Proof.
  intros Hinv. constructor; auto. now rewrite app_nil_r.
Qed.

Lemma advanced_trans k1 ds1 k2 ds2 p p1 p2 :
  advanced k1 ds1 p p1 -> advanced k2 ds2 p1 p2 ->
  advanced (k1 + k2) (ds1 ++ ds2)%list p p2.
Proof.
  intros [_ Hp1 Hpot1 He1 Hs1] [Hi2 Hp2 Hpot2 He2 Hs2].
  constructor.
  - assumption.
  - rewrite pulls_add, Hp1. exact Hp2.
  - lia.
  - now rewrite He2, He1, app_assoc.
  - intros Hk. assert (k1 = 0) by lia. assert (k2 = 0) by lia.
    destruct (Hs1 H) as [E1 E2]. destruct (Hs2 H0) as [E3 E4].
    split; congruence.
Qed.

Lemma returns_ret {A : Type} (a : A) p
  (Q : A -> nat -> list string -> Parser -> Prop) :
  lexer_inv (lexer_ p) -> Q a 0 [] p -> returns (ret a p) p Q.
Proof.
  intros Hinv HQ. exists a, p, 0, []. split; [reflexivity|].
  split; [now apply advanced_refl | assumption].
Qed.

Lemma returns_bind {A B : Type} (m : M A) (f : A -> M B) p
  (Q1 : A -> nat -> list string -> Parser -> Prop)
  (Q : B -> nat -> list string -> Parser -> Prop) :
  returns (m p) p Q1 ->
  (forall a k ds p1, advanced k ds p p1 -> Q1 a k ds p1 ->
     returns (f a p1) p1
       (fun b k2 ds2 p2 => Q b (k + k2) (ds ++ ds2)%list p2)) ->
  returns (bind m f p) p Q.
Proof.
  intros (a & p1 & k & ds & Hm & Hadv & HQ1) Hf.
  destruct (Hf a k ds p1 Hadv HQ1) as (b & p2 & k2 & ds2 & Hfa & Hadv2 & HQ).
  exists b, p2, (k + k2), (ds ++ ds2)%list. split.
  - unfold bind. now rewrite Hm.
  - split; [eapply advanced_trans; eassumption | assumption].
Qed.

Lemma returns_weaken {A : Type} (r : option (A * Parser)) p
  (Q Q' : A -> nat -> list string -> Parser -> Prop) :
  returns r p Q ->
  (forall a k ds p', advanced k ds p p' -> Q a k ds p' -> Q' a k ds p') ->
  returns r p Q'.
Proof.
  intros (a & p' & k & ds & Hm & Hadv & HQ) HQQ.
  exists a, p', k, ds. split; [assumption|]. split; auto.
Qed.

Lemma live_le_1 t : live t <= 1.
Proof. unfold live. destruct token.TokenType_beq; lia. Qed.

Lemma live_EOFToken : live EOFToken = 0.
Proof. reflexivity. Qed.

(** One call of [nextToken]: it returns, and lowers the potential by the
    liveness of the two buffered tokens. *)
Lemma nextToken_raw p :
  lexer_inv (lexer_ p) ->
  exists t l',
    lexer.NextToken (lexer_ p) = Some (t, l')
    /\ nextToken p = Some (tt, {| lexer_ := l'; currToken := peekToken p;
                                   peekToken := t; errors := errors p |})
    /\ lexer_inv l'
    /\ remaining l' + live t <= remaining (lexer_ p).
Proof.
  intros Hinv.
  destruct (NextToken_ok _ Hinv) as (t & l' & Hn & Hinv' & Hsrc & Hlt).
  exists t, l'. split; [assumption|]. split.
  { unfold nextToken. now rewrite Hn. }
  split; [assumption|]. unfold remaining. rewrite Hsrc.
  destruct (Nat.lt_ge_cases (lexer.position (lexer_ p))
              (String.length (lexer.source (lexer_ p)))) as [Hin|Hout].
  - pose proof (live_le_1 t). lia.
  - rewrite (NextToken_at_end _ Hinv Hout) in Hn.
    injection Hn as <- <-. rewrite live_EOFToken. lia.
Qed.

Lemma nextToken_returns p (Q : unit -> nat -> list string -> Parser -> Prop) :
  lexer_inv (lexer_ p) ->
  1 <= live (currToken p) + live (peekToken p) ->
  (forall p', currToken p' = peekToken p -> Q tt 1 [] p') ->
  returns (nextToken p) p Q.
Proof.
  intros Hinv Hlive HQ.
  destruct (nextToken_raw p Hinv) as (t & l' & Hn & Hnt & Hinv' & Hrem).
  eexists tt, _, 1, []. split; [exact Hnt|]. split.
  - constructor; cbn.
    + assumption.
    + now rewrite Hn.
    + unfold potential; cbn. lia.
    + now rewrite app_nil_r.
    + discriminate.
  - apply HQ. reflexivity.
Qed.

Lemma appendError_returns msg p
  (Q : unit -> nat -> list string -> Parser -> Prop) :
  lexer_inv (lexer_ p) ->
  (forall p', Q tt 0 [msg] p') ->
  returns (appendError msg p) p Q.
Proof.
  intros Hinv HQ. eexists tt, _, 0, [msg]. split; [reflexivity|].
  split; [|apply HQ]. constructor; cbn; auto.
Qed.

End ParserProgress.

(** ** Trees without null placeholders *)

Section Complete.

Lemma complete_PrefixExpr t op r :
  complete (ast.PrefixExpr t op r) = ocomplete r.
Proof. reflexivity. Qed.

Lemma complete_InfixExpr t l op r :
  complete (ast.InfixExpr t l op r) = ocomplete l && ocomplete r.
Proof. reflexivity. Qed.

Lemma complete_CallExpr t f a :
  complete (ast.CallExpr t f a) = ocomplete f && complete_args a.
Proof.
  destruct a as [l|]; reflexivity.
Qed.

Lemma forallb_snoc (A : Type) (f : A -> bool) (l : list A) (a : A) :
  forallb f (l ++ [a]) = forallb f l && f a.
Proof.
  rewrite forallb_app. cbn. now rewrite andb_true_r.
Qed.

End Complete.

Section ParserHandlers.

Import parser.

Lemma nextToken_returns1 p :
  lexer_inv (lexer_ p) ->
  1 <= live (currToken p) + live (peekToken p) ->
  returns (nextToken p) p
    (fun _ k ds p' => k = 1 /\ ds = [] /\ currToken p' = peekToken p).
Proof. intros. apply nextToken_returns; auto. Qed.

Lemma appendError_returns1 msg p :
  lexer_inv (lexer_ p) ->
  returns (appendError msg p) p (fun _ k ds _ => k = 0 /\ ds = [msg]).
Proof. intros. apply appendError_returns; auto. Qed.

Lemma live_typ t : token.Typ t <> token.EOF -> live t = 1.
Proof.
  unfold live. intros H.
  destruct (token.TokenType_beq (token.Typ t) token.EOF) eqn:E;
    [|reflexivity].
  apply token.internal_TokenType_dec_bl in E. contradiction.
Qed.

Lemma is_typ t ty : token.TokenType_beq (token.Typ t) ty = true ->
                    token.Typ t = ty.
Proof. apply token.internal_TokenType_dec_bl. Qed.

Lemma app_nil_inv (A : Type) (a b : list A) :
  (a ++ b)%list = [] -> a = [] /\ b = [].
Proof. destruct a; [auto | discriminate]. Qed.

Lemma expectPeek_returns t p :
  t <> token.EOF -> lexer_inv (lexer_ p) ->
  returns (expectPeek t p) p (fun ok _ ds _ => ds = [] -> ok = true).
Proof.
  intros Ht Hinv. unfold expectPeek.
  destruct (peekTokenIs t p) eqn:Hpeek.
  - eapply returns_bind.
    + apply nextToken_returns1; [assumption|].
      apply is_typ in Hpeek.
      rewrite (live_typ (peekToken p)) by congruence. lia.
    + intros [] k ds p1 Hadv _. apply returns_ret;
        [apply Hadv | reflexivity].
  - eapply returns_bind.
    + unfold peekError. apply appendError_returns1. assumption.
    + intros [] k ds p1 Hadv (-> & ->). apply returns_ret;
        [apply Hadv | discriminate].
Qed.

Variable rec : Precedence -> M (option ast.Expr).
Variable n : nat.
Hypothesis Hrec : rec_spec rec n.

Lemma parsePrefixExpr_returns p :
  lexer_inv (lexer_ p) -> live (currToken p) = 1 -> potential p < n ->
  returns (parsePrefixExpr rec p) p
    (fun e _ ds _ => ds = [] -> ocomplete e = true).
Proof.
  intros Hinv Hlive Hpot. unfold parsePrefixExpr. cbv zeta.
  eapply returns_bind; [apply nextToken_returns1; [assumption | lia]|].
  intros [] k ds p1 Hadv (-> & -> & _).
  eapply returns_bind.
  { apply Hrec; [apply Hadv|]. destruct Hadv. lia. }
  intros e k2 ds2 p2 Hadv2 He. apply returns_ret; [apply Hadv2|].
  cbn [app]. rewrite app_nil_r. intros ->. cbn [ocomplete].
  rewrite complete_PrefixExpr. now apply He.
Qed.

Lemma parseInfixExpr_returns left p :
  lexer_inv (lexer_ p) -> live (currToken p) = 1 -> potential p < n ->
  returns (parseInfixExpr rec left p) p
    (fun e _ ds _ => e <> None
                     /\ (ds = [] -> ocomplete left = true ->
                         ocomplete e = true)).
Proof.
  intros Hinv Hlive Hpot. unfold parseInfixExpr. cbv zeta.
  eapply returns_bind; [apply nextToken_returns1; [assumption | lia]|].
  intros [] k ds p1 Hadv (-> & -> & _).
  eapply returns_bind.
  { apply Hrec; [apply Hadv|]. destruct Hadv. lia. }
  intros e k2 ds2 p2 Hadv2 He. apply returns_ret; [apply Hadv2|].
  split; [discriminate|].
  cbn [app]. rewrite app_nil_r. intros -> Hl. cbn [ocomplete].
  rewrite complete_InfixExpr, Hl. now apply He.
Qed.

Lemma parseGroupedExpr_returns p :
  lexer_inv (lexer_ p) -> live (currToken p) = 1 -> potential p < n ->
  returns (parseGroupedExpr rec p) p
    (fun e _ ds _ => ds = [] -> ocomplete e = true).
Proof.
  intros Hinv Hlive Hpot. unfold parseGroupedExpr.
  eapply returns_bind; [apply nextToken_returns1; [assumption | lia]|].
  intros [] k ds p1 Hadv (-> & -> & _).
  eapply returns_bind.
  { apply Hrec; [apply Hadv|]. destruct Hadv. lia. }
  intros e k2 ds2 p2 Hadv2 He.
  eapply returns_bind.
  { apply expectPeek_returns; [discriminate | apply Hadv2]. }
  intros ok k3 ds3 p3 Hadv3 Hok.
  assert (Hds : ([] ++ ds2 ++ ds3 ++ [])%list = [] -> ds2 = [] /\ ok = true).
  { cbn [app]. rewrite app_nil_r. intros H.
    apply app_nil_inv in H as (-> & ->). auto. }
  destruct ok; (apply returns_ret; [apply Hadv3|]); intros H;
    destruct (Hds H) as (H2 & Hk); [now apply He | discriminate].
Qed.

Lemma parseExpressionList_loop_returns :
  forall m items p,
    lexer_inv (lexer_ p) -> potential p < m -> potential p <= n ->
    returns (parseExpressionList_loop rec m items p) p
      (fun items' _ ds _ => ds = [] -> forallb ocomplete items = true ->
                            forallb ocomplete items' = true).
Proof.
  induction m as [|m IH]; intros items p Hinv Hm Hn; [lia|].
  cbn [parseExpressionList_loop].
  destruct (peekTokenIs token.Comma p) eqn:Hpeek.
  - apply is_typ in Hpeek.
    assert (Hlive : live (peekToken p) = 1)
      by (apply live_typ; congruence).
    eapply returns_bind; [apply nextToken_returns1; [assumption | lia]|].
    intros [] k ds p1 Hadv (-> & -> & Hcur).
    eapply returns_bind.
    { apply nextToken_returns1; [apply Hadv | rewrite Hcur; lia]. }
    intros [] k2 ds2 p2 Hadv2 (-> & -> & _).
    eapply returns_bind.
    { apply Hrec; [apply Hadv2|]. destruct Hadv, Hadv2. lia. }
    intros e k3 ds3 p3 Hadv3 He.
    eapply returns_weaken.
    { apply IH; [apply Hadv3 | |]; destruct Hadv, Hadv2, Hadv3; lia. }
    cbv beta. intros items' k4 ds4 p4 _ Hitems. cbn [app]. intros Hds Hall.
    apply app_nil_inv in Hds as (-> & ->). apply Hitems; [reflexivity|].
    rewrite forallb_snoc, Hall. now apply He.
  - change (returns (ret items p) p
              (fun items' _ ds _ => ds = [] ->
                 forallb ocomplete items = true ->
                 forallb ocomplete items' = true)).
    apply returns_ret; auto.
Qed.

Lemma parseExpressionList_returns p :
  lexer_inv (lexer_ p) -> live (currToken p) = 1 -> potential p < n ->
  returns (parseExpressionList rec n token.RightParen p) p
    (fun args _ ds _ => ds = [] -> complete_args args = true).
Proof.
  intros Hinv Hlive Hpot. unfold parseExpressionList.
  destruct (peekTokenIs token.RightParen p).
  - eapply returns_bind; [apply nextToken_returns1; [assumption | lia]|].
    intros [] k ds p1 Hadv _. apply returns_ret; [apply Hadv | reflexivity].
  - eapply returns_bind; [apply nextToken_returns1; [assumption | lia]|].
    intros [] k ds p1 Hadv (-> & -> & _).
    eapply returns_bind.
    { apply Hrec; [apply Hadv|]. destruct Hadv. lia. }
    intros e k2 ds2 p2 Hadv2 He.
    eapply returns_bind.
    { apply parseExpressionList_loop_returns with (items := [e]);
        [apply Hadv2 | |]; destruct Hadv, Hadv2; lia. }
    intros items k3 ds3 p3 Hadv3 Hitems.
    eapply returns_bind.
    { apply expectPeek_returns; [discriminate | apply Hadv3]. }
    intros ok k4 ds4 p4 Hadv4 Hok.
    assert (Hds : ([] ++ ds2 ++ ds3 ++ ds4 ++ [])%list = [] ->
                  ds2 = [] /\ ds3 = [] /\ ok = true).
    { cbn [app]. rewrite app_nil_r. intros H.
      apply app_nil_inv in H as (-> & H).
      apply app_nil_inv in H as (-> & ->). auto. }
    destruct ok; (apply returns_ret; [apply Hadv4|]); intros H;
      destruct (Hds H) as (H2 & H3 & Hk); [|discriminate].
    cbn [complete_args]. apply Hitems; [assumption|].
    cbn [forallb]. rewrite andb_true_r. now apply He.
Qed.

Lemma parseCallExpr_returns function p :
  lexer_inv (lexer_ p) -> live (currToken p) = 1 -> potential p < n ->
  returns (parseCallExpr rec n function p) p
    (fun e _ ds _ => e <> None
                     /\ (ds = [] -> ocomplete function = true ->
                         ocomplete e = true)).
Proof.
  intros Hinv Hlive Hpot. unfold parseCallExpr. cbv zeta.
  eapply returns_bind; [now apply parseExpressionList_returns|].
  intros args k ds p1 Hadv Hargs. apply returns_ret; [apply Hadv|].
  split; [discriminate|]. rewrite app_nil_r. intros -> Hf.
  cbn [ocomplete]. rewrite complete_CallExpr, Hf. now apply Hargs.
Qed.

End ParserHandlers.

Section ParserTermination.

Import parser.

Section Body.

Variable rec : Precedence -> M (option ast.Expr).
Variable n : nat.
Hypothesis Hrec : rec_spec rec n.

Lemma prefix_returns ty prefix :
  prefixParseFns rec ty = Some prefix ->
  forall p, lexer_inv (lexer_ p) -> token.Typ (currToken p) = ty ->
            potential p < n ->
            returns (prefix p) p
              (fun e _ ds _ => ds = [] -> ocomplete e = true).
Proof.
  intros Hfn p Hinv Hty Hpot.
  assert (Hlive : ty <> token.EOF -> live (currToken p) = 1)
    by (intros; apply live_typ; congruence).
  destruct ty; cbn [prefixParseFns] in Hfn; try discriminate;
    injection Hfn as <-.
  - (* Identifier *)
    change (parseIdentifier p) with (ret (Some (ast.Identifier
      (currToken p) (token.Literal (currToken p)))) p).
    apply returns_ret; [assumption | reflexivity].
  - (* Number *)
    unfold parseNumberLiteral.
    destruct (strconv.ParseFloat (token.Literal (currToken p))).
    + change (returns (ret (Some (ast.NumberLiteral (currToken p) f)) p) p
                (fun e _ ds _ => ds = [] -> ocomplete e = true)).
      apply returns_ret; [assumption | reflexivity].
    + eapply returns_bind; [now apply appendError_returns1|].
      intros [] k ds p1 Hadv (-> & ->).
      apply returns_ret; [apply Hadv | discriminate].
  - (* LeftParen *)
    apply (parseGroupedExpr_returns rec n Hrec); auto. apply Hlive.
    discriminate.
  - (* Minus *)
    apply (parsePrefixExpr_returns rec n Hrec); auto. apply Hlive.
    discriminate.
  - (* Bang *)
    apply (parsePrefixExpr_returns rec n Hrec); auto. apply Hlive.
    discriminate.
Qed.

Lemma infix_returns ty infix :
  infixParseFns rec n ty = Some infix ->
  ty <> token.EOF
  /\ forall left p, lexer_inv (lexer_ p) -> token.Typ (currToken p) = ty ->
                    potential p < n ->
                    returns (infix left p) p
                      (fun e _ ds _ =>
                         e <> None
                         /\ (ds = [] -> ocomplete left = true ->
                             ocomplete e = true)).
Proof.
  intros Hfn.
  destruct ty; cbn [infixParseFns] in Hfn; try discriminate;
    injection Hfn as <-; (split; [discriminate|]);
    intros left p Hinv Hty Hpot;
    assert (Hlive : live (currToken p) = 1)
      by (apply live_typ; rewrite Hty; discriminate);
    first [ now apply (parseInfixExpr_returns rec n Hrec)
          | now apply (parseCallExpr_returns rec n Hrec) ].
Qed.

Lemma parseExpression_loop_returns precedence :
  forall m left p,
    lexer_inv (lexer_ p) -> potential p < m -> potential p < n ->
    returns (parseExpression_loop rec n m precedence left p) p
      (fun e _ ds _ =>
         (e = None -> left = None /\ ds = [])
         /\ (ds = [] -> ocomplete left = true -> ocomplete e = true)).
Proof.
  induction m as [|m IH]; intros left p Hinv Hm Hn; [lia|].
  cbn [parseExpression_loop].
  destruct (negb (peekTokenIs token.Semicolon p)
            && (precedence <? peekPrecedence p)%Z).
  2:{ change (Some (left, p)) with (ret left p).
      apply returns_ret; auto. }
  destruct (infixParseFns rec n (token.Typ (peekToken p)))
    as [infix|] eqn:Hfn.
  2:{ change (Some (left, p)) with (ret left p).
      apply returns_ret; auto. }
  destruct (infix_returns _ _ Hfn) as (Hty & Hinfix).
  eapply returns_bind.
  { apply nextToken_returns1; [assumption|].
    rewrite (live_typ (peekToken p)) by assumption. lia. }
  intros [] k ds p1 Hadv (-> & -> & Hcur).
  eapply returns_bind.
  { apply Hinfix; [apply Hadv | now rewrite Hcur |].
    destruct Hadv. lia. }
  intros e k2 ds2 p2 Hadv2 (He & Hc).
  eapply returns_weaken.
  { apply (IH e p2); [apply Hadv2 | |]; destruct Hadv, Hadv2; lia. }
  cbv beta. intros e' k3 ds3 p3 _ (Hnone & Hc'). split.
  - intros ->. destruct (Hnone eq_refl) as (-> & _). now elim He.
  - cbn [app]. intros Hds Hl. apply app_nil_inv in Hds as (-> & ->).
    auto.
Qed.

Lemma parseExpression_body_returns precedence p :
  lexer_inv (lexer_ p) -> potential p < n ->
  returns (parseExpression_body rec n precedence p) p
    (fun e _ ds _ => ds = [] -> ocomplete e = true).
Proof.
  intros Hinv Hpot. unfold parseExpression_body.
  destruct (prefixParseFns rec (token.Typ (currToken p)))
    as [prefix|] eqn:Hfn.
  - eapply returns_bind.
    { now apply (prefix_returns _ _ Hfn). }
    intros left k ds p1 Hadv Hleft.
    eapply returns_weaken.
    { apply parseExpression_loop_returns; [apply Hadv | |];
        destruct Hadv; lia. }
    cbv beta. intros e k2 ds2 p2 _ (_ & Hc) Hds.
    apply app_nil_inv in Hds as (-> & ->). auto.
  - eapply returns_bind.
    { unfold noPrefixParseFnError. now apply appendError_returns1. }
    intros [] k ds p1 Hadv (-> & ->).
    apply returns_ret; [apply Hadv | discriminate].
Qed.

End Body.

(** [parseExpression] returns whenever its fuel exceeds the potential of
    the state by two; an expression parsed without a diagnostic is
    complete. *)
Lemma parseExpression_returns : forall n, rec_spec (parseExpression n) n.
Proof.
  induction n as [|n IH]; intros prec p Hinv Hpot; [lia|].
  cbn [parseExpression].
  apply parseExpression_body_returns; [assumption | assumption | lia].
Qed.

End ParserTermination.

Section ProgramTermination.

Import parser.

Lemma parseStatement_returns fuel p :
  lexer_inv (lexer_ p) -> potential p + 1 < fuel ->
  returns (parseStatement fuel p) p
    (fun s _ ds _ => ds = [] -> complete_stmt s = true).
Proof.
  intros Hinv Hpot. unfold parseStatement, parseExpressionStmt. cbv zeta.
  eapply returns_bind; [now apply parseExpression_returns|].
  intros e k ds p1 Hadv He. cbv beta.
  destruct (peekTokenIs token.Semicolon p1) eqn:Hpeek.
  - apply is_typ in Hpeek.
    eapply returns_bind.
    { apply nextToken_returns1; [apply Hadv|].
      rewrite (live_typ (peekToken p1)) by congruence. lia. }
    intros [] k2 ds2 p2 Hadv2 (_ & -> & _).
    apply returns_ret; [apply Hadv2|].
    rewrite !app_nil_r. exact He.
  - change (returns (ret (ast.ExpressionStmt (currToken p) e) p1) p1
              (fun s _ ds2 _ => (ds ++ ds2)%list = [] ->
                                complete_stmt s = true)).
    apply returns_ret; [apply Hadv|].
    rewrite app_nil_r. exact He.
Qed.

Lemma ParseProgram_loop_returns fuel :
  forall n stmts p,
    lexer_inv (lexer_ p) -> potential p < n -> potential p + 1 < fuel ->
    exists stmts' p' k ds,
      ParseProgram_loop n fuel stmts p = Some (stmts', p')
      /\ finished k ds p p'
      /\ (ds = [] -> forallb complete_stmt stmts = true ->
          forallb complete_stmt stmts' = true).
Proof.
  induction n as [|n IH]; intros stmts p Hinv Hn Hfuel; [lia|].
  cbn [ParseProgram_loop].
  destruct (currTokenIs token.EOF p) eqn:Hcur; cbn [negb].
  - exists stmts, p, 0, []. split; [reflexivity|]. split; [|auto].
    constructor; auto; [now rewrite app_nil_r | now apply is_typ].
  - assert (Hlive : live (currToken p) = 1).
    { unfold live. unfold currTokenIs in Hcur. now rewrite Hcur. }
    destruct (parseStatement_returns fuel p Hinv Hfuel)
      as (stmt & p1 & k1 & ds1 & Hstmt & Hadv & Hcomplete).
    destruct Hadv as [Hinv1 Hpulls1 Hpot1 Herr1 Hsame1].
    destruct (nextToken_raw p1 Hinv1)
      as (t & l2 & Hnext & Hnt & Hinv2 & Hrem).
    set (p2 := {| lexer_ := l2; currToken := peekToken p1; peekToken := t;
                  errors := errors p1 |}) in *.
    assert (Hpot2 : potential p2 + live (peekToken p1) + live (currToken p1)
                    <= potential p1).
    { unfold potential, p2; cbn. lia. }
    assert (Hdrop : k1 + 1 + 2 * potential p2 <= 2 * potential p
                    /\ potential p2 < potential p).
    { destruct k1 as [|k1].
      - destruct (Hsame1 eq_refl) as (Hc & _). rewrite Hc in Hpot2. lia.
      - lia. }
    destruct (IH (stmts ++ [stmt])%list p2)
      as (stmts' & p' & k & ds & Hrun & Hfin & Hall);
      [exact Hinv2 | lia | lia |].
    exists stmts', p', (k1 + 1 + k), (ds1 ++ ds)%list. split.
    { unfold bind. rewrite Hstmt, Hnt. exact Hrun. }
    destruct Hfin as [Hinv' Hpulls' Hcost' Herr' Heof'].
    split.
    + constructor.
      * assumption.
      * rewrite !pulls_add, Hpulls1. cbn [obind lexer.pulls].
        rewrite Hnext. cbn [obind snd]. exact Hpulls'.
      * lia.
      * rewrite Herr'. unfold p2; cbn. now rewrite Herr1, app_assoc.
      * assumption.
    + intros Hds Hstmts. apply app_nil_inv in Hds as (-> & ->).
      apply Hall; [reflexivity|].
      rewrite forallb_snoc, Hstmts. now apply Hcomplete.
Qed.

Lemma potential_bound p :
  potential p <= 2 * String.length (lexer.source (lexer_ p)) + 3.
Proof.
  unfold potential, remaining.
  pose proof (live_le_1 (peekToken p)). pose proof (live_le_1 (currToken p)).
  lia.
Qed.

Lemma New_returns src :
  exists p, New (lexer.New src) = Some p
            /\ lexer_inv (lexer_ p)
            /\ lexer.source (lexer_ p) = src
            /\ lexer.pulls 2 (lexer.New src) = Some (lexer_ p)
            /\ errors p = [].
Proof.
  unfold New.
  set (p0 := {| lexer_ := lexer.New src; currToken := token.zeroToken;
                peekToken := token.zeroToken; errors := [] |}).
  destruct (nextToken_raw p0 (New_inv src))
    as (t1 & l1 & Hn1 & Hnt1 & Hinv1 & _).
  set (p1 := {| lexer_ := l1; currToken := peekToken p0; peekToken := t1;
                errors := errors p0 |}) in *.
  destruct (nextToken_raw p1 Hinv1) as (t2 & l2 & Hn2 & Hnt2 & Hinv2 & _).
  eexists. unfold bind. rewrite Hnt1, Hnt2. cbn [obind snd].
  split; [reflexivity|]. cbn [lexer_ errors].
  split; [assumption|]. split.
  { destruct (NextToken_ok _ (New_inv src)) as (? & ? & Ha & _ & Hs1 & _).
    cbn [lexer_ p0] in Hn1. rewrite Hn1 in Ha. injection Ha as <- <-.
    destruct (NextToken_ok _ Hinv1) as (? & ? & Hb & _ & Hs2 & _).
    cbn [lexer_ p1] in Hn2. rewrite Hn2 in Hb. injection Hb as <- <-.
    rewrite Hs2, Hs1. reflexivity. }
  split; [|reflexivity].
  cbn [lexer.pulls]. cbn [lexer_ p0] in Hn1. rewrite Hn1. cbn [obind snd].
  cbn [lexer_ p1] in Hn2. rewrite Hn2. reflexivity.
Qed.

(** Parsing any source with [enough_fuel] returns a program; the lexer is
    pulled at most [4 * len + 8] times in all, the parser stops on an
    end-of-input token, and a program parsed without a diagnostic has no
    null placeholder. *)
Lemma parse_returns src :
  exists prog p k,
    parse (enough_fuel src) src = Some (prog, p)
    /\ lexer.pulls k (lexer.New src) = Some (lexer_ p)
    /\ k <= 4 * String.length src + 8
    /\ token.Typ (currToken p) = token.EOF
    /\ (errors p = [] -> forallb complete_stmt (ast.Stmts prog) = true).
Proof.
  destruct (New_returns src) as (p0 & HNew & Hinv0 & Hsrc0 & Hpulls0 & He0).
  pose proof (potential_bound p0) as Hb. rewrite Hsrc0 in Hb.
  destruct (ParseProgram_loop_returns (enough_fuel src) (enough_fuel src)
              [] p0 Hinv0) as (stmts & p & k & ds & Hrun & Hfin & Hall);
    [unfold enough_fuel; lia | unfold enough_fuel; lia |].
  destruct Hfin as [Hinv Hpulls Hcost Herr Heof].
  exists {| ast.Stmts := stmts |}, p, (2 + k).
  split.
  { unfold parse. rewrite HNew. cbn [obind].
    unfold ParseProgram, bind. rewrite Hrun. reflexivity. }
  split.
  { rewrite pulls_add, Hpulls0. exact Hpulls. }
  split; [lia|]. split; [assumption|].
  rewrite Herr, He0. cbn [app ast.Stmts]. intros ->. now apply Hall.
Qed.

End ProgramTermination.


(** * Rendering *)

Section Rendering.

Lemma args_String_cons a l :
  args_String (a :: l)
  = (s <- oString a ;; ss <- args_String l ;; Some (s :: ss)).
Proof. reflexivity. Qed.

Lemma Expr_String_CallExpr t f a :
  ast.Expr_String (ast.CallExpr t f a)
  = (args <- match a with Some l => args_String l | None => Some [] end ;;
     s <- oString f ;;
     Some (s ++ "(" ++ String.concat ", " args ++ ")")).
Proof. reflexivity. Qed.



End Rendering.


(** * The lexer on the text that remains

    [NextToken] reads its source by index; what it returns depends only on
    the text from the position on.  [lexSuffix] is that function of the
    remaining text, and [NextToken_refines] relates the two. *)

Section SuffixView.

Import lexer.

Lemma drop_get n : forall s,
  String.get n s
  = match drop n s with String.String c _ => Some c | EmptyString => None end.
Proof.
  induction n as [|n IH]; intros [|c s]; cbn; auto.
Qed.

Lemma drop_length n : forall s,
  String.length (drop n s) = String.length s - n.
Proof.
  induction n as [|n IH]; intros [|c s]; cbn; auto.
Qed.

Lemma drop_S n : forall s, drop (S n) s = tl (drop n s).
Proof.
  induction n as [|n IH]; intros [|c s]; try reflexivity.
  cbn [drop] in *. apply IH.
Qed.

Lemma substring_drop n : forall m s,
  String.substring n m s = String.substring 0 m (drop n s).
Proof.
  induction n as [|n IH]; intros m [|c s]; try reflexivity.
  - destruct m; reflexivity.
  - cbn [drop String.substring]. apply IH.
Qed.

Lemma substring_prefix a : forall b,
  String.substring 0 (String.length a) (a ++ b) = a.
Proof.
  induction a as [|c a IH]; intros b; cbn.
  - destruct b; reflexivity.
  - now rewrite IH.
Qed.

Lemma span_append cond : forall s,
  fst (span cond s) ++ snd (span cond s) = s.
Proof.
  induction s as [|c s IH]; cbn; [reflexivity|].
  destruct (cond c); cbn; [now rewrite IH | reflexivity].
Qed.

Lemma append_length a : forall b,
  String.length (a ++ b) = String.length a + String.length b.
Proof.
  induction a as [|c a IH]; intros b; cbn; [reflexivity | now rewrite IH].
Qed.

Lemma span_length cond s :
  String.length (fst (span cond s)) <= String.length s.
Proof.
  rewrite <- (span_append cond s) at 2. rewrite append_length. lia.
Qed.

Lemma inv_char_hd l : lexer_inv l -> char l = hd (rest_of l).
Proof.
  intros (_ & Hin & Hout). unfold rest_of.
  destruct (Nat.lt_ge_cases (position l) (String.length (source l)))
    as [Hlt|Hge].
  - specialize (Hin Hlt). rewrite drop_get in Hin.
    destruct (drop (position l) (source l)); [discriminate|].
    now injection Hin as ->.
  - rewrite (Hout Hge).
    pose proof (drop_length (position l) (source l)) as Hlen.
    destruct (drop (position l) (source l)); [reflexivity|].
    cbn in Hlen. lia.
Qed.

Lemma rest_readChar l : lexer_inv l -> rest_of (readChar l) = tl (rest_of l).
Proof.
  intros (Hrp & _). unfold rest_of.
  rewrite readChar_position, readChar_source, Hrp, Nat.add_1_r.
  apply drop_S.
Qed.

Lemma peekChar_hd l : lexer_inv l -> peekChar l = hd (tl (rest_of l)).
Proof.
  intros Hinv. rewrite <- rest_readChar by assumption.
  rewrite <- inv_char_hd by apply readChar_inv. reflexivity.
Qed.

Lemma rest_length l :
  String.length (rest_of l) = String.length (source l) - position l.
Proof. apply drop_length. Qed.

Lemma scan_while_rest cond (Hnul : cond nul = false) :
  forall fuel l,
    lexer_inv l -> String.length (rest_of l) < fuel ->
    exists l', scan_while cond fuel l = Some l'
               /\ reaches l l' (String.length (fst (span cond (rest_of l))))
                    (snd (span cond (rest_of l))).
Proof.
  induction fuel as [|fuel IH]; intros l Hinv Hfuel; [lia|].
  cbn [scan_while]. rewrite (inv_char_hd l Hinv).
  destruct (rest_of l) as [|c t] eqn:Hrest; cbn [hd].
  - rewrite Hnul. exists l. split; [reflexivity|]. cbn.
    repeat (split; [solve [auto]|]). lia.
  - cbn [span]. destruct (cond c) eqn:Hc.
    + destruct (IH (readChar l) (readChar_inv l)) as (l' & Hrun & Hre).
      { rewrite rest_readChar, Hrest by assumption. cbn in *. lia. }
      rewrite rest_readChar, Hrest in Hre by assumption. cbn [tl] in Hre.
      exists l'. split; [assumption|].
      destruct Hre as (Hi & Hs & Hr & Hp).
      split; [assumption|]. split; [assumption|]. split; [assumption|].
      rewrite Hp, readChar_position. destruct Hinv as (-> & _). cbn. lia.
    + exists l. split; [reflexivity|]. cbn.
      repeat (split; [solve [auto]|]). lia.
Qed.

Lemma readString_loop_rest :
  forall fuel l,
    lexer_inv l -> String.length (tl (rest_of l)) < fuel ->
    exists l', readString_loop fuel l = Some l'
               /\ reaches l l'
                    (1 + String.length (fst (span notStop (tl (rest_of l)))))
                    (snd (span notStop (tl (rest_of l)))).
Proof.
  induction fuel as [|fuel IH]; intros l Hinv Hfuel; [lia|].
  cbn [readString_loop].
  pose proof (readChar_inv l) as Hinv1.
  pose proof (rest_readChar l Hinv) as Hrest1.
  rewrite (inv_char_hd _ Hinv1), Hrest1.
  assert (Hpos1 : position (readChar l) = position l + 1).
  { rewrite readChar_position. now destruct Hinv. }
  destruct (tl (rest_of l)) as [|d t'] eqn:Ht; cbn [hd].
  - exists (readChar l). split; [reflexivity|].
    split; [assumption|]. split; [reflexivity|].
    split; [cbn [span snd]; congruence|].
    rewrite Hpos1. cbn [span fst String.length]. lia.
  - cbn [span].
    change (notStop d) with (negb ((d =? quote)%char || (d =? nul)%char)).
    destruct ((d =? quote)%char || (d =? nul)%char); cbn [negb].
    + exists (readChar l). split; [reflexivity|].
      split; [assumption|]. split; [reflexivity|].
      split; [cbn [snd]; congruence|].
      rewrite Hpos1. cbn [fst String.length]. lia.
    + destruct (IH (readChar l) Hinv1) as (l' & Hrun & Hre).
      { rewrite Hrest1. cbn in *. lia. }
      rewrite Hrest1 in Hre. cbn [tl] in Hre.
      exists l'. split; [assumption|].
      destruct Hre as (Hi & Hs & Hr & Hp).
      split; [assumption|]. split; [assumption|]. split; [assumption|].
      rewrite Hp, Hpos1. cbn [fst String.length]. lia.
Qed.

End SuffixView.


Section Refinement.

Import lexer.

Lemma advance_refines l t :
  lexer_inv l -> refines (advance (t, l)) (t, tl (rest_of l)).
Proof.
  intros Hinv. exists (readChar l). split; [reflexivity|].
  split; [apply readChar_inv | now apply rest_readChar].
Qed.

Lemma twoChar_refines l next two one :
  lexer_inv l ->
  refines (advance (twoChar l next two one))
    (twoCharSuffix (hd (rest_of l)) (tl (rest_of l)) next two one).
Proof.
  intros Hinv. unfold twoChar, twoCharSuffix.
  rewrite (peekChar_hd l Hinv).
  destruct (hd (tl (rest_of l)) =? next)%char.
  - rewrite (inv_char_hd l Hinv).
    rewrite (inv_char_hd (readChar l) (readChar_inv l)).
    rewrite (rest_readChar l Hinv).
    rewrite <- (rest_readChar l Hinv). apply advance_refines.
    apply readChar_inv.
  - rewrite (inv_char_hd l Hinv). now apply advance_refines.
Qed.

Lemma rest_nonempty l :
  lexer_inv l -> hd (rest_of l) <> nul ->
  position l < String.length (source l).
Proof.
  intros Hinv Hc. apply inv_char_nul; [assumption|].
  now rewrite (inv_char_hd l Hinv).
Qed.

Lemma reaches_slice cond l l' from skip :
  lexer_inv l -> position l + skip <= String.length (source l) ->
  from = position l + skip ->
  reaches l l' (skip + String.length (fst (span cond (drop from (source l)))))
    (snd (span cond (drop from (source l)))) ->
  slice (source l') from (position l')
  = Some (fst (span cond (drop from (source l)))).
Proof.
  intros Hinv Hle -> (_ & Hsrc & _ & Hpos).
  pose proof (span_length cond (drop (position l + skip) (source l))) as Hlen.
  rewrite drop_length in Hlen.
  rewrite Hsrc, Hpos, slice_some by lia.
  rewrite substring_drop.
  replace (position l + (skip + _) - (position l + skip))
    with (String.length
            (fst (span cond (drop (position l + skip) (source l))))) by lia.
  set (d := drop (position l + skip) (source l)).
  assert (Hd : d = fst (span cond d) ++ snd (span cond d))
    by (symmetry; apply span_append).
  set (x := fst (span cond d)) in *.
  rewrite Hd. now rewrite substring_prefix.
Qed.

Lemma readString_refines l :
  lexer_inv l -> hd (rest_of l) <> nul ->
  refines (r <- readString l ;;
           advance ({| token.Literal := fst r; token.Typ := token.String |},
                    snd r))
    ({| token.Literal := fst (span notStop (tl (rest_of l)));
        token.Typ := token.String |},
     tl (snd (span notStop (tl (rest_of l))))).
Proof.
  intros Hinv Hc. pose proof (rest_nonempty l Hinv Hc) as Hlt.
  destruct (readString_loop_rest (bound l) l Hinv) as (l2 & Hrun & Hre).
  { unfold bound. pose proof (rest_length l).
    destruct (rest_of l); cbn in *; lia. }
  assert (Htl : tl (rest_of l) = drop (position l + 1) (source l)).
  { unfold rest_of. now rewrite Nat.add_1_r, drop_S. }
  unfold readString. rewrite Hrun. cbn [obind].
  rewrite Htl in *.
  rewrite (reaches_slice notStop l l2 (position l + 1) 1 Hinv);
    [| lia | reflexivity | exact Hre].
  cbn [obind fst snd]. destruct Hre as (Hinv2 & _ & Hrest2 & _).
  rewrite <- Hrest2. now apply advance_refines.
Qed.

Lemma scan_refines cond (Hnul : cond nul = false) l
  (mk : string -> token.Token) :
  lexer_inv l -> hd (rest_of l) <> nul ->
  refines (r <- (l' <- scan_while cond (bound l) l ;;
                 s <- slice (source l') (position l) (position l') ;;
                 Some (s, l')) ;;
           Some (mk (fst r), snd r))
    (mk (fst (span cond (rest_of l))), snd (span cond (rest_of l))).
Proof.
  intros Hinv Hc. pose proof (rest_nonempty l Hinv Hc) as Hlt.
  destruct (scan_while_rest cond Hnul (bound l) l Hinv) as (l2 & Hrun & Hre).
  { unfold bound. rewrite rest_length. lia. }
  rewrite Hrun. cbn [obind]. unfold rest_of in *.
  rewrite (reaches_slice cond l l2 (position l) 0 Hinv);
    [| lia | lia | exact Hre].
  cbn [obind fst snd]. exists l2. split; [reflexivity|].
  destruct Hre as (Hinv2 & _ & Hrest2 & _). auto.
Qed.

Lemma IsAlpha_not_nul c : utils.IsAlpha c = true -> c <> nul.
Proof. intros H ->. discriminate. Qed.

Lemma IsNumeric_not_nul c : utils.IsNumeric c = true -> c <> nul.
Proof. intros H ->. discriminate. Qed.

(** [NextToken] returns from every state within the invariant; the token
    is the one [lexSuffix] finds at the head of the remaining text, and the
    text that then remains is the one [lexSuffix] leaves. *)
Theorem NextToken_refines l :
  lexer_inv l -> refines (NextToken l) (lexSuffix (rest_of l)).
Proof.
  intros Hinv. unfold NextToken, skipWhitespace.
  rewrite skipWhitespace_loop_scan.
  destruct (scan_while_rest isSpace eq_refl (bound l) l Hinv)
    as (l1 & -> & Hinv1 & _ & Hrest1 & _).
  { unfold bound. rewrite rest_length. lia. }
  cbn [obind]. unfold lexSuffix. cbv zeta. rewrite <- Hrest1.
  rewrite (inv_char_hd l1 Hinv1).
  repeat match goal with
         | |- refines (if ?b then _ else _) _ => destruct b eqn:?; cbv iota
         end;
    try (now apply advance_refines);
    try (now apply twoChar_refines).
  - (* string *)
    apply readString_refines; [assumption|].
    intros E. rewrite E in *. discriminate.
  - (* identifier *)
    unfold readIdentifer. rewrite readIdentifer_loop_scan.
    apply (scan_refines utils.IsAlpha eq_refl l1
             (fun s => {| token.Literal := s;
                          token.Typ := LookupIdent s |}));
      [assumption | now apply IsAlpha_not_nul].
  - (* number *)
    unfold readNumber. rewrite readNumber_loop_scan.
    apply (scan_refines isNumberChar eq_refl l1
             (fun s => {| token.Literal := s; token.Typ := token.Number |}));
      [assumption | now apply IsNumeric_not_nul].
Qed.

End Refinement.


Section SuffixLexing.

Import lexer.

Lemma rest_of_New src : rest_of (New src) = src.
Proof. reflexivity. Qed.

Lemma append_assoc (a b c : string) : (a ++ b) ++ c = a ++ (b ++ c).
Proof. induction a as [|x a IH]; cbn; [reflexivity | now rewrite IH]. Qed.

Lemma span_exact cond x : forall y,
  string_forall cond x = true -> cond (hd y) = false ->
  span cond (x ++ y) = (x, y).
Proof.
  induction x as [|c x IH]; intros y Hx Hy; cbn [append].
  - destruct y as [|d y]; [reflexivity|]. cbn in *. now rewrite Hy.
  - cbn in Hx. apply andb_true_iff in Hx as [Hc Hx].
    cbn [span]. rewrite Hc, (IH y Hx Hy). reflexivity.
Qed.

Lemma span_none cond s : cond (hd s) = false -> span cond s = ("", s).
Proof. apply (span_exact cond "" s eq_refl). Qed.

Lemma lexSuffix_spaces ws s :
  string_forall isSpace ws = true -> lexSuffix (ws ++ s) = lexSuffix s.
Proof.
  intros Hws. unfold lexSuffix.
  assert (E : snd (span isSpace (ws ++ s)) = snd (span isSpace s)).
  { induction ws as [|c ws IH]; [reflexivity|].
    cbn in Hws. apply andb_true_iff in Hws as [Hc Hws].
    cbn [append span]. rewrite Hc. cbn [snd]. now apply IH. }
  now rewrite E.
Qed.

(** The token of a text that starts with a double quote, holds no further
    quote and no NUL symbol over [body], and then ends or goes on with a
    quote. *)
Lemma lexSuffix_string body tail :
  string_forall notStop body = true -> notStop (hd tail) = false ->
  lexSuffix (String.String quote (body ++ tail))
  = ({| token.Literal := body; token.Typ := token.String |}, tl tail).
Proof.
  intros Hbody Htail. unfold lexSuffix.
  rewrite (span_none isSpace) by reflexivity.
  cbv zeta. cbn [snd hd tl].
  rewrite (span_exact notStop body tail Hbody Htail). reflexivity.
Qed.

End SuffixLexing.

Section StringLiterals.

Import lexer.

(** C5, as the code has it.  Let the text that remains hold, after
    whitespace, a double quote, then a [body] without quote and without NUL
    symbol (byte 0), and then either nothing (an unterminated literal) or a
    closing quote.  [NextToken] returns a String token whose literal is
    [body]: the text from the symbol after the opening quote to the end of
    the input, respectively the content strictly between the two quotes.
    No error and no illegal token is produced, and the lexer is left after
    the closing quote, or at the end. *)
Theorem string_literal_token (l : Lexer) (ws body tail : string) :
  lexer_inv l ->
  rest_of l = ws ++ String.String quote (body ++ tail) ->
  string_forall isSpace ws = true ->
  string_forall notStop body = true ->
  tail = "" \/ hd tail = quote ->
  exists l',
    NextToken l = Some ({| token.Literal := body;
                           token.Typ := token.String |}, l')
    /\ lexer_inv l' /\ rest_of l' = tl tail.
Proof.
  intros Hinv Hrest Hws Hbody Htail.
  destruct (NextToken_refines l Hinv) as (l' & Hn & Hinv' & Hrest').
  rewrite Hrest, lexSuffix_spaces, lexSuffix_string in Hn, Hrest';
    try assumption; try (destruct Htail as [->| ->]; reflexivity).
  exists l'. auto.
Qed.

(** An unterminated literal (a quote, then abc) and a terminated one (a b
    between quotes) followed by more text. *)
Lemma string_literal_token_witness :
  (exists l',
     NextToken (New (String.String quote "abc"))
     = Some ({| token.Literal := "abc"; token.Typ := token.String |}, l')
     /\ lexer_inv l' /\ rest_of l' = "")
  /\ (exists l',
        NextToken (New (" " ++ String.String quote
                                 ("a b" ++ String.String quote " + 1")))
        = Some ({| token.Literal := "a b"; token.Typ := token.String |}, l')
        /\ lexer_inv l' /\ rest_of l' = " + 1").
Proof.
  split.
  - apply (string_literal_token (New (String.String quote "abc"))
             "" "abc" "").
    + apply New_inv.
    + reflexivity.
    + reflexivity.
    + reflexivity.
    + left; reflexivity.
  - apply (string_literal_token
             (New (" " ++ String.String quote
                            ("a b" ++ String.String quote " + 1")))
             " " "a b" (String.String quote " + 1")).
    + apply New_inv.
    + reflexivity.
    + reflexivity.
    + reflexivity.
    + right; reflexivity.
Defined.

(** A NUL symbol ends a string literal like a closing quote: for the source
    made of a double quote, [a], byte 0 and [b], which has no closing quote,
    the literal is the one symbol [a] and not the text up to the end of the
    input. *)
Lemma string_literal_stops_at_nul :
  option_map fst
    (NextToken (New (String.String quote
                       (String.String "a"
                          (String.String nul
                             (String.String "b" EmptyString))))))
  = Some {| token.Literal := "a"; token.Typ := token.String |}
  /\ "a" <> String.String "a"
              (String.String nul (String.String "b" EmptyString)).
Proof.
  split; [vm_compute; reflexivity | discriminate].
Qed.

End StringLiterals.


(** * Chains of one binary operator *)

Section Operands.

Import lexer.

Ltac chain_false H :=
  repeat match goal with
         | |- (if (?a =? ?b)%char then _ else _) = _ =>
             let E := fresh "E" in
             destruct (a =? b)%char eqn:E;
             [ exfalso; apply Ascii.eqb_eq in E; rewrite E in H;
               discriminate | ]
         end.

Lemma lexSuffix_alpha s :
  utils.IsAlpha (hd s) = true ->
  lexSuffix s
  = ({| token.Literal := fst (span utils.IsAlpha s);
        token.Typ := LookupIdent (fst (span utils.IsAlpha s)) |},
     snd (span utils.IsAlpha s)).
Proof.
  intros H. unfold lexSuffix.
  assert (Hs : isSpace (hd s) = false).
  { unfold isSpace.
    destruct (hd s =? " ")%char eqn:E1;
      [apply Ascii.eqb_eq in E1; rewrite E1 in H; discriminate|].
    destruct (hd s =? "009")%char eqn:E2;
      [apply Ascii.eqb_eq in E2; rewrite E2 in H; discriminate|].
    destruct (hd s =? "010")%char eqn:E3;
      [apply Ascii.eqb_eq in E3; rewrite E3 in H; discriminate|].
    destruct (hd s =? "013")%char eqn:E4;
      [apply Ascii.eqb_eq in E4; rewrite E4 in H; discriminate|].
    reflexivity. }
  rewrite (span_none isSpace s Hs). cbv zeta. cbn [snd].
  chain_false H. now rewrite H.
Qed.

Lemma lexSuffix_numeric s :
  utils.IsNumeric (hd s) = true ->
  lexSuffix s
  = ({| token.Literal := fst (span isNumberChar s);
        token.Typ := token.Number |},
     snd (span isNumberChar s)).
Proof.
  intros H. unfold lexSuffix.
  assert (Hs : isSpace (hd s) = false).
  { unfold isSpace.
    destruct (hd s =? " ")%char eqn:E1;
      [apply Ascii.eqb_eq in E1; rewrite E1 in H; discriminate|].
    destruct (hd s =? "009")%char eqn:E2;
      [apply Ascii.eqb_eq in E2; rewrite E2 in H; discriminate|].
    destruct (hd s =? "010")%char eqn:E3;
      [apply Ascii.eqb_eq in E3; rewrite E3 in H; discriminate|].
    destruct (hd s =? "013")%char eqn:E4;
      [apply Ascii.eqb_eq in E4; rewrite E4 in H; discriminate|].
    reflexivity. }
  rewrite (span_none isSpace s Hs). cbv zeta. cbn [snd].
  chain_false H.
  destruct (utils.IsAlpha (hd s)) eqn:Ha.
  { exfalso. revert H Ha. generalize (hd s).
    intros [[] [] [] [] [] [] [] []]; discriminate. }
  now rewrite H.
Qed.

Lemma hd_append x y : x <> "" -> hd (x ++ y) = hd x.
Proof. destruct x; [congruence | reflexivity]. Qed.

Lemma alpha_nonempty x : utils.IsAlpha (hd x) = true -> x <> "".
Proof. intros H ->. discriminate. Qed.

Lemma numeric_nonempty x : utils.IsNumeric (hd x) = true -> x <> "".
Proof. intros H ->. discriminate. Qed.

(** An operand followed by a symbol that cannot continue it lexes as its
    token, and leaves what follows. *)
Lemma lexSuffix_operand o y :
  operand_ok o = true ->
  utils.IsAlpha (hd y) = false -> isNumberChar (hd y) = false ->
  lexSuffix (operand_text o ++ y) = (operand_token o, y).
Proof.
  intros Hok Ha Hn. destruct o as [x|x]; cbn [operand_ok] in Hok;
    apply andb_true_iff in Hok as [Hok Hk];
    apply andb_true_iff in Hok as [Hhd Hall]; cbn [operand_text].
  - rewrite lexSuffix_alpha
      by (rewrite hd_append; [assumption | now apply alpha_nonempty]).
    rewrite (span_exact utils.IsAlpha x y Hall Ha). cbn [fst snd].
    unfold LookupIdent. destruct (keywords x); [discriminate | reflexivity].
  - rewrite lexSuffix_numeric
      by (rewrite hd_append; [assumption | now apply numeric_nonempty]).
    rewrite (span_exact isNumberChar x y Hall Hn). reflexivity.
Qed.

(** A binary operator followed by a space lexes as its token. *)
Lemma lexSuffix_operator t sym y :
  operator_symbol t = Some sym ->
  lexSuffix (sym ++ String.String " " y)
  = ({| token.Literal := sym; token.Typ := t |}, String.String " " y).
Proof.
  destruct t; cbn [operator_symbol]; intros [= <-]; reflexivity.
Qed.

Lemma lexSuffix_space s : lexSuffix (String.String " " s) = lexSuffix s.
Proof. apply (lexSuffix_spaces " " s eq_refl). Qed.

Lemma lexSuffix_end : lexSuffix "" = (EOFToken, "").
Proof. reflexivity. Qed.

End Operands.


Section OperatorChains.

Import lexer parser.

Lemma nextToken_at p s t s' :
  lexer_inv (lexer_ p) -> rest_of (lexer_ p) = s -> lexSuffix s = (t, s') ->
  exists l',
    lexer_inv l' /\ rest_of l' = s'
    /\ nextToken p = Some (tt, {| lexer_ := l'; currToken := peekToken p;
                                  peekToken := t; errors := errors p |}).
Proof.
  intros Hinv Hrest Hlex.
  destruct (NextToken_refines _ Hinv) as (l' & Hn & Hinv' & Hrest').
  rewrite Hrest, Hlex in Hn, Hrest'. cbn [fst snd] in Hn, Hrest'.
  exists l'. split; [assumption|]. split; [assumption|].
  unfold nextToken. now rewrite Hn.
Qed.

Lemma body_operand rec n prec o p :
  operand_ok o = true -> currToken p = operand_token o ->
  parseExpression_body rec n prec p
  = parseExpression_loop rec n n prec (operand_expr o) p.
Proof.
  intros Hok Hcur. unfold parseExpression_body. rewrite Hcur.
  destruct o as [x|x]; cbn [operand_token token.Typ prefixParseFns].
  - unfold bind, parseIdentifier. now rewrite Hcur.
  - unfold bind, parseNumberLiteral. rewrite Hcur.
    cbn [operand_token token.Literal operand_expr].
    cbn [operand_ok] in Hok. apply andb_true_iff in Hok as [_ Hok].
    destruct (strconv.ParseFloat x); [reflexivity | discriminate].
Qed.

Lemma loop_exit rec n m prec left p :
  negb (peekTokenIs token.Semicolon p) && (prec <? peekPrecedence p)%Z
  = false ->
  parseExpression_loop rec n (S m) prec left p = Some (left, p).
Proof. intros H. cbn [parseExpression_loop]. now rewrite H. Qed.

Lemma loop_operator rec n m prec left p t sym :
  token.Typ (peekToken p) = t -> operator_symbol t = Some sym ->
  (prec <? peekPrecedence p)%Z = true ->
  parseExpression_loop rec n (S m) prec left p
  = (nextToken ;;
     left' <~ parseInfixExpr rec left ;;
     parseExpression_loop rec n m prec left') p.
Proof.
  intros Ht Hsym Hprec. cbn [parseExpression_loop].
  unfold peekTokenIs. rewrite Hprec, Ht.
  destruct t; try discriminate; reflexivity.
Qed.

Lemma operator_precedence t sym :
  operator_symbol t = Some sym ->
  exists pr, precedences t = Some pr /\ (LOWEST < pr)%Z.
Proof.
  destruct t; try discriminate; intros _; eexists; split;
    try reflexivity; reflexivity.
Qed.

Lemma operator_not_EOF t sym :
  operator_symbol t = Some sym ->
  token.TokenType_beq t token.EOF = false
  /\ token.TokenType_beq t token.Semicolon = false.
Proof. destruct t; try discriminate; intros _; split; reflexivity. Qed.

Lemma operand_not_EOF o :
  token.TokenType_beq (token.Typ (operand_token o)) token.EOF = false.
Proof. destruct o; reflexivity. Qed.

Lemma append_empty_r (s : string) : s ++ "" = s.
Proof. induction s as [|c s IH]; cbn; [reflexivity | now rewrite IH]. Qed.

Lemma oString_operand o :
  operand_ok o = true -> oString (operand_expr o) = Some (operand_text o).
Proof.
  destruct o as [x|x]; intros Hok; [reflexivity|].
  cbn [operand_ok] in Hok. apply andb_true_iff in Hok as [_ Hok].
  cbn [operand_expr]. destruct (strconv.ParseFloat x);
    [reflexivity | discriminate].
Qed.

Lemma oString_InfixExpr t l op r x y :
  oString l = Some x -> oString r = Some y ->
  oString (Some (ast.InfixExpr t l op r)) = Some (infix_text x op y).
Proof.
  intros Hl Hr. cbn [oString ast.Expr_String].
  change (match l with Some e => ast.Expr_String e | None => None end)
    with (oString l).
  change (match r with Some e => ast.Expr_String e | None => None end)
    with (oString r).
  rewrite Hl, Hr. cbn [obind]. unfold infix_text.
  now rewrite !append_assoc.
Qed.

End OperatorChains.


Section LeftAssociativity.

Import lexer parser.

Lemma nextToken_mk l cur peek errs s t s' :
  lexer_inv l -> rest_of l = s -> lexSuffix s = (t, s') ->
  exists l',
    lexer_inv l' /\ rest_of l' = s'
    /\ nextToken {| lexer_ := l; currToken := cur; peekToken := peek;
                    errors := errs |}
       = Some (tt, {| lexer_ := l'; currToken := peek; peekToken := t;
                      errors := errs |}).
Proof.
  intros Hinv Hrest Hlex.
  exact (nextToken_at {| lexer_ := l; currToken := cur; peekToken := peek;
                         errors := errs |} s t s' Hinv Hrest Hlex).
Qed.

Lemma chain_parse a t sym b c :
  operand_ok a = true -> operand_ok b = true -> operand_ok c = true ->
  operator_symbol t = Some sym ->
  exists p,
    parse (enough_fuel (chain_source a sym b c)) (chain_source a sym b c)
    = Some ({| ast.Stmts := [ast.ExpressionStmt (operand_token a)
                               (Some (chain_tree a t sym b c))] |}, p)
    /\ errors p = [].
Proof.
  intros Ha Hb Hc Hsym.
  destruct (operator_precedence t sym Hsym) as (pr & Hpr & Hlow).
  destruct (operator_not_EOF t sym Hsym) as (HnE & HnS).
  set (tO := {| token.Literal := sym; token.Typ := t |}).
  set (src := chain_source a sym b c).
  (* the texts that remain after each token *)
  set (s4 := String.String " " (operand_text c)).
  set (s3 := String.String " " (sym ++ s4)).
  set (s2 := String.String " " (operand_text b ++ s3)).
  set (s1 := String.String " " (sym ++ s2)).
  assert (Hsrc : src = operand_text a ++ s1) by reflexivity.
  assert (L0 : lexSuffix src = (operand_token a, s1)).
  { rewrite Hsrc. now apply lexSuffix_operand. }
  assert (L1 : lexSuffix s1 = (tO, s2)).
  { unfold s1. rewrite lexSuffix_space. now apply lexSuffix_operator. }
  assert (L2 : lexSuffix s2 = (operand_token b, s3)).
  { unfold s2. rewrite lexSuffix_space. now apply lexSuffix_operand. }
  assert (L3 : lexSuffix s3 = (tO, s4)).
  { unfold s3. rewrite lexSuffix_space. now apply lexSuffix_operator. }
  assert (L4 : lexSuffix s4 = (operand_token c, "")).
  { unfold s4. rewrite lexSuffix_space.
    rewrite <- (append_empty_r (operand_text c)) at 1.
    now apply lexSuffix_operand. }
  (* the seven tokens the parser pulls *)
  destruct (nextToken_mk (lexer.New src) token.zeroToken token.zeroToken []
              src _ _ (New_inv src) eq_refl L0) as (l1 & I1 & R1 & N1).
  destruct (nextToken_mk l1 token.zeroToken (operand_token a) []
              s1 _ _ I1 R1 L1) as (l2 & I2 & R2 & N2).
  destruct (nextToken_mk l2 (operand_token a) tO [] s2 _ _ I2 R2 L2)
    as (l3 & I3 & R3 & N3).
  destruct (nextToken_mk l3 tO (operand_token b) [] s3 _ _ I3 R3 L3)
    as (l4 & I4 & R4 & N4).
  destruct (nextToken_mk l4 (operand_token b) tO [] s4 _ _ I4 R4 L4)
    as (l5 & I5 & R5 & N5).
  destruct (nextToken_mk l5 tO (operand_token c) [] "" _ _ I5 R5
              lexSuffix_end) as (l6 & I6 & R6 & N6).
  destruct (nextToken_mk l6 (operand_token c) EOFToken [] "" _ _ I6 R6
              lexSuffix_end) as (l7 & I7 & R7 & N7).
  eexists. split.
  (* the run *)
  replace (enough_fuel src) with (S (S (S (S (S (2 * String.length src))))))
    by (unfold enough_fuel; lia).
  generalize (2 * String.length src). intros n.
  assert (Hpeek : forall l cur errs,
            peekPrecedence {| lexer_ := l; currToken := cur; peekToken := tO;
                              errors := errs |} = pr).
  { intros. unfold peekPrecedence. cbn [peekToken tO token.Typ].
    now rewrite Hpr. }
  assert (Hcurr : forall l peek errs,
            currPrecedence {| lexer_ := l; currToken := tO; peekToken := peek;
                              errors := errs |} = pr).
  { intros. unfold currPrecedence. cbn [currToken tO token.Typ].
    now rewrite Hpr. }
  assert (Hlt : (LOWEST <? pr)%Z = true) by now apply Z.ltb_lt.
  assert (Hge : (pr <? LOWEST)%Z = false) by (apply Z.ltb_ge; lia).
  unfold parse, New, bind. rewrite N1, N2. cbn [obind snd].
  unfold ParseProgram, bind.
  cbn [ParseProgram_loop]. unfold currTokenIs at 1. cbn [currToken].
  rewrite operand_not_EOF. cbn [negb].
  unfold bind, parseStatement, parseExpressionStmt. cbv zeta.
  unfold bind. cbn [parseExpression].
  rewrite (body_operand _ _ _ a) by (assumption || reflexivity).
  (* first operator *)
  rewrite (loop_operator _ _ _ _ _ _ t sym)
    by (reflexivity || assumption || now rewrite Hpeek).
  unfold bind. rewrite N3. unfold parseInfixExpr at 1. cbv zeta.
  unfold bind. rewrite N4. rewrite Hcurr. cbn [parseExpression].
  rewrite (body_operand _ _ _ b) by (assumption || reflexivity).
  rewrite loop_exit
    by (rewrite Hpeek, Z.ltb_irrefl; apply andb_false_r).
  unfold ret. cbn [currToken].
  (* second operator *)
  rewrite (loop_operator _ _ _ _ _ _ t sym)
    by (reflexivity || assumption || now rewrite Hpeek).
  unfold bind. rewrite N5. unfold parseInfixExpr at 1. cbv zeta.
  unfold bind. rewrite N6. rewrite Hcurr. cbn [parseExpression].
  rewrite (body_operand _ _ _ c) by (assumption || reflexivity).
  rewrite loop_exit by (cbn; rewrite Hge; reflexivity).
  unfold ret. cbn [currToken].
  rewrite loop_exit by reflexivity.
  cbn [peekTokenIs peekToken EOFToken token.Typ token.TokenType_beq].
  rewrite N7. cbn [currTokenIs currToken EOFToken token.Typ
                   token.TokenType_beq negb].
  - reflexivity.
  - reflexivity.
Qed.

(** C2. One binary operator chains to the left: for operands [a], [b], [c]
    that are single tokens (identifiers, or number literals [ParseFloat]
    accepts) and for any token kind [t] registered with [parseInfixExpr],
    spelled [sym], parsing the text [a sym b sym c] yields, without a
    diagnostic, the one statement whose tree is [((a sym b) sym c)], and
    that tree renders as such. *)
Theorem left_associative_chain (a b c : operand) (t : token.TokenType)
  (sym : string) :
  operand_ok a = true -> operand_ok b = true -> operand_ok c = true ->
  operator_symbol t = Some sym ->
  parsed (chain_source a sym b c)
  = Some ([ast.ExpressionStmt (operand_token a)
             (Some (chain_tree a t sym b c))], [])
  /\ render (chain_source a sym b c)
     = Some (Some (infix_text
                     (infix_text (operand_text a) sym (operand_text b))
                     sym (operand_text c)), []).
Proof.
  intros Ha Hb Hc Hsym.
  destruct (chain_parse a t sym b c Ha Hb Hc Hsym) as (p & Hparse & Herr).
  unfold parsed, render, parse_render. rewrite Hparse.
  cbn [obind fst snd ast.Stmts]. unfold Errors. rewrite Herr.
  split; [reflexivity|].
  unfold ast.Program_String. cbn [ast.Stmts ast.Stmts_String ast.Stmt_String].
  change (ast.Expr_String (chain_tree a t sym b c))
    with (oString (Some (chain_tree a t sym b c))).
  unfold chain_tree. cbv zeta.
  rewrite (oString_InfixExpr _ _ _ _
             (infix_text (operand_text a) sym (operand_text b))
             (operand_text c)).
  - cbn [obind]. now rewrite append_empty_r.
  - apply oString_InfixExpr; now apply oString_operand.
  - now apply oString_operand.
Qed.

(** The chain [1 - 2 - 3], and a chain of identifiers under [==]. *)
Lemma left_associative_chain_witness :
  (parsed "1 - 2 - 3"
   = Some ([ast.ExpressionStmt (operand_token (Num "1"))
              (Some (chain_tree (Num "1") token.Minus "-" (Num "2")
                       (Num "3")))], [])
   /\ render "1 - 2 - 3" = Some (Some "((1 - 2) - 3)", []))
  /\ (parsed "x == y == zed"
      = Some ([ast.ExpressionStmt (operand_token (Ident "x"))
                 (Some (chain_tree (Ident "x") token.EqualTo "==" (Ident "y")
                          (Ident "zed")))], [])
      /\ render "x == y == zed" = Some (Some "((x == y) == zed)", [])).
Proof.
  split.
  - apply (left_associative_chain (Num "1") (Num "2") (Num "3")
             token.Minus "-"); reflexivity.
  - apply (left_associative_chain (Ident "x") (Ident "y") (Ident "zed")
             token.EqualTo "=="); reflexivity.
Defined.

End LeftAssociativity.


(** * More fuel, same result *)

Section FuelMonotone.

Import parser.

Lemma below_refl {A : Type} (m : M A) : below m m.
Proof. intros p r H. exact H. Qed.

Lemma bind_below {A B : Type} (m1 m2 : M A) (f1 f2 : A -> M B) :
  below m1 m2 -> (forall a, below (f1 a) (f2 a)) ->
  below (bind m1 f1) (bind m2 f2).
Proof.
  intros Hm Hf p r. unfold bind.
  destruct (m1 p) as [[a p1]|] eqn:E; [|discriminate].
  rewrite (Hm p _ E). apply Hf.
Qed.

Section Callbacks.

Variables rec rec' : Precedence -> M (option ast.Expr).
Hypothesis Hrec : forall prec, below (rec prec) (rec' prec).

Lemma parsePrefixExpr_below :
  below (parsePrefixExpr rec) (parsePrefixExpr rec').
Proof.
  intros p r. unfold parsePrefixExpr. cbv zeta.
  apply bind_below; [apply below_refl | intros _].
  apply bind_below; [apply Hrec | intros; apply below_refl].
Qed.

Lemma parseInfixExpr_below left :
  below (parseInfixExpr rec left) (parseInfixExpr rec' left).
Proof.
  intros p r. unfold parseInfixExpr. cbv zeta.
  apply bind_below; [apply below_refl | intros _].
  apply bind_below; [apply Hrec | intros; apply below_refl].
Qed.

Lemma parseGroupedExpr_below :
  below (parseGroupedExpr rec) (parseGroupedExpr rec').
Proof.
  unfold parseGroupedExpr.
  apply bind_below; [apply below_refl | intros _].
  apply bind_below; [apply Hrec | intros; apply below_refl].
Qed.

Lemma parseExpressionList_loop_below :
  forall n n' items, n <= n' ->
    below (parseExpressionList_loop rec n items)
      (parseExpressionList_loop rec' n' items).
Proof.
  induction n as [|n IH]; intros n' items Hle p r; [discriminate|].
  destruct n' as [|n']; [lia|]. cbn [parseExpressionList_loop].
  destruct (peekTokenIs token.Comma p); [|auto].
  apply bind_below; [apply below_refl | intros _].
  apply bind_below; [apply below_refl | intros _].
  apply bind_below; [apply Hrec | intros e]. apply IH. lia.
Qed.

Variables n n' : nat.
Hypothesis Hn : n <= n'.

Lemma parseExpressionList_below end_ :
  below (parseExpressionList rec n end_) (parseExpressionList rec' n' end_).
Proof.
  intros p r. unfold parseExpressionList.
  destruct (peekTokenIs end_ p); [auto|].
  apply bind_below; [apply below_refl | intros _].
  apply bind_below; [apply Hrec | intros e].
  apply bind_below; [now apply parseExpressionList_loop_below | intros l].
  apply below_refl.
Qed.

Lemma parseCallExpr_below function :
  below (parseCallExpr rec n function) (parseCallExpr rec' n' function).
Proof.
  intros p r. unfold parseCallExpr. cbv zeta.
  apply bind_below; [apply parseExpressionList_below | intros a].
  apply below_refl.
Qed.

Lemma parseExpression_loop_below precedence :
  forall m m' left, m <= m' ->
    below (parseExpression_loop rec n m precedence left)
      (parseExpression_loop rec' n' m' precedence left).
Proof.
  induction m as [|m IH]; intros m' left Hle p r; [discriminate|].
  destruct m' as [|m']; [lia|]. cbn [parseExpression_loop].
  destruct (negb (peekTokenIs token.Semicolon p)
            && (precedence <? peekPrecedence p)%Z); [|auto].
  destruct (token.Typ (peekToken p)); cbn [infixParseFns]; auto;
    (apply bind_below; [apply below_refl | intros _];
     apply bind_below;
     [ first [apply parseInfixExpr_below | apply parseCallExpr_below]
     | intros e; apply IH; lia ]).
Qed.

Lemma parseExpression_body_below precedence :
  below (parseExpression_body rec n precedence)
    (parseExpression_body rec' n' precedence).
Proof.
  intros p r. unfold parseExpression_body.
  destruct (token.Typ (currToken p)); cbn [prefixParseFns]; auto;
    (apply bind_below;
     [ first [ apply below_refl | apply parsePrefixExpr_below
             | apply parseGroupedExpr_below ]
     | intros e; now apply parseExpression_loop_below ]).
Qed.

End Callbacks.

Lemma parseExpression_below :
  forall n n' precedence, n <= n' ->
    below (parseExpression n precedence) (parseExpression n' precedence).
Proof.
  induction n as [|n IH]; intros n' precedence Hle; [discriminate|].
  destruct n' as [|n']; [lia|]. cbn [parseExpression].
  apply parseExpression_body_below; [|lia].
  intros prec. apply IH. lia.
Qed.

Lemma parseStatement_below n n' :
  n <= n' -> below (parseStatement n) (parseStatement n').
Proof.
  intros Hle p r. unfold parseStatement, parseExpressionStmt. cbv zeta.
  apply bind_below; [now apply parseExpression_below | intros e].
  apply below_refl.
Qed.

Lemma ParseProgram_loop_below fuel fuel' :
  fuel <= fuel' ->
  forall n n' stmts, n <= n' ->
    below (ParseProgram_loop n fuel stmts) (ParseProgram_loop n' fuel' stmts).
Proof.
  intros Hfuel. induction n as [|n IH]; intros n' stmts Hle p r;
    [discriminate|].
  destruct n' as [|n']; [lia|]. cbn [ParseProgram_loop].
  destruct (negb (currTokenIs token.EOF p)); [|auto].
  apply bind_below; [now apply parseStatement_below | intros s].
  apply bind_below; [apply below_refl | intros _]. apply IH. lia.
Qed.

(** A run of [ParseProgram] that returns with some fuel returns the same
    with any larger fuel. *)
Lemma ParseProgram_below n n' :
  n <= n' -> below (ParseProgram n) (ParseProgram n').
Proof.
  intros Hle. unfold ParseProgram.
  apply bind_below; [now apply ParseProgram_loop_below | intros s].
  apply below_refl.
Qed.

(** From [enough_fuel] on, the result of parsing a source does not depend
    on the fuel. *)
Lemma parse_fuel_stable src n :
  enough_fuel src <= n -> parse n src = parse (enough_fuel src) src.
Proof.
  intros Hle.
  destruct (parse_returns src) as (prog & p & k & Hrun & _).
  rewrite Hrun. unfold parse in *.
  destruct (New (lexer.New src)) as [p0|]; [|discriminate].
  cbn [obind] in *. now apply (ParseProgram_below _ _ Hle).
Qed.

End FuelMonotone.


(** * The properties of the specification *)

Section Claims.

Import lexer parser.


(** C6. The precedence table, in strictly increasing binding order: lowest,
    logical and/or, equality, relational-with-equality ([>=], [<=]),
    relational ([<], [>]), additive, multiplicative, unary prefix, call,
    index. *)
Theorem precedence_table :
  (LOWEST < ANDOR < EQUALS)%Z
  /\ (EQUALS < LESSGREATEREQUAL < LESSGREATER)%Z
  /\ (LESSGREATER < SUM < PRODUCT)%Z
  /\ (PRODUCT < PREFIX < CALL)%Z /\ (CALL < INDEX)%Z
  /\ precedences token.And = Some ANDOR
  /\ precedences token.Or = Some ANDOR
  /\ precedences token.EqualTo = Some EQUALS
  /\ precedences token.NotEqualTo = Some EQUALS
  /\ precedences token.GreaterThanEqualTo = Some LESSGREATEREQUAL
  /\ precedences token.LessThanEqualTo = Some LESSGREATEREQUAL
  /\ precedences token.LessThan = Some LESSGREATER
  /\ precedences token.GreaterThan = Some LESSGREATER
  /\ precedences token.Plus = Some SUM
  /\ precedences token.Minus = Some SUM
  /\ precedences token.Star = Some PRODUCT
  /\ precedences token.Slash = Some PRODUCT
  /\ precedences token.Modulo = Some PRODUCT
  /\ precedences token.LeftParen = Some CALL
  /\ precedences token.LeftSquareBracket = Some INDEX.
Proof.
  unfold LOWEST, ANDOR, EQUALS, LESSGREATEREQUAL, LESSGREATER, SUM, PRODUCT,
    PREFIX, CALL, INDEX.
  repeat split; lia.
Qed.

(** C7. Parsing "foo(1, 2 + 3)" yields a call that renders as
    "foo(1, (2 + 3))"; parsing "foo()" yields a call with an empty (non-nil)
    argument list that renders as "foo()"; and every call renders as its
    callee, then its arguments joined with comma-space between
    parentheses. *)
Theorem call_parsing :
  render "foo(1, 2 + 3)" = Some (Some "foo(1, (2 + 3))", [])
  /\ render "foo()" = Some (Some "foo()", [])
  /\ parsed "foo()"
     = Some ([ast.ExpressionStmt
                {| token.Literal := "foo"; token.Typ := token.Identifier |}
                (Some (ast.CallExpr
                         {| token.Literal := "(";
                            token.Typ := token.LeftParen |}
                         (Some (ast.Identifier
                                  {| token.Literal := "foo";
                                     token.Typ := token.Identifier |} "foo"))
                         (Some [])))], [])
  /\ (forall t f a,
        ast.Expr_String (ast.CallExpr t f a)
        = (args <- match a with
                   | Some l => args_String l
                   | None => Some []
                   end ;;
           s <- oString f ;;
           Some (s ++ "(" ++ String.concat ", " args ++ ")"))).
Proof.
  split; [vm_compute; reflexivity|].
  split; [vm_compute; reflexivity|].
  split; [vm_compute; reflexivity|].
  intros; apply Expr_String_CallExpr.
Qed.

(** C10. The rendering is not total on what the parser returns: parsing a
    lone "-" returns, with one diagnostic, a program holding a prefix node
    whose operand is nil, and parsing "1 +" one holding an infix node whose
    right operand is nil; rendering either node, or either program, is a
    method call on a nil interface value and does not return. *)
Theorem rendering_not_total :
  parsed "-"
  = Some ([ast.ExpressionStmt
             {| token.Literal := "-"; token.Typ := token.Minus |}
             (Some (ast.PrefixExpr
                      {| token.Literal := "-"; token.Typ := token.Minus |}
                      "-" None))],
          ["Honk! no prefix parse function for EOF found"])
  /\ ast.Expr_String
       (ast.PrefixExpr {| token.Literal := "-"; token.Typ := token.Minus |}
          "-" None) = None
  /\ render "-"
     = Some (None, ["Honk! no prefix parse function for EOF found"])
  /\ parsed "1 +"
     = Some ([ast.ExpressionStmt
                {| token.Literal := "1"; token.Typ := token.Number |}
                (Some (ast.InfixExpr
                         {| token.Literal := "+"; token.Typ := token.Plus |}
                         (Some (ast.NumberLiteral
                                  {| token.Literal := "1";
                                     token.Typ := token.Number |} 1%Q))
                         "+" None))],
             ["Honk! no prefix parse function for EOF found"])
  /\ ast.Expr_String
       (ast.InfixExpr {| token.Literal := "+"; token.Typ := token.Plus |}
          (Some (ast.NumberLiteral
                   {| token.Literal := "1"; token.Typ := token.Number |} 1%Q))
          "+" None) = None
  /\ render "1 +"
     = Some (None, ["Honk! no prefix parse function for EOF found"]).
Proof.
  repeat split; vm_compute; reflexivity.
Qed.

(** C8. The state invariant of the lexer holds after every read step, after
    construction, and after every call of [NextToken] (each of which
    returns): the read position is the position plus one, and the current
    symbol is the source symbol at the position, or the end sentinel (byte
    0) from the end of the source on. *)
Theorem lexer_state_invariant :
  (forall l, lexer_inv (readChar l))
  /\ (forall src, lexer_inv (lexer.New src))
  /\ (forall src k,
        exists l,
          pulls k (lexer.New src) = Some l
          /\ readPosition l = position l + 1
          /\ (position l < String.length (source l) ->
              String.get (position l) (source l) = Some (char l))
          /\ (String.length (source l) <= position l -> char l = nul)).
Proof.
  split; [exact readChar_inv|]. split; [exact New_inv|].
  intros src k.
  destruct (pulls_ok k (lexer.New src) (New_inv src)) as (l & Hp & Hinv & _).
  exists l. split; [assumption | exact Hinv].
Qed.

(** C4. End of input is a terminal state of the lexer that repeats itself:
    for every source, each call of [NextToken] after the first
    [len(source)] calls returns, and what it returns is the end-of-input
    token (kind EOF, empty literal). *)
Theorem end_of_input_idempotent :
  forall src m,
    nthToken (String.length src + m) (lexer.New src) = Some EOFToken.
Proof.
  intros src m. unfold nthToken.
  destruct (pulls_ok (String.length src + m) (lexer.New src) (New_inv src))
    as (l & -> & Hinv & Hsrc & Hpos).
  cbn [obind]. rewrite NextToken_at_end; [reflexivity | assumption|].
  rewrite Hsrc. cbn [lexer.New readChar source]. lia.
Qed.

(** The end-of-input token is not the end-of-input state: byte 0 is the
    lexer's end sentinel, so a NUL symbol inside the source is returned as
    an end-of-input token too, and the tokens after it follow.  Here the
    source is byte 0 followed by [a]. *)
Lemma eof_token_inside_source :
  nthToken 0 (lexer.New (String.String nul "a")) = Some EOFToken
  /\ nthToken 1 (lexer.New (String.String nul "a"))
     = Some {| token.Literal := "a"; token.Typ := token.Identifier |}
  /\ nthToken 2 (lexer.New (String.String nul "a")) = Some EOFToken.
Proof. repeat split; vm_compute; reflexivity. Qed.

(** C9. Lexing and parsing a source terminate within bounds linear in its
    length: every call of [NextToken] returns and strictly advances the
    position; [ParseProgram], run with a fuel of [2 * len + 5], returns a
    program; and in all the parser pulls at most [4 * len + 8] tokens from
    the lexer. *)
Theorem parsing_terminates_linearly :
  (forall src k,
     exists l t l',
       pulls k (lexer.New src) = Some l /\ NextToken l = Some (t, l')
       /\ position l < position l')
  /\ (forall src,
        enough_fuel src = 2 * String.length src + 5
        /\ exists prog p k,
             parse (enough_fuel src) src = Some (prog, p)
             /\ pulls k (lexer.New src) = Some (lexer_ p)
             /\ k <= 4 * String.length src + 8).
Proof.
  split.
  - intros src k.
    destruct (pulls_ok k (lexer.New src) (New_inv src)) as (l & Hp & Hinv & _).
    destruct (NextToken_ok l Hinv) as (t & l' & Hn & _ & _ & Hlt).
    exists l, t, l'. auto.
  - intros src. split; [reflexivity|].
    destruct (parse_returns src) as (prog & p & k & Hrun & Hp & Hk & _).
    exists prog, p, k. auto.
Qed.


End Claims.


(** * Further properties of the lexer *)

Section LexerTokens.

Import lexer.

Lemma IsSkipable_isSpace c : utils.IsSkipable c = isSpace c.
Proof.
  unfold utils.IsSkipable, isSpace.
  destruct (c =? " ")%char, (c =? "009")%char, (c =? "010")%char,
    (c =? "013")%char; reflexivity.
Qed.

Lemma string_forall_ext f g s :
  (forall c, f c = g c) -> string_forall f s = string_forall g s.
Proof.
  intros H. induction s as [|c s IH]; cbn; [reflexivity|].
  now rewrite H, IH.
Qed.

Lemma span_forall cond s : string_forall cond (fst (span cond s)) = true.
Proof.
  induction s as [|c s IH]; cbn; [reflexivity|].
  destruct (cond c) eqn:E; cbn; [now rewrite E, IH | reflexivity].
Qed.

Lemma span_stop cond s : cond nul = false -> cond (hd (snd (span cond s))) = false.
Proof.
  intros Hnul. induction s as [|c s IH]; cbn; [assumption|].
  destruct (cond c) eqn:E; cbn; [exact IH | exact E].
Qed.

Lemma hd_tl s : hd s <> nul -> s = String.String (hd s) (tl s).
Proof. destruct s; [intros H; now elim H | reflexivity]. Qed.

(** X1. What [NextToken] returns, and the text it leaves, depend only on
    the text that remains, whitespace at its head apart: two lexers whose
    remaining texts differ by leading symbols that [IsSkipable] accepts
    (space, tab, line feed, carriage return) return the same token and
    are left on the same text. *)
Theorem token_depends_on_remaining_text (l1 l2 : Lexer) (ws : string) :
  lexer_inv l1 -> lexer_inv l2 ->
  string_forall utils.IsSkipable ws = true ->
  rest_of l1 = ws ++ rest_of l2 ->
  exists t l1' l2',
    NextToken l1 = Some (t, l1') /\ NextToken l2 = Some (t, l2')
    /\ rest_of l1' = rest_of l2'.
Proof.
  intros H1 H2 Hws Hrest.
  destruct (NextToken_refines l1 H1) as (l1' & Hn1 & _ & Hr1).
  destruct (NextToken_refines l2 H2) as (l2' & Hn2 & _ & Hr2).
  rewrite (string_forall_ext _ _ _ IsSkipable_isSpace) in Hws.
  rewrite Hrest, (lexSuffix_spaces _ _ Hws) in Hn1, Hr1.
  eexists _, l1', l2'. split; [exact Hn1|]. split; [exact Hn2|].
  congruence.
Qed.

(** The lexer that has read [ab] of [ab + c], and a fresh lexer on
    [+ c]. *)
Lemma token_depends_on_remaining_text_witness :
  exists t l1' l2',
    NextToken (readChar (readChar (New "ab + c"))) = Some (t, l1')
    /\ NextToken (New "+ c") = Some (t, l2')
    /\ rest_of l1' = rest_of l2'.
Proof.
  apply (token_depends_on_remaining_text
           (readChar (readChar (New "ab + c")))
           (New "+ c") " ").
  - apply readChar_inv.
  - apply New_inv.
  - reflexivity.
  - reflexivity.
Defined.

Lemma NextToken_lexSuffix l t l' :
  lexer_inv l -> NextToken l = Some (t, l') ->
  t = fst (lexSuffix (rest_of l)) /\ rest_of l' = snd (lexSuffix (rest_of l)).
Proof.
  intros Hinv Hn.
  destruct (NextToken_refines l Hinv) as (l2 & Hn2 & _ & Hr2).
  rewrite Hn in Hn2. injection Hn2 as -> ->. auto.
Qed.

(** X2. An identifier is the longest run of letters and underscores: when
    the remaining text starts with such a run [x], followed by a symbol
    that is neither, [NextToken] returns one token whose literal is [x]
    (digits are no part of it) and leaves the text after [x]; its kind is
    [Def] for the text [def], [Extern] for [extern], and [Identifier]
    otherwise, also when a keyword is a proper prefix of [x]. *)
Theorem identifier_token (l : Lexer) (x rest : string) :
  lexer_inv l -> rest_of l = x ++ rest ->
  utils.IsAlpha (hd x) = true -> string_forall utils.IsAlpha x = true ->
  utils.IsAlpha (hd rest) = false ->
  exists l',
    NextToken l
    = Some ({| token.Literal := x;
               token.Typ := if (x =? "def")%string then token.Def
                            else if (x =? "extern")%string then token.Extern
                            else token.Identifier |}, l')
    /\ rest_of l' = rest.
Proof.
  intros Hinv Hrest Hhd Hall Hstop.
  destruct (NextToken_refines l Hinv) as (l' & Hn & _ & Hr).
  rewrite Hrest, lexSuffix_alpha in Hn, Hr
    by (rewrite hd_append; [assumption | now apply alpha_nonempty]).
  rewrite (span_exact utils.IsAlpha x rest Hall Hstop) in Hn, Hr.
  cbn [fst snd] in Hn, Hr. exists l'. split; [|assumption].
  rewrite Hn. unfold LookupIdent, keywords.
  destruct (x =? "def")%string; [reflexivity|].
  destruct (x =? "extern")%string; reflexivity.
Qed.

(** The identifier [define] before a parenthesis, and [x] before a digit. *)
Lemma identifier_token_witness :
  (exists l',
     NextToken (New "define(") 
     = Some ({| token.Literal := "define"; token.Typ := token.Identifier |},
             l')
     /\ rest_of l' = "(")
  /\ (exists l',
        NextToken (New "x1")
        = Some ({| token.Literal := "x"; token.Typ := token.Identifier |}, l')
        /\ rest_of l' = "1").
Proof.
  split.
  - apply (identifier_token (New "define(") "define" "(");
      (apply New_inv || reflexivity).
  - apply (identifier_token (New "x1") "x" "1");
      (apply New_inv || reflexivity).
Defined.

(** X3. A number is the longest run of digits and dots that starts with a
    digit, whatever the number and the place of the dots: when the
    remaining text starts with such a run [x], followed by a symbol that is
    neither, [NextToken] returns one [Number] token whose literal is [x] and
    leaves the text after [x]. *)
Theorem number_token (l : Lexer) (x rest : string) :
  lexer_inv l -> rest_of l = x ++ rest ->
  utils.IsNumeric (hd x) = true -> string_forall isNumberChar x = true ->
  isNumberChar (hd rest) = false ->
  exists l',
    NextToken l
    = Some ({| token.Literal := x; token.Typ := token.Number |}, l')
    /\ rest_of l' = rest.
Proof.
  intros Hinv Hrest Hhd Hall Hstop.
  destruct (NextToken_refines l Hinv) as (l' & Hn & _ & Hr).
  rewrite Hrest, lexSuffix_numeric in Hn, Hr
    by (rewrite hd_append; [assumption | now apply numeric_nonempty]).
  rewrite (span_exact isNumberChar x rest Hall Hstop) in Hn, Hr.
  exists l'. auto.
Qed.

(** A literal with two dots and a trailing dot, before a parenthesis. *)
Lemma number_token_witness :
  exists l',
    NextToken (New "1.2.3.)")
    = Some ({| token.Literal := "1.2.3."; token.Typ := token.Number |}, l')
    /\ rest_of l' = ")".
Proof.
  apply (number_token (New "1.2.3.)") "1.2.3." ")");
    (apply New_inv || reflexivity).
Defined.

Lemma not_space_lexSuffix s :
  isSpace (hd s) = false -> snd (span isSpace s) = s.
Proof. intros H. now rewrite span_none. Qed.

(** X4. The two-symbol operators.  On a first symbol of the table
    ([=], [>], [<], [!], [&], [|]), [NextToken] looks one symbol ahead:
    when that is the second symbol of the entry ([=], or the same symbol
    for [&] and [|]) it returns the one token of the pair and reads both
    symbols; otherwise it returns the token of the first symbol alone,
    which for a lone [&] or [|] is [Illegal], and reads one symbol. *)
Theorem two_symbol_operator (l : Lexer) (c next : ascii)
  (two one : token.TokenType) :
  In (c, next, two, one) two_char_operators ->
  lexer_inv l -> hd (rest_of l) = c ->
  exists l',
    NextToken l
    = Some (if (hd (tl (rest_of l)) =? next)%char
            then {| token.Literal :=
                      String.String c (String.String next EmptyString);
                    token.Typ := two |}
            else {| token.Literal := String.String c EmptyString;
                    token.Typ := one |}, l')
    /\ rest_of l' = if (hd (tl (rest_of l)) =? next)%char
                    then tl (tl (rest_of l)) else tl (rest_of l).
Proof.
  intros Hin Hinv Hc.
  destruct (NextToken_refines l Hinv) as (l' & Hn & _ & Hr).
  exists l'. rewrite Hn, Hr. clear Hn Hr.
  unfold lexSuffix. cbv zeta.
  cbn [In two_char_operators] in Hin.
  repeat (destruct Hin as [Hin|Hin]; [injection Hin as <- <- <- <- |]);
    try contradiction;
    (rewrite not_space_lexSuffix by (rewrite Hc; reflexivity));
    rewrite Hc; cbn -[twoCharSuffix hd tl]; unfold twoCharSuffix;
    destruct (hd (tl (rest_of l)) =? _)%char eqn:E;
    try (apply Ascii.eqb_eq in E; rewrite E); split; reflexivity.
Qed.

(** [>=] read as one token, and a lone [&] read as an illegal symbol. *)
Lemma two_symbol_operator_witness :
  (exists l',
     NextToken (New ">= 1")
     = Some ({| token.Literal := ">="; token.Typ := token.GreaterThanEqualTo |},
             l')
     /\ rest_of l' = " 1")
  /\ (exists l',
        NextToken (New "& b")
        = Some ({| token.Literal := "&"; token.Typ := token.Illegal |}, l')
        /\ rest_of l' = " b").
Proof.
  split.
  - apply (two_symbol_operator (New ">= 1") greaterThan eqSym
             token.GreaterThanEqualTo token.GreaterThan).
    + right; left; reflexivity.
    + apply New_inv.
    + reflexivity.
  - apply (two_symbol_operator (New "& b") ampersand ampersand
             token.And token.Illegal).
    + do 4 right; left; reflexivity.
    + apply New_inv.
    + reflexivity.
Defined.

Lemma twoCharSuffix_verbatim c r next two one :
  c <> nul -> nat_of_ascii c < 128 -> next <> nul ->
  nat_of_ascii next < 128 ->
  verbatim (token.Typ (fst (twoCharSuffix c r next two one))) = true ->
  token.Literal (fst (twoCharSuffix c r next two one))
  ++ snd (twoCharSuffix c r next two one) = String.String c r.
Proof.
  intros Hc Hc128 Hn Hn128. unfold twoCharSuffix.
  destruct (hd r =? next)%char eqn:E; cbn [fst snd token.Literal token.Typ
                                            token.MakeToken]; intros _.
  - apply Ascii.eqb_eq in E. unfold token.byte_to_string.
    apply Nat.ltb_lt in Hc128, Hn128. rewrite E, Hc128, Hn128. cbn.
    rewrite (hd_tl r) at 2 by congruence. now rewrite E.
  - unfold token.byte_to_string. apply Nat.ltb_lt in Hc128.
    now rewrite Hc128.
Qed.

Lemma lexSuffix_verbatim s :
  verbatim (token.Typ (fst (lexSuffix s))) = true ->
  fst (span isSpace s) ++ token.Literal (fst (lexSuffix s))
  ++ snd (lexSuffix s) = s.
Proof.
  intros H. rewrite <- (span_append isSpace s) at 4. f_equal.
  revert H. unfold lexSuffix. cbv zeta.
  destruct (snd (span isSpace s)) as [|c r]; [discriminate|].
  cbn [hd tl].
  repeat match goal with
         | |- context [if (c =? ?x)%char then _ else _] =>
             let E := fresh "E" in
             destruct (c =? x)%char eqn:E;
             [ apply Ascii.eqb_eq in E; rewrite E;
               first [ discriminate
                     | intros _; reflexivity
                     | apply twoCharSuffix_verbatim;
                       first [ discriminate | cbn; lia ] ]
             | ]
         end.
  destruct (utils.IsAlpha c).
  { intros _. cbn [fst snd token.Literal]. apply span_append. }
  destruct (utils.IsNumeric c); [|discriminate].
  intros _. cbn [fst snd token.Literal]. apply span_append.
Qed.

(** X5. The literal of a token is the text it was read from: for every
    token [NextToken] returns, but a string literal, the end-of-input token
    and an illegal symbol, the text that remained before the call is some
    whitespace, then the token's literal, then the text that remains after
    the call. *)
Theorem token_literal_is_source_text (l l' : Lexer) (t : token.Token) :
  lexer_inv l -> NextToken l = Some (t, l') ->
  verbatim (token.Typ t) = true ->
  exists ws,
    string_forall utils.IsSkipable ws = true
    /\ rest_of l = ws ++ token.Literal t ++ rest_of l'.
Proof.
  intros Hinv Hn Hv.
  destruct (NextToken_lexSuffix l t l' Hinv Hn) as (-> & ->).
  exists (fst (span isSpace (rest_of l))). split.
  - rewrite (string_forall_ext _ _ _ IsSkipable_isSpace).
    apply span_forall.
  - symmetry. now apply lexSuffix_verbatim.
Qed.

(** The token [<=] read after two spaces of the text [  <= b]. *)
Lemma token_literal_is_source_text_witness :
  exists ws,
    string_forall utils.IsSkipable ws = true
    /\ rest_of (New "  <= b")
       = ws ++ token.Literal
                 {| token.Literal := "<=";
                    token.Typ := token.LessThanEqualTo |}
         ++ rest_of {| source := "  <= b"; position := 4;
                       readPosition := 5; char := " " |}.
Proof.
  apply (token_literal_is_source_text (New "  <= b")
           {| source := "  <= b"; position := 4; readPosition := 5;
              char := " " |}
           {| token.Literal := "<="; token.Typ := token.LessThanEqualTo |}).
  - apply New_inv.
  - reflexivity.
  - reflexivity.
Defined.

Lemma lexSuffix_non_ascii (c : ascii) (rest : string) :
  128 <= nat_of_ascii c ->
  lexSuffix (String.String c rest)
  = ({| token.Literal :=
          String.String (ascii_of_nat (192 + nat_of_ascii c / 64))
            (String.String (ascii_of_nat (128 + nat_of_ascii c mod 64))
               EmptyString);
        token.Typ := token.Illegal |}, rest).
Proof.
  destruct c as [b0 b1 b2 b3 b4 b5 b6 b7]. intros H.
  destruct b7; [|exfalso; destruct b0, b1, b2, b3, b4, b5, b6; cbn in H; lia].
  clear H.
  destruct b0, b1, b2, b3, b4, b5, b6; reflexivity.
Qed.

(** X6. A byte from 128 on is an illegal symbol whose literal is not the
    byte read: [MakeToken] converts the byte with [string(c)], which
    encodes the code point [c] in UTF-8, so the literal of the token
    holds two bytes while [NextToken] reads one. *)
Theorem non_ascii_symbol_token (l : Lexer) (c : ascii) (rest : string) :
  lexer_inv l -> rest_of l = String.String c rest ->
  128 <= nat_of_ascii c ->
  exists l',
    NextToken l
    = Some ({| token.Literal :=
                 String.String (ascii_of_nat (192 + nat_of_ascii c / 64))
                   (String.String (ascii_of_nat (128 + nat_of_ascii c mod 64))
                      EmptyString);
               token.Typ := token.Illegal |}, l')
    /\ rest_of l' = rest.
Proof.
  intros Hinv Hrest Hc.
  destruct (NextToken_refines l Hinv) as (l' & Hn & _ & Hr).
  rewrite Hrest, (lexSuffix_non_ascii c rest Hc) in Hn, Hr.
  exists l'. auto.
Qed.

(** The byte 233 before the letter [a]. *)
Lemma non_ascii_symbol_token_witness :
  exists l',
    NextToken (New (String.String "233" "a"))
    = Some ({| token.Literal :=
                 String.String (ascii_of_nat (192 + nat_of_ascii "233" / 64))
                   (String.String
                      (ascii_of_nat (128 + nat_of_ascii "233" mod 64))
                      EmptyString);
               token.Typ := token.Illegal |}, l')
    /\ rest_of l' = "a".
Proof.
  apply (non_ascii_symbol_token (New (String.String "233" "a")) "233" "a").
  - apply New_inv.
  - reflexivity.
  - cbn. lia.
Defined.

End LexerTokens.


(** * Diagnostics and null placeholders *)

Section Diagnostics.

Import parser.

Lemma yields_ret {A : Type} (a : A) p (Q : A -> list string -> Prop) :
  Q a [] -> yields (ret a p) p Q.
Proof.
  intros HQ a' p' [= <- <-]. exists []. now rewrite app_nil_r.
Qed.

Lemma yields_bind {A B : Type} (m : M A) (f : A -> M B) p
  (Q1 : A -> list string -> Prop) (Q : B -> list string -> Prop) :
  yields (m p) p Q1 ->
  (forall a ds1 p1, Q1 a ds1 ->
     yields (f a p1) p1 (fun b ds2 => Q b (ds1 ++ ds2)%list)) ->
  yields (bind m f p) p Q.
Proof.
  intros Hm Hf b p2. unfold bind.
  destruct (m p) as [[a p1]|] eqn:E; [|discriminate]. intros Hfa.
  destruct (Hm a p1 eq_refl) as (ds1 & He1 & HQ1).
  destruct (Hf a ds1 p1 HQ1 b p2 Hfa) as (ds2 & He2 & HQ).
  exists (ds1 ++ ds2)%list. split; [|assumption].
  now rewrite He2, He1, app_assoc.
Qed.

Lemma yields_weaken {A : Type} (r : option (A * Parser)) p
  (Q Q' : A -> list string -> Prop) :
  yields r p Q -> (forall a ds, Q a ds -> Q' a ds) -> yields r p Q'.
Proof.
  intros H HQ a p' E. destruct (H a p' E) as (ds & He & Hq).
  exists ds. auto.
Qed.

Lemma yields_nextToken p :
  yields (nextToken p) p (fun _ ds => ds = []).
Proof.
  intros a p'. unfold nextToken.
  destruct (lexer.NextToken (lexer_ p)) as [[t l']|]; [|discriminate].
  cbn [obind]. intros [= <- <-]. exists []. cbn. now rewrite app_nil_r.
Qed.

Lemma yields_appendError msg p :
  yields (appendError msg p) p (fun _ ds => ds = [msg]).
Proof. intros a p' [= <- <-]. exists [msg]. auto. Qed.

Lemma yields_expectPeek t p :
  yields (expectPeek t p) p
    (fun ok ds => (ok = true /\ ds = []) \/ (ok = false /\ ds <> [])).
Proof.
  unfold expectPeek. destruct (peekTokenIs t p).
  - eapply yields_bind; [apply yields_nextToken|].
    intros [] ds1 p1 ->. apply yields_ret. left; auto.
  - eapply yields_bind; [unfold peekError; apply yields_appendError|].
    intros [] ds1 p1 ->. apply yields_ret. right. split; [auto|discriminate].
Qed.

Lemma flawed_nil e : flawed e [].
Proof. now left. Qed.

Lemma flawed_None ds : flawed None ds.
Proof. now right. Qed.

Lemma flawed_app_l e e' ds1 ds2 :
  flawed e ds1 -> (ocomplete e = false -> ocomplete e' = false) ->
  flawed e' ds2 -> flawed e' (ds1 ++ ds2)%list.
Proof.
  intros [->|H1] Himp H2; [exact H2|]. right. auto.
Qed.

Section Callbacks.

Variable rec : Precedence -> M (option ast.Expr).
Variable n : nat.
Hypothesis Hrec : forall prec p, yields (rec prec p) p flawed.

Lemma yields_parsePrefixExpr p :
  yields (parsePrefixExpr rec p) p flawed.
Proof.
  unfold parsePrefixExpr. cbv zeta.
  eapply yields_bind; [apply yields_nextToken|]. intros [] ds1 p1 ->.
  eapply yields_bind; [apply Hrec|]. intros e ds2 p2 He.
  apply yields_ret. cbn [app]. rewrite app_nil_r.
  destruct He as [->|He]; [now left | right].
  cbn [ocomplete]. now rewrite complete_PrefixExpr.
Qed.

Lemma yields_parseInfixExpr left p :
  yields (parseInfixExpr rec left p) p
    (fun e ds => flawed e ds
                 /\ (ocomplete left = false -> ocomplete e = false)).
Proof.
  unfold parseInfixExpr. cbv zeta.
  eapply yields_bind; [apply yields_nextToken|]. intros [] ds1 p1 ->.
  eapply yields_bind; [apply Hrec|]. intros e ds2 p2 He.
  apply yields_ret. cbn [app]. rewrite app_nil_r. split.
  - destruct He as [->|He]; [now left | right].
    cbn [ocomplete]. rewrite complete_InfixExpr, He. apply andb_false_r.
  - intros Hl. cbn [ocomplete]. now rewrite complete_InfixExpr, Hl.
Qed.

Lemma yields_parseGroupedExpr p :
  yields (parseGroupedExpr rec p) p flawed.
Proof.
  unfold parseGroupedExpr.
  eapply yields_bind; [apply yields_nextToken|]. intros [] ds1 p1 ->.
  eapply yields_bind; [apply Hrec|]. intros e ds2 p2 He.
  eapply yields_bind; [apply yields_expectPeek|].
  intros ok ds3 p3 [(-> & ->)|(-> & Hds)]; apply yields_ret; cbn [app].
  - now rewrite !app_nil_r.
  - apply flawed_None.
Qed.

Lemma yields_parseExpressionList_loop :
  forall m items p,
    yields (parseExpressionList_loop rec m items p) p
      (fun items' ds =>
         (ds = [] \/ forallb ocomplete items' = false)
         /\ (forallb ocomplete items = false ->
             forallb ocomplete items' = false)).
Proof.
  induction m as [|m IH]; intros items p; [intros a p'; discriminate|].
  cbn [parseExpressionList_loop]. destruct (peekTokenIs token.Comma p).
  - eapply yields_bind; [apply yields_nextToken|]. intros [] ds1 p1 ->.
    eapply yields_bind; [apply yields_nextToken|]. intros [] ds2 p2 ->.
    eapply yields_bind; [apply Hrec|]. intros e ds3 p3 He.
    eapply yields_weaken; [apply IH|]. cbv beta. cbn [app].
    intros items' ds4 (Hds & Hkeep). split.
    + destruct He as [->|He].
      * exact Hds.
      * right. apply Hkeep. rewrite forallb_snoc, He. apply andb_false_r.
    + intros Hi. apply Hkeep. now rewrite forallb_snoc, Hi.
  - change (Some (items, p)) with (ret items p).
    apply yields_ret. split; [now left | auto].
Qed.

Lemma yields_parseExpressionList end_ p :
  yields (parseExpressionList rec n end_ p) p
    (fun args ds => ds = [] \/ complete_args args = false).
Proof.
  unfold parseExpressionList. destruct (peekTokenIs end_ p).
  - eapply yields_bind; [apply yields_nextToken|]. intros [] ds1 p1 ->.
    apply yields_ret. now left.
  - eapply yields_bind; [apply yields_nextToken|]. intros [] ds1 p1 ->.
    eapply yields_bind; [apply Hrec|]. intros e ds2 p2 He.
    eapply yields_bind; [apply yields_parseExpressionList_loop|].
    cbv beta. intros items ds3 p3 (Hds & Hkeep).
    eapply yields_bind; [apply yields_expectPeek|].
    intros ok ds4 p4 [(-> & ->)|(-> & Hne)]; apply yields_ret; cbn [app];
      [|now right].
    rewrite !app_nil_r. cbn [complete_args].
    destruct He as [->|He].
    + exact Hds.
    + right. apply Hkeep. cbn [forallb]. now rewrite He.
Qed.

Lemma yields_parseCallExpr function p :
  yields (parseCallExpr rec n function p) p
    (fun e ds => flawed e ds
                 /\ (ocomplete function = false -> ocomplete e = false)).
Proof.
  unfold parseCallExpr. cbv zeta.
  eapply yields_bind; [apply yields_parseExpressionList|].
  intros args ds1 p1 Ha. apply yields_ret. rewrite app_nil_r. split.
  - destruct Ha as [->|Ha]; [now left | right].
    cbn [ocomplete]. rewrite complete_CallExpr, Ha. apply andb_false_r.
  - intros Hf. cbn [ocomplete]. now rewrite complete_CallExpr, Hf.
Qed.

Lemma yields_parseExpression_loop precedence :
  forall m left p,
    yields (parseExpression_loop rec n m precedence left p) p
      (fun e ds => flawed e ds
                   /\ (ocomplete left = false -> ocomplete e = false)).
Proof.
  induction m as [|m IH]; intros left p; [intros a p'; discriminate|].
  cbn [parseExpression_loop].
  destruct (negb (peekTokenIs token.Semicolon p)
            && (precedence <? peekPrecedence p)%Z).
  2:{ change (Some (left, p)) with (ret left p).
      apply yields_ret. split; [apply flawed_nil | auto]. }
  assert (Hstep : forall infix,
            (forall l q, yields (infix l q) q
               (fun e ds => flawed e ds
                            /\ (ocomplete l = false -> ocomplete e = false))) ->
            yields ((nextToken ;;
                     left' <~ infix left ;;
                     parseExpression_loop rec n m precedence left') p) p
              (fun e ds => flawed e ds
                           /\ (ocomplete left = false ->
                               ocomplete e = false))).
  { intros infix Hinfix.
    eapply yields_bind; [apply yields_nextToken|]. intros [] ds1 p1 ->.
    eapply yields_bind; [apply Hinfix|]. cbv beta.
    intros e ds2 p2 (He & Hl).
    eapply yields_weaken; [apply IH|]. cbv beta. cbn [app].
    intros e' ds3 (He' & Hl'). split.
    - eapply flawed_app_l; eassumption.
    - auto. }
  destruct (token.Typ (peekToken p)); cbn [infixParseFns];
    first [ change (Some (left, p)) with (ret left p);
            apply yields_ret; split; [apply flawed_nil | auto]
          | apply Hstep; intros; apply yields_parseInfixExpr
          | apply Hstep; intros; apply yields_parseCallExpr ].
Qed.

Lemma yields_parseExpression_body precedence p :
  yields (parseExpression_body rec n precedence p) p flawed.
Proof.
  unfold parseExpression_body.
  assert (Hstep : forall prefix,
            yields (prefix p) p flawed ->
            yields ((left <~ prefix ;;
                     parseExpression_loop rec n n precedence left) p) p
              flawed).
  { intros prefix Hp. eapply yields_bind; [exact Hp|].
    intros e ds1 p1 He.
    eapply yields_weaken; [apply yields_parseExpression_loop|]. cbv beta.
    intros e' ds2 (He' & Hl). eapply flawed_app_l; eassumption. }
  destruct (token.Typ (currToken p)); cbn [prefixParseFns];
    try (eapply yields_bind;
         [unfold noPrefixParseFnError; apply yields_appendError|];
         intros [] ds1 p1 ->; apply yields_ret; apply flawed_None);
    apply Hstep.
  - (* Identifier *)
    intros a p' [= <- <-]. exists []. rewrite app_nil_r.
    split; [reflexivity | apply flawed_nil].
  - (* Number *)
    unfold parseNumberLiteral.
    destruct (strconv.ParseFloat (token.Literal (currToken p))).
    + intros a p' [= <- <-]. exists []. rewrite app_nil_r.
      split; [reflexivity | apply flawed_nil].
    + eapply yields_bind; [apply yields_appendError|].
      intros [] ds1 p1 ->. apply yields_ret. apply flawed_None.
  - apply yields_parseGroupedExpr.
  - apply yields_parsePrefixExpr.
  - apply yields_parsePrefixExpr.
Qed.

End Callbacks.

Lemma yields_parseExpression :
  forall n prec p, yields (parseExpression n prec p) p flawed.
Proof.
  induction n as [|n IH]; intros prec p; [intros a p'; discriminate|].
  cbn [parseExpression]. now apply yields_parseExpression_body.
Qed.

Lemma yields_parseStatement fuel p :
  yields (parseStatement fuel p) p
    (fun s ds => ds = [] \/ complete_stmt s = false).
Proof.
  unfold parseStatement, parseExpressionStmt. cbv zeta.
  eapply yields_bind; [apply yields_parseExpression|].
  intros e ds1 p1 He. cbv beta.
  destruct (peekTokenIs token.Semicolon p1).
  - eapply yields_bind; [apply yields_nextToken|]. intros [] ds2 p2 ->.
    apply yields_ret. rewrite app_nil_r. exact He.
  - intros a p' [= <- <-]. exists []. rewrite app_nil_r.
    split; [reflexivity|]. rewrite app_nil_r. exact He.
Qed.

Lemma yields_ParseProgram_loop fuel :
  forall n stmts p,
    yields (ParseProgram_loop n fuel stmts p) p
      (fun stmts' ds =>
         (ds = [] \/ forallb complete_stmt stmts' = false)
         /\ (forallb complete_stmt stmts = false ->
             forallb complete_stmt stmts' = false)).
Proof.
  induction n as [|n IH]; intros stmts p; [intros a p'; discriminate|].
  cbn [ParseProgram_loop]. destruct (negb (currTokenIs token.EOF p)).
  - eapply yields_bind; [apply yields_parseStatement|].
    intros s ds1 p1 Hs.
    eapply yields_bind; [apply yields_nextToken|]. intros [] ds2 p2 ->.
    eapply yields_weaken; [apply IH|]. cbv beta. cbn [app].
    intros stmts' ds3 (Hds & Hkeep). split.
    + destruct Hs as [->|Hs].
      * exact Hds.
      * right. apply Hkeep. rewrite forallb_snoc, Hs. apply andb_false_r.
    + intros Hi. apply Hkeep. now rewrite forallb_snoc, Hi.
  - change (Some (stmts, p)) with (ret stmts p).
    apply yields_ret. split; [now left | auto].
Qed.

(** X7. The diagnostics tell whether the tree is whole: for every source,
    the list of diagnostics [ParseProgram] leaves is empty exactly when no
    statement of the program it returns holds a null placeholder (a nil
    expression, operand, callee, argument or argument list). *)
Theorem diagnostics_iff_placeholders :
  forall src,
    exists prog p,
      parse (enough_fuel src) src = Some (prog, p)
      /\ (Errors p = [] <-> forallb complete_stmt (ast.Stmts prog) = true).
Proof.
  intros src.
  destruct (parse_returns src) as (prog & p & k & Hrun & _ & _ & _ & Hc).
  exists prog, p. split; [assumption|]. split; [exact Hc|].
  intros Hall. unfold parse in Hrun.
  destruct (New_returns src) as (p0 & HNew & _ & _ & _ & He0).
  rewrite HNew in Hrun. cbn [obind] in Hrun. unfold ParseProgram, bind in Hrun.
  destruct (ParseProgram_loop (enough_fuel src) (enough_fuel src) [] p0)
    as [[stmts p1]|] eqn:Hloop; [|discriminate].
  injection Hrun as <- <-.
  destruct (yields_ParseProgram_loop _ _ _ _ _ _ Hloop)
    as (ds & Herr & [->|Hbad] & _).
  - unfold Errors. now rewrite Herr, He0.
  - cbn [ast.Stmts] in Hall. congruence.
Qed.

End Diagnostics.


(** * When rendering returns *)

Section RenderingReturns.

Lemma renderable_CallExpr t f a :
  renderable (ast.CallExpr t f a)
  = orenderable f
    && match a with Some l => forallb orenderable l | None => true end.
Proof. destruct a as [l|]; reflexivity. Qed.

Lemma obind_Some {A B : Type} (m : option A) (f : A -> option B) (b : B) :
  obind m f = Some b <-> exists a, m = Some a /\ f a = Some b.
Proof.
  destruct m as [a|]; cbn [obind]; split.
  - eauto.
  - now intros (a' & [= <-] & H).
  - discriminate.
  - now intros (a' & [=] & _).
Qed.

Lemma renderable_String :
  forall e, renderable e = true <-> exists s, ast.Expr_String e = Some s.
Proof.
  fix IH 1. intros [t v|t v|t op r|t l op r|t f a].
  - split; [eexists; reflexivity | reflexivity].
  - split; [eexists; reflexivity | reflexivity].
  - change (renderable (ast.PrefixExpr t op r)) with (orenderable r).
    change (ast.Expr_String (ast.PrefixExpr t op r))
      with (x <- oString r ;; Some ("(" ++ op ++ x ++ ")")).
    destruct r as [x|]; cbn [orenderable oString obind].
    + rewrite (IH x). split; intros [s Hs].
      * rewrite Hs. eexists; reflexivity.
      * destruct (ast.Expr_String x); [eauto | discriminate].
    + split; [discriminate | intros [s Hs]; discriminate].
  - change (renderable (ast.InfixExpr t l op r))
      with (orenderable l && orenderable r).
    change (ast.Expr_String (ast.InfixExpr t l op r))
      with (x <- oString l ;; y <- oString r ;;
            Some ("(" ++ x ++ (" " ++ op ++ " ") ++ y ++ ")")).
    rewrite andb_true_iff.
    destruct l as [x|]; cbn [orenderable oString obind];
      [|split; [intros [? _]; discriminate | intros [s Hs]; discriminate]].
    destruct r as [y|]; cbn [orenderable oString obind].
    + rewrite (IH x), (IH y). split.
      * intros [[s Hs] [s' Hs']]. rewrite Hs, Hs'. eexists; reflexivity.
      * intros [s Hs]. destruct (ast.Expr_String x); [|discriminate].
        destruct (ast.Expr_String y); [eauto | discriminate].
    + split; [intros [_ ?]; discriminate|].
      intros [s Hs]. destruct (ast.Expr_String x); discriminate.
  - rewrite renderable_CallExpr, Expr_String_CallExpr, andb_true_iff.
    assert (Hargs : forall l,
              forallb orenderable l = true
              <-> exists ss, args_String l = Some ss).
    { induction l as [|arg l IHl].
      - split; [eexists; reflexivity | reflexivity].
      - cbn [forallb]. rewrite andb_true_iff, args_String_cons, IHl.
        destruct arg as [y|]; cbn [orenderable oString obind].
        + rewrite (IH y). split.
          * intros [[s Hs] [ss Hss]]. rewrite Hs, Hss. eexists; reflexivity.
          * intros [ss Hss]. destruct (ast.Expr_String y); [|discriminate].
            destruct (args_String l); [eauto | discriminate].
        + split; [intros [? _]; discriminate | intros [? ?]; discriminate]. }
    assert (Ha : match a with
                 | Some l => forallb orenderable l
                 | None => true
                 end = true
                 <-> exists ss, match a with
                                | Some l => args_String l
                                | None => Some []
                                end = Some ss).
    { destruct a as [l|]; [apply Hargs|].
      split; [eexists; reflexivity | reflexivity]. }
    rewrite Ha. destruct f as [x|]; cbn [orenderable oString].
    + rewrite (IH x). split.
      * intros [[s Hs] [ss Hss]]. rewrite Hss, Hs. eexists; reflexivity.
      * intros [s Hs].
        destruct (match a with Some l => args_String l | None => Some [] end);
          [|discriminate]. cbn [obind] in Hs.
        destruct (ast.Expr_String x); [eauto | discriminate].
    + split; [intros [? _]; discriminate|].
      intros [s Hs].
      destruct (match a with Some l => args_String l | None => Some [] end);
        discriminate.
Qed.

(** X8. When [String()] returns.  Rendering an expression returns exactly
    when no operand of a prefix or infix node, no callee and no argument of
    a call in it is nil (a nil argument list renders like an empty one);
    rendering a program returns exactly when that holds of the expression
    of every statement that has one (a statement without expression
    renders as the empty text). *)
Theorem rendering_returns_iff :
  (forall e, renderable e = true <-> exists s, ast.Expr_String e = Some s)
  /\ (forall prog,
        forallb renderable_stmt (ast.Stmts prog) = true
        <-> exists s, ast.Program_String prog = Some s).
Proof.
  split; [exact renderable_String|].
  intros [stmts]. unfold ast.Program_String. cbn [ast.Stmts].
  induction stmts as [|[t e] stmts IH].
  - split; [eexists; reflexivity | reflexivity].
  - cbn [forallb ast.Stmts_String]. rewrite andb_true_iff, IH.
    destruct e as [x|]; cbn [renderable_stmt ast.Stmt_String obind].
    + rewrite renderable_String. split.
      * intros [[s Hs] [s' Hs']]. rewrite Hs. cbn [obind]. rewrite Hs'.
        eexists; reflexivity.
      * intros [s Hs]. destruct (ast.Expr_String x); [|discriminate].
        cbn [obind] in Hs.
        destruct (ast.Stmts_String stmts); [eauto | discriminate].
    + split.
      * intros [_ [s' Hs']]. rewrite Hs'. eexists; reflexivity.
      * intros [s Hs]. split; [reflexivity|].
        destruct (ast.Stmts_String stmts); [eauto | discriminate].
Qed.

End RenderingReturns.


(** * ParseProgram from any state *)

Section AnyState.

Import parser.

(** X9. From any parser state whose lexer is within its invariant,
    [ParseProgram] returns, with a fuel of the state's potential plus two;
    the diagnostics already recorded are kept and new ones are appended
    after them; and the parser stops on an end-of-input token. *)
Theorem ParseProgram_appends_diagnostics (p : Parser) :
  lexer_inv (lexer_ p) ->
  exists prog p' ds,
    ParseProgram (potential p + 2) p = Some (prog, p')
    /\ errors p' = (errors p ++ ds)%list
    /\ token.Typ (currToken p') = token.EOF.
Proof.
  intros Hinv.
  destruct (ParseProgram_loop_returns (potential p + 2) (potential p + 2)
              [] p Hinv) as (stmts & p' & k & ds & Hrun & Hfin & _);
    [lia | lia |].
  exists {| ast.Stmts := stmts |}, p', ds.
  split; [unfold ParseProgram, bind; now rewrite Hrun|].
  destruct Hfin. auto.
Qed.

(** A parser that already holds a diagnostic, on the source [1 +]. *)
Lemma ParseProgram_appends_diagnostics_witness :
  exists prog p' ds,
    ParseProgram
      (potential {| lexer_ := lexer.New "1 +";
                    currToken := {| token.Literal := "(";
                                    token.Typ := token.LeftParen |};
                    peekToken := {| token.Literal := ")";
                                    token.Typ := token.RightParen |};
                    errors := ["earlier"] |} + 2)
      {| lexer_ := lexer.New "1 +";
         currToken := {| token.Literal := "(";
                         token.Typ := token.LeftParen |};
         peekToken := {| token.Literal := ")";
                         token.Typ := token.RightParen |};
         errors := ["earlier"] |}
    = Some (prog, p')
    /\ errors p' = ("earlier" :: ds)%list
    /\ token.Typ (currToken p') = token.EOF.
Proof.
  apply (ParseProgram_appends_diagnostics
           {| lexer_ := lexer.New "1 +";
              currToken := {| token.Literal := "(";
                              token.Typ := token.LeftParen |};
              peekToken := {| token.Literal := ")";
                              token.Typ := token.RightParen |};
              errors := ["earlier"] |}).
  apply New_inv.
Defined.

End AnyState.


(** * How operators group *)

Section OperatorGrouping.

Import lexer parser.

Lemma oString_infix_node t sym l r x y :
  oString l = Some x -> oString r = Some y ->
  oString (Some (infix_node t sym l r)) = Some (infix_text x sym y).
Proof. apply oString_InfixExpr. Qed.

Lemma render_one_statement src tok e p s :
  parse (enough_fuel src) src
  = Some ({| ast.Stmts := [ast.ExpressionStmt tok (Some e)] |}, p) ->
  errors p = [] -> oString (Some e) = Some s ->
  parsed src = Some ([ast.ExpressionStmt tok (Some e)], [])
  /\ render src = Some (Some s, []).
Proof.
  intros Hparse Herr Hs. unfold parsed, render, parse_render.
  rewrite Hparse. cbn [obind fst snd ast.Stmts]. unfold Errors.
  rewrite Herr. split; [reflexivity|].
  unfold ast.Program_String.
  cbn [ast.Stmts ast.Stmts_String ast.Stmt_String].
  cbn [oString] in Hs. rewrite Hs. cbn [obind].
  now rewrite append_empty_r.
Qed.

Lemma two_operator_parse a t1 sym1 pr1 b t2 sym2 pr2 c :
  operand_ok a = true -> operand_ok b = true -> operand_ok c = true ->
  operator_symbol t1 = Some sym1 -> operator_symbol t2 = Some sym2 ->
  precedences t1 = Some pr1 -> precedences t2 = Some pr2 ->
  exists p,
    parse (enough_fuel (two_operator_source a sym1 b sym2 c))
      (two_operator_source a sym1 b sym2 c)
    = Some ({| ast.Stmts :=
                 [ast.ExpressionStmt (operand_token a)
                    (Some (if (pr1 <? pr2)%Z
                           then infix_node t1 sym1 (operand_expr a)
                                  (Some (infix_node t2 sym2 (operand_expr b)
                                           (operand_expr c)))
                           else infix_node t2 sym2
                                  (Some (infix_node t1 sym1 (operand_expr a)
                                           (operand_expr b)))
                                  (operand_expr c)))] |}, p)
    /\ errors p = [].
Proof.
  intros Ha Hb Hc Hsym1 Hsym2 Hpr1 Hpr2.
  destruct (operator_precedence t1 sym1 Hsym1) as (pr1' & Hpr1' & Hlow1).
  destruct (operator_precedence t2 sym2 Hsym2) as (pr2' & Hpr2' & Hlow2).
  rewrite Hpr1 in Hpr1'. injection Hpr1' as <-.
  rewrite Hpr2 in Hpr2'. injection Hpr2' as <-.
  set (o1 := {| token.Literal := sym1; token.Typ := t1 |}).
  set (o2 := {| token.Literal := sym2; token.Typ := t2 |}).
  set (src := two_operator_source a sym1 b sym2 c).
  set (s4 := String.String " " (operand_text c)).
  set (s3 := String.String " " (sym2 ++ s4)).
  set (s2 := String.String " " (operand_text b ++ s3)).
  set (s1 := String.String " " (sym1 ++ s2)).
  assert (L0 : lexSuffix src = (operand_token a, s1)).
  { change src with (operand_text a ++ s1). now apply lexSuffix_operand. }
  assert (L1 : lexSuffix s1 = (o1, s2)).
  { unfold s1. rewrite lexSuffix_space. now apply lexSuffix_operator. }
  assert (L2 : lexSuffix s2 = (operand_token b, s3)).
  { unfold s2. rewrite lexSuffix_space. now apply lexSuffix_operand. }
  assert (L3 : lexSuffix s3 = (o2, s4)).
  { unfold s3. rewrite lexSuffix_space. now apply lexSuffix_operator. }
  assert (L4 : lexSuffix s4 = (operand_token c, "")).
  { unfold s4. rewrite lexSuffix_space.
    rewrite <- (append_empty_r (operand_text c)) at 1.
    now apply lexSuffix_operand. }
  destruct (nextToken_mk (lexer.New src) token.zeroToken token.zeroToken []
              src _ _ (New_inv src) eq_refl L0) as (l1 & I1 & R1 & N1).
  destruct (nextToken_mk l1 token.zeroToken (operand_token a) []
              s1 _ _ I1 R1 L1) as (l2 & I2 & R2 & N2).
  destruct (nextToken_mk l2 (operand_token a) o1 [] s2 _ _ I2 R2 L2)
    as (l3 & I3 & R3 & N3).
  destruct (nextToken_mk l3 o1 (operand_token b) [] s3 _ _ I3 R3 L3)
    as (l4 & I4 & R4 & N4).
  destruct (nextToken_mk l4 (operand_token b) o2 [] s4 _ _ I4 R4 L4)
    as (l5 & I5 & R5 & N5).
  destruct (nextToken_mk l5 o2 (operand_token c) [] "" _ _ I5 R5
              lexSuffix_end) as (l6 & I6 & R6 & N6).
  destruct (nextToken_mk l6 (operand_token c) EOFToken [] "" _ _ I6 R6
              lexSuffix_end) as (l7 & I7 & R7 & N7).
  assert (Hpeek1 : forall l cur errs,
            peekPrecedence {| lexer_ := l; currToken := cur; peekToken := o1;
                              errors := errs |} = pr1).
  { intros. unfold peekPrecedence. cbn [peekToken o1 token.Typ].
    now rewrite Hpr1. }
  assert (Hpeek2 : forall l cur errs,
            peekPrecedence {| lexer_ := l; currToken := cur; peekToken := o2;
                              errors := errs |} = pr2).
  { intros. unfold peekPrecedence. cbn [peekToken o2 token.Typ].
    now rewrite Hpr2. }
  assert (Hcurr1 : forall l peek errs,
            currPrecedence {| lexer_ := l; currToken := o1; peekToken := peek;
                              errors := errs |} = pr1).
  { intros. unfold currPrecedence. cbn [currToken o1 token.Typ].
    now rewrite Hpr1. }
  assert (Hcurr2 : forall l peek errs,
            currPrecedence {| lexer_ := l; currToken := o2; peekToken := peek;
                              errors := errs |} = pr2).
  { intros. unfold currPrecedence. cbn [currToken o2 token.Typ].
    now rewrite Hpr2. }
  assert (Hlt1 : (LOWEST <? pr1)%Z = true) by now apply Z.ltb_lt.
  assert (Hlt2 : (LOWEST <? pr2)%Z = true) by now apply Z.ltb_lt.
  assert (Hge1 : (pr1 <? LOWEST)%Z = false) by (apply Z.ltb_ge; lia).
  assert (Hge2 : (pr2 <? LOWEST)%Z = false) by (apply Z.ltb_ge; lia).
  eexists. split.
  replace (enough_fuel src) with (S (S (S (S (S (2 * String.length src))))))
    by (unfold enough_fuel; lia).
  generalize (2 * String.length src). intros n.
  unfold parse, New, bind. rewrite N1, N2. cbn [obind snd].
  unfold ParseProgram, bind.
  cbn [ParseProgram_loop]. unfold currTokenIs at 1. cbn [currToken].
  rewrite operand_not_EOF. cbn [negb].
  unfold bind, parseStatement, parseExpressionStmt. cbv zeta.
  unfold bind. cbn [parseExpression].
  rewrite (body_operand _ _ _ a) by (assumption || reflexivity).
  rewrite (loop_operator _ _ _ _ _ _ t1 sym1)
    by (reflexivity || assumption || now rewrite Hpeek1).
  unfold bind. rewrite N3. unfold parseInfixExpr at 1. cbv zeta.
  unfold bind. rewrite N4. rewrite Hcurr1. cbn [parseExpression].
  rewrite (body_operand _ _ _ b) by (assumption || reflexivity).
  destruct (pr1 <? pr2)%Z eqn:Hcmp.
  - (* the second operator binds tighter: it takes [b] *)
    rewrite (loop_operator _ _ _ _ _ _ t2 sym2)
      by (reflexivity || assumption || now rewrite Hpeek2).
    unfold bind. rewrite N5. unfold parseInfixExpr at 1. cbv zeta.
    unfold bind. rewrite N6. rewrite Hcurr2. cbn [parseExpression].
    rewrite (body_operand _ _ _ c) by (assumption || reflexivity).
    rewrite loop_exit by (cbn; rewrite Hge2; reflexivity).
    unfold ret. cbn [currToken].
    rewrite loop_exit by (cbn; rewrite Hge1; reflexivity).
    rewrite loop_exit by reflexivity.
    cbn [peekTokenIs peekToken EOFToken token.Typ token.TokenType_beq].
    rewrite N7. cbn [currTokenIs currToken EOFToken token.Typ
                     token.TokenType_beq negb].
    reflexivity.
  - (* otherwise the first operator keeps [b] *)
    rewrite loop_exit
      by (rewrite Hpeek2, Hcmp; apply andb_false_r).
    unfold ret. cbn [currToken].
    rewrite (loop_operator _ _ _ _ _ _ t2 sym2)
      by (reflexivity || assumption || now rewrite Hpeek2).
    unfold bind. rewrite N5. unfold parseInfixExpr at 1. cbv zeta.
    unfold bind. rewrite N6. rewrite Hcurr2. cbn [parseExpression].
    rewrite (body_operand _ _ _ c) by (assumption || reflexivity).
    rewrite loop_exit by (cbn; rewrite Hge2; reflexivity).
    unfold ret. cbn [currToken].
    rewrite loop_exit by reflexivity.
    cbn [peekTokenIs peekToken EOFToken token.Typ token.TokenType_beq].
    rewrite N7. cbn [currTokenIs currToken EOFToken token.Typ
                     token.TokenType_beq negb].
    reflexivity.
  - reflexivity.
Qed.

(** X10. Two binary operators group by precedence.  For single-token
    operands [a], [b], [c] and binary operators [op1], [op2] of
    precedences [pr1] and [pr2], parsing the text [a op1 b op2 c] yields,
    without a diagnostic, the tree (a op1 (b op2 c)) when [pr1 < pr2], and
    the tree ((a op1 b) op2 c) otherwise, that is also when the two
    precedences are equal. *)
Theorem operators_group_by_precedence (a b c : operand)
  (t1 t2 : token.TokenType) (sym1 sym2 : string) (pr1 pr2 : Precedence) :
  operand_ok a = true -> operand_ok b = true -> operand_ok c = true ->
  operator_symbol t1 = Some sym1 -> operator_symbol t2 = Some sym2 ->
  precedences t1 = Some pr1 -> precedences t2 = Some pr2 ->
  parsed (two_operator_source a sym1 b sym2 c)
  = Some ([ast.ExpressionStmt (operand_token a)
             (Some (if (pr1 <? pr2)%Z
                    then infix_node t1 sym1 (operand_expr a)
                           (Some (infix_node t2 sym2 (operand_expr b)
                                    (operand_expr c)))
                    else infix_node t2 sym2
                           (Some (infix_node t1 sym1 (operand_expr a)
                                    (operand_expr b)))
                           (operand_expr c)))], [])
  /\ render (two_operator_source a sym1 b sym2 c)
     = Some (Some (if (pr1 <? pr2)%Z
                   then infix_text (operand_text a) sym1
                          (infix_text (operand_text b) sym2 (operand_text c))
                   else infix_text
                          (infix_text (operand_text a) sym1 (operand_text b))
                          sym2 (operand_text c)), []).
Proof.
  intros Ha Hb Hc Hsym1 Hsym2 Hpr1 Hpr2.
  destruct (two_operator_parse a t1 sym1 pr1 b t2 sym2 pr2 c
              Ha Hb Hc Hsym1 Hsym2 Hpr1 Hpr2) as (p & Hparse & Herr).
  apply (render_one_statement _ _ _ p); [exact Hparse | exact Herr |].
  destruct (pr1 <? pr2)%Z;
    repeat first [ apply oString_infix_node | now apply oString_operand ].
Qed.

(** [<] binds tighter than [>=] on either side, and [+] less tightly than
    [*]. *)
Lemma operators_group_by_precedence_witness :
  (parsed "a < b >= c"
   = Some ([ast.ExpressionStmt (operand_token (Ident "a"))
              (Some (infix_node token.GreaterThanEqualTo ">="
                       (Some (infix_node token.LessThan "<"
                                (operand_expr (Ident "a"))
                                (operand_expr (Ident "b"))))
                       (operand_expr (Ident "c"))))], [])
   /\ render "a < b >= c" = Some (Some "((a < b) >= c)", []))
  /\ (parsed "a >= b < c"
      = Some ([ast.ExpressionStmt (operand_token (Ident "a"))
                 (Some (infix_node token.GreaterThanEqualTo ">="
                          (operand_expr (Ident "a"))
                          (Some (infix_node token.LessThan "<"
                                   (operand_expr (Ident "b"))
                                   (operand_expr (Ident "c"))))))], [])
      /\ render "a >= b < c" = Some (Some "(a >= (b < c))", [])).
Proof.
  split.
  - apply (operators_group_by_precedence (Ident "a") (Ident "b") (Ident "c")
             token.LessThan token.GreaterThanEqualTo "<" ">="
             LESSGREATER LESSGREATEREQUAL); reflexivity.
  - apply (operators_group_by_precedence (Ident "a") (Ident "b") (Ident "c")
             token.GreaterThanEqualTo token.LessThan ">=" "<"
             LESSGREATEREQUAL LESSGREATER); reflexivity.
Defined.

End OperatorGrouping.


(** * Prefix operators *)

Section PrefixOperators.

Import lexer parser.

Lemma body_prefix rec n prec p t sym :
  prefix_symbol t = Some sym -> token.Typ (currToken p) = t ->
  parseExpression_body rec n prec p
  = (left <~ parsePrefixExpr rec ;; parseExpression_loop rec n n prec left) p.
Proof.
  intros Hsym Ht. unfold parseExpression_body. rewrite Ht.
  destruct t; try discriminate; reflexivity.
Qed.

Lemma operator_below_prefix t sym :
  operator_symbol t = Some sym ->
  exists pr, precedences t = Some pr /\ (LOWEST < pr < PREFIX)%Z.
Proof.
  destruct t; try discriminate; intros _; eexists;
    (split; [reflexivity | unfold LOWEST, PREFIX; cbv; split; reflexivity]).
Qed.

Lemma operand_head_not_eq o y :
  operand_ok o = true -> (hd (operand_text o ++ y) =? eqSym)%char = false.
Proof.
  intros Hok.
  assert (Hhd : utils.IsAlpha (hd (operand_text o)) = true
                \/ utils.IsNumeric (hd (operand_text o)) = true).
  { destruct o; cbn [operand_ok operand_text] in *;
      apply andb_true_iff in Hok as [Hok _];
      apply andb_true_iff in Hok as [Hok _]; auto. }
  assert (Hne : operand_text o <> "").
  { destruct Hhd; [now apply alpha_nonempty | now apply numeric_nonempty]. }
  rewrite (hd_append _ _ Hne).
  destruct (hd (operand_text o) =? eqSym)%char eqn:E; [|reflexivity].
  apply Ascii.eqb_eq in E. rewrite E in Hhd.
  destruct Hhd; discriminate.
Qed.

Lemma lexSuffix_prefix t sym o y :
  prefix_symbol t = Some sym -> operand_ok o = true ->
  lexSuffix (sym ++ operand_text o ++ y)
  = ({| token.Literal := sym; token.Typ := t |}, operand_text o ++ y).
Proof.
  intros Hsym Hok.
  destruct t; try discriminate; injection Hsym as <-.
  - reflexivity.
  - pose proof (operand_head_not_eq o y Hok) as Hne.
    cbn [append]. unfold lexSuffix.
    cbn [span isSpace hd tl fst snd Ascii.eqb Bool.eqb andb orb].
    cbn. unfold twoCharSuffix. rewrite Hne. reflexivity.
Qed.

Lemma prefix_parse tu u a t sym b :
  prefix_symbol tu = Some u -> operator_symbol t = Some sym ->
  operand_ok a = true -> operand_ok b = true ->
  exists p,
    parse (enough_fuel (u ++ operand_text a ++ " " ++ sym ++ " "
                        ++ operand_text b))
      (u ++ operand_text a ++ " " ++ sym ++ " " ++ operand_text b)
    = Some ({| ast.Stmts :=
                 [ast.ExpressionStmt {| token.Literal := u; token.Typ := tu |}
                    (Some (infix_node t sym
                             (Some (prefix_node tu u (operand_expr a)))
                             (operand_expr b)))] |}, p)
    /\ errors p = [].
Proof.
  intros Hu Hsym Ha Hb.
  destruct (operator_below_prefix t sym Hsym) as (pr & Hpr & Hlow & Hhigh).
  set (ou := {| token.Literal := u; token.Typ := tu |}).
  set (op := {| token.Literal := sym; token.Typ := t |}).
  set (src := u ++ operand_text a ++ " " ++ sym ++ " " ++ operand_text b).
  set (s2 := String.String " " (operand_text b)).
  set (s1 := String.String " " (sym ++ s2)).
  assert (L0 : lexSuffix src = (ou, operand_text a ++ s1)).
  { now apply lexSuffix_prefix. }
  assert (L1 : lexSuffix (operand_text a ++ s1) = (operand_token a, s1)).
  { now apply lexSuffix_operand. }
  assert (L2 : lexSuffix s1 = (op, s2)).
  { unfold s1. rewrite lexSuffix_space. now apply lexSuffix_operator. }
  assert (L3 : lexSuffix s2 = (operand_token b, "")).
  { unfold s2. rewrite lexSuffix_space.
    rewrite <- (append_empty_r (operand_text b)) at 1.
    now apply lexSuffix_operand. }
  destruct (nextToken_mk (lexer.New src) token.zeroToken token.zeroToken []
              src _ _ (New_inv src) eq_refl L0) as (l1 & I1 & R1 & N1).
  destruct (nextToken_mk l1 token.zeroToken ou [] _ _ _ I1 R1 L1)
    as (l2 & I2 & R2 & N2).
  destruct (nextToken_mk l2 ou (operand_token a) [] _ _ _ I2 R2 L2)
    as (l3 & I3 & R3 & N3).
  destruct (nextToken_mk l3 (operand_token a) op [] _ _ _ I3 R3 L3)
    as (l4 & I4 & R4 & N4).
  destruct (nextToken_mk l4 op (operand_token b) [] _ _ _ I4 R4
              lexSuffix_end) as (l5 & I5 & R5 & N5).
  destruct (nextToken_mk l5 (operand_token b) EOFToken [] _ _ _ I5 R5
              lexSuffix_end) as (l6 & I6 & R6 & N6).
  assert (Hpeek : forall l cur errs,
            peekPrecedence {| lexer_ := l; currToken := cur; peekToken := op;
                              errors := errs |} = pr).
  { intros. unfold peekPrecedence. cbn [peekToken op token.Typ].
    now rewrite Hpr. }
  assert (Hcurr : forall l peek errs,
            currPrecedence {| lexer_ := l; currToken := op; peekToken := peek;
                              errors := errs |} = pr).
  { intros. unfold currPrecedence. cbn [currToken op token.Typ].
    now rewrite Hpr. }
  assert (Hlt : (LOWEST <? pr)%Z = true) by now apply Z.ltb_lt.
  assert (Hge : (pr <? LOWEST)%Z = false) by (apply Z.ltb_ge; lia).
  assert (Hpre : (PREFIX <? pr)%Z = false) by (apply Z.ltb_ge; lia).
  assert (HuEOF : token.TokenType_beq tu token.EOF = false).
  { destruct tu; try discriminate; reflexivity. }
  eexists. split.
  replace (enough_fuel src) with (S (S (S (S (S (2 * String.length src))))))
    by (unfold enough_fuel; lia).
  generalize (2 * String.length src). intros n.
  unfold parse, New, bind. rewrite N1, N2. cbn [obind snd].
  unfold ParseProgram, bind.
  cbn [ParseProgram_loop]. unfold currTokenIs at 1.
  cbn [currToken ou token.Typ]. rewrite HuEOF. cbn [negb].
  unfold bind, parseStatement, parseExpressionStmt. cbv zeta.
  unfold bind. cbn [parseExpression].
  rewrite (body_prefix _ _ _ _ tu u) by (assumption || reflexivity).
  unfold bind. unfold parsePrefixExpr at 1. cbv zeta.
  unfold bind. rewrite N3. cbn [parseExpression].
  rewrite (body_operand _ _ _ a) by (assumption || reflexivity).
  rewrite loop_exit by (rewrite Hpeek, Hpre; apply andb_false_r).
  unfold ret. cbn [currToken].
  rewrite (loop_operator _ _ _ _ _ _ t sym)
    by (reflexivity || assumption || now rewrite Hpeek).
  unfold bind. rewrite N4. unfold parseInfixExpr at 1. cbv zeta.
  unfold bind. rewrite N5. rewrite Hcurr. cbn [parseExpression].
  rewrite (body_operand _ _ _ b) by (assumption || reflexivity).
  rewrite loop_exit by (cbn; rewrite Hge; reflexivity).
  unfold ret. cbn [currToken].
  rewrite loop_exit by reflexivity.
  cbn [peekTokenIs peekToken EOFToken token.Typ token.TokenType_beq].
  rewrite N6. cbn [currTokenIs currToken EOFToken token.Typ
                   token.TokenType_beq negb].
  reflexivity.
  reflexivity.
Qed.

Lemma oString_prefix_node t sym r x :
  oString r = Some x ->
  oString (Some (prefix_node t sym r)) = Some (prefix_text sym x).
Proof.
  intros Hr. unfold prefix_node, prefix_text. cbn [oString ast.Expr_String].
  destruct r as [e|]; [|discriminate]. cbn [oString] in Hr.
  rewrite Hr. reflexivity.
Qed.

(** X11. A prefix operator binds tighter than every binary operator.  For
    a prefix operator [u] (minus or bang), single-token operands [a] and
    [b] and a binary operator [op], the text [u a op b] parses, without a
    diagnostic, to the tree ((u a) op b): the operand of [u] is [a] alone,
    never [a op b]. *)
Theorem prefix_binds_tighter (tu t : token.TokenType) (u sym : string)
  (a b : operand) :
  prefix_symbol tu = Some u -> operator_symbol t = Some sym ->
  operand_ok a = true -> operand_ok b = true ->
  parsed (u ++ operand_text a ++ " " ++ sym ++ " " ++ operand_text b)
  = Some ([ast.ExpressionStmt {| token.Literal := u; token.Typ := tu |}
             (Some (infix_node t sym
                      (Some (prefix_node tu u (operand_expr a)))
                      (operand_expr b)))], [])
  /\ render (u ++ operand_text a ++ " " ++ sym ++ " " ++ operand_text b)
     = Some (Some (infix_text (prefix_text u (operand_text a)) sym
                     (operand_text b)), []).
Proof.
  intros Hu Hsym Ha Hb.
  destruct (prefix_parse tu u a t sym b Hu Hsym Ha Hb) as (p & Hparse & Herr).
  apply (render_one_statement _ _ _ p); [exact Hparse | exact Herr |].
  apply oString_infix_node; [|now apply oString_operand].
  apply oString_prefix_node. now apply oString_operand.
Qed.

Lemma prefix_binds_tighter_witness :
  parsed "-a * b"
  = Some ([ast.ExpressionStmt
             {| token.Literal := "-"; token.Typ := token.Minus |}
             (Some (infix_node token.Star "*"
                      (Some (prefix_node token.Minus "-"
                               (operand_expr (Ident "a"))))
                      (operand_expr (Ident "b"))))], [])
  /\ render "-a * b" = Some (Some "((-a) * b)", []).
Proof.
  apply (prefix_binds_tighter token.Minus token.Star "-" "*"
           (Ident "a") (Ident "b")); reflexivity.
Defined.

End PrefixOperators.


(** * Parentheses *)

Section Parentheses.

Import lexer parser.

Lemma body_group rec n prec p :
  token.Typ (currToken p) = token.LeftParen ->
  parseExpression_body rec n prec p
  = (left <~ parseGroupedExpr rec ;; parseExpression_loop rec n n prec left) p.
Proof.
  intros Ht. unfold parseExpression_body. now rewrite Ht.
Qed.

Lemma lexSuffix_LeftParen y :
  lexSuffix (String.String "(" y) = (LeftParenToken, y).
Proof. reflexivity. Qed.

Lemma lexSuffix_RightParen y :
  lexSuffix (String.String ")" y) = (RightParenToken, y).
Proof. reflexivity. Qed.

Lemma group_right_parse a t1 sym1 b t2 sym2 c :
  operand_ok a = true -> operand_ok b = true -> operand_ok c = true ->
  operator_symbol t1 = Some sym1 -> operator_symbol t2 = Some sym2 ->
  exists p,
    parse (enough_fuel (operand_text a ++ " " ++ sym1 ++ " (" ++ operand_text b
                        ++ " " ++ sym2 ++ " " ++ operand_text c ++ ")"))
      (operand_text a ++ " " ++ sym1 ++ " (" ++ operand_text b
       ++ " " ++ sym2 ++ " " ++ operand_text c ++ ")")
    = Some ({| ast.Stmts :=
                 [ast.ExpressionStmt (operand_token a)
                    (Some (infix_node t1 sym1 (operand_expr a)
                             (Some (infix_node t2 sym2 (operand_expr b)
                                      (operand_expr c)))))] |}, p)
    /\ errors p = [].
Proof.
  intros Ha Hb Hc Hsym1 Hsym2.
  destruct (operator_precedence t1 sym1 Hsym1) as (pr1 & Hpr1 & Hlow1).
  destruct (operator_precedence t2 sym2 Hsym2) as (pr2 & Hpr2 & Hlow2).
  set (o1 := {| token.Literal := sym1; token.Typ := t1 |}).
  set (o2 := {| token.Literal := sym2; token.Typ := t2 |}).
  set (src := operand_text a ++ " " ++ sym1 ++ " (" ++ operand_text b
              ++ " " ++ sym2 ++ " " ++ operand_text c ++ ")").
  set (s5 := String.String " " (operand_text c ++ ")")).
  set (s4 := String.String " " (sym2 ++ s5)).
  set (s3 := operand_text b ++ s4).
  set (s2 := String.String " " (String.String "(" s3)).
  set (s1 := String.String " " (sym1 ++ s2)).
  assert (L0 : lexSuffix src = (operand_token a, s1)).
  { change src with (operand_text a ++ s1). now apply lexSuffix_operand. }
  assert (L1 : lexSuffix s1 = (o1, s2)).
  { unfold s1. rewrite lexSuffix_space. now apply lexSuffix_operator. }
  assert (L2 : lexSuffix s2 = (LeftParenToken, s3)).
  { unfold s2. rewrite lexSuffix_space. apply lexSuffix_LeftParen. }
  assert (L3 : lexSuffix s3 = (operand_token b, s4)).
  { now apply lexSuffix_operand. }
  assert (L4 : lexSuffix s4 = (o2, s5)).
  { unfold s4. rewrite lexSuffix_space. now apply lexSuffix_operator. }
  assert (L5 : lexSuffix s5 = (operand_token c, ")")).
  { unfold s5. rewrite lexSuffix_space. now apply lexSuffix_operand. }
  assert (L6 : lexSuffix ")" = (RightParenToken, "")) by reflexivity.
  destruct (nextToken_mk (lexer.New src) token.zeroToken token.zeroToken []
              src _ _ (New_inv src) eq_refl L0) as (l1 & I1 & R1 & N1).
  destruct (nextToken_mk l1 token.zeroToken (operand_token a) []
              _ _ _ I1 R1 L1) as (l2 & I2 & R2 & N2).
  destruct (nextToken_mk l2 (operand_token a) o1 [] _ _ _ I2 R2 L2)
    as (l3 & I3 & R3 & N3).
  destruct (nextToken_mk l3 o1 LeftParenToken [] _ _ _ I3 R3 L3)
    as (l4 & I4 & R4 & N4).
  destruct (nextToken_mk l4 LeftParenToken (operand_token b) [] _ _ _
              I4 R4 L4) as (l5 & I5 & R5 & N5).
  destruct (nextToken_mk l5 (operand_token b) o2 [] _ _ _ I5 R5 L5)
    as (l6 & I6 & R6 & N6).
  destruct (nextToken_mk l6 o2 (operand_token c) [] _ _ _ I6 R6 L6)
    as (l7 & I7 & R7 & N7).
  destruct (nextToken_mk l7 (operand_token c) RightParenToken [] _ _ _
              I7 R7 lexSuffix_end) as (l8 & I8 & R8 & N8).
  destruct (nextToken_mk l8 RightParenToken EOFToken [] _ _ _
              I8 R8 lexSuffix_end) as (l9 & I9 & R9 & N9).
  assert (Hpeek1 : forall l cur errs,
            peekPrecedence {| lexer_ := l; currToken := cur; peekToken := o1;
                              errors := errs |} = pr1).
  { intros. unfold peekPrecedence. cbn [peekToken o1 token.Typ].
    now rewrite Hpr1. }
  assert (Hpeek2 : forall l cur errs,
            peekPrecedence {| lexer_ := l; currToken := cur; peekToken := o2;
                              errors := errs |} = pr2).
  { intros. unfold peekPrecedence. cbn [peekToken o2 token.Typ].
    now rewrite Hpr2. }
  assert (Hcurr1 : forall l peek errs,
            currPrecedence {| lexer_ := l; currToken := o1; peekToken := peek;
                              errors := errs |} = pr1).
  { intros. unfold currPrecedence. cbn [currToken o1 token.Typ].
    now rewrite Hpr1. }
  assert (Hcurr2 : forall l peek errs,
            currPrecedence {| lexer_ := l; currToken := o2; peekToken := peek;
                              errors := errs |} = pr2).
  { intros. unfold currPrecedence. cbn [currToken o2 token.Typ].
    now rewrite Hpr2. }
  assert (Hlt1 : (LOWEST <? pr1)%Z = true) by now apply Z.ltb_lt.
  assert (Hlt2 : (LOWEST <? pr2)%Z = true) by now apply Z.ltb_lt.
  assert (Hge1 : (pr1 <? LOWEST)%Z = false) by (apply Z.ltb_ge; lia).
  assert (Hge2 : (pr2 <? LOWEST)%Z = false) by (apply Z.ltb_ge; lia).
  eexists. split.
  replace (enough_fuel src) with (S (S (S (S (S (2 * String.length src))))))
    by (unfold enough_fuel; lia).
  generalize (2 * String.length src). intros n.
  unfold parse, New, bind. rewrite N1, N2. cbn [obind snd].
  unfold ParseProgram, bind.
  cbn [ParseProgram_loop]. unfold currTokenIs at 1. cbn [currToken].
  rewrite operand_not_EOF. cbn [negb].
  unfold bind, parseStatement, parseExpressionStmt. cbv zeta.
  unfold bind. cbn [parseExpression].
  rewrite (body_operand _ _ _ a) by (assumption || reflexivity).
  rewrite (loop_operator _ _ _ _ _ _ t1 sym1)
    by (reflexivity || assumption || now rewrite Hpeek1).
  unfold bind. rewrite N3. unfold parseInfixExpr at 1. cbv zeta.
  unfold bind. rewrite N4. rewrite Hcurr1. cbn [parseExpression].
  rewrite body_group by reflexivity.
  unfold bind. unfold parseGroupedExpr at 1.
  unfold bind. rewrite N5. cbn [parseExpression].
  rewrite (body_operand _ _ _ b) by (assumption || reflexivity).
  rewrite (loop_operator _ _ _ _ _ _ t2 sym2)
    by (reflexivity || assumption || now rewrite Hpeek2).
  unfold bind. rewrite N6. unfold parseInfixExpr at 1. cbv zeta.
  unfold bind. rewrite N7. rewrite Hcurr2. cbn [parseExpression].
  rewrite (body_operand _ _ _ c) by (assumption || reflexivity).
  rewrite loop_exit by (cbn; rewrite Hge2; reflexivity).
  unfold ret. cbn [currToken].
  rewrite loop_exit by reflexivity.
  unfold expectPeek.
  cbn [peekTokenIs peekToken RightParenToken token.Typ token.TokenType_beq].
  unfold bind. rewrite N8. unfold ret.
  rewrite loop_exit by (cbn; rewrite Hge1; reflexivity).
  cbn [currToken].
  rewrite loop_exit by reflexivity.
  cbn [peekTokenIs peekToken EOFToken token.Typ token.TokenType_beq].
  rewrite N9. cbn [currTokenIs currToken EOFToken token.Typ
                   token.TokenType_beq negb].
  reflexivity.
  reflexivity.
Qed.

Lemma group_left_parse a t1 sym1 b t2 sym2 c :
  operand_ok a = true -> operand_ok b = true -> operand_ok c = true ->
  operator_symbol t1 = Some sym1 -> operator_symbol t2 = Some sym2 ->
  exists p,
    parse (enough_fuel ("(" ++ operand_text a ++ " " ++ sym1 ++ " "
                        ++ operand_text b ++ ") " ++ sym2 ++ " "
                        ++ operand_text c))
      ("(" ++ operand_text a ++ " " ++ sym1 ++ " " ++ operand_text b
       ++ ") " ++ sym2 ++ " " ++ operand_text c)
    = Some ({| ast.Stmts :=
                 [ast.ExpressionStmt LeftParenToken
                    (Some (infix_node t2 sym2
                             (Some (infix_node t1 sym1 (operand_expr a)
                                      (operand_expr b)))
                             (operand_expr c)))] |}, p)
    /\ errors p = [].
Proof.
  intros Ha Hb Hc Hsym1 Hsym2.
  destruct (operator_precedence t1 sym1 Hsym1) as (pr1 & Hpr1 & Hlow1).
  destruct (operator_precedence t2 sym2 Hsym2) as (pr2 & Hpr2 & Hlow2).
  set (o1 := {| token.Literal := sym1; token.Typ := t1 |}).
  set (o2 := {| token.Literal := sym2; token.Typ := t2 |}).
  set (src := "(" ++ operand_text a ++ " " ++ sym1 ++ " " ++ operand_text b
              ++ ") " ++ sym2 ++ " " ++ operand_text c).
  set (s5 := String.String " " (operand_text c)).
  set (s4 := String.String " " (sym2 ++ s5)).
  set (s3 := String.String ")" s4).
  set (s2 := String.String " " (operand_text b ++ s3)).
  set (s1 := String.String " " (sym1 ++ s2)).
  assert (L0 : lexSuffix src = (LeftParenToken, operand_text a ++ s1)).
  { apply lexSuffix_LeftParen. }
  assert (L1 : lexSuffix (operand_text a ++ s1) = (operand_token a, s1)).
  { now apply lexSuffix_operand. }
  assert (L2 : lexSuffix s1 = (o1, s2)).
  { unfold s1. rewrite lexSuffix_space. now apply lexSuffix_operator. }
  assert (L3 : lexSuffix s2 = (operand_token b, s3)).
  { unfold s2. rewrite lexSuffix_space. now apply lexSuffix_operand. }
  assert (L4 : lexSuffix s3 = (RightParenToken, s4)).
  { apply lexSuffix_RightParen. }
  assert (L5 : lexSuffix s4 = (o2, s5)).
  { unfold s4. rewrite lexSuffix_space. now apply lexSuffix_operator. }
  assert (L6 : lexSuffix s5 = (operand_token c, "")).
  { unfold s5. rewrite lexSuffix_space.
    rewrite <- (append_empty_r (operand_text c)) at 1.
    now apply lexSuffix_operand. }
  destruct (nextToken_mk (lexer.New src) token.zeroToken token.zeroToken []
              src _ _ (New_inv src) eq_refl L0) as (l1 & I1 & R1 & N1).
  destruct (nextToken_mk l1 token.zeroToken LeftParenToken []
              _ _ _ I1 R1 L1) as (l2 & I2 & R2 & N2).
  destruct (nextToken_mk l2 LeftParenToken (operand_token a) [] _ _ _
              I2 R2 L2) as (l3 & I3 & R3 & N3).
  destruct (nextToken_mk l3 (operand_token a) o1 [] _ _ _ I3 R3 L3)
    as (l4 & I4 & R4 & N4).
  destruct (nextToken_mk l4 o1 (operand_token b) [] _ _ _ I4 R4 L4)
    as (l5 & I5 & R5 & N5).
  destruct (nextToken_mk l5 (operand_token b) RightParenToken [] _ _ _
              I5 R5 L5) as (l6 & I6 & R6 & N6).
  destruct (nextToken_mk l6 RightParenToken o2 [] _ _ _ I6 R6 L6)
    as (l7 & I7 & R7 & N7).
  destruct (nextToken_mk l7 o2 (operand_token c) [] _ _ _
              I7 R7 lexSuffix_end) as (l8 & I8 & R8 & N8).
  destruct (nextToken_mk l8 (operand_token c) EOFToken [] _ _ _
              I8 R8 lexSuffix_end) as (l9 & I9 & R9 & N9).
  assert (Hpeek1 : forall l cur errs,
            peekPrecedence {| lexer_ := l; currToken := cur; peekToken := o1;
                              errors := errs |} = pr1).
  { intros. unfold peekPrecedence. cbn [peekToken o1 token.Typ].
    now rewrite Hpr1. }
  assert (Hpeek2 : forall l cur errs,
            peekPrecedence {| lexer_ := l; currToken := cur; peekToken := o2;
                              errors := errs |} = pr2).
  { intros. unfold peekPrecedence. cbn [peekToken o2 token.Typ].
    now rewrite Hpr2. }
  assert (Hcurr1 : forall l peek errs,
            currPrecedence {| lexer_ := l; currToken := o1; peekToken := peek;
                              errors := errs |} = pr1).
  { intros. unfold currPrecedence. cbn [currToken o1 token.Typ].
    now rewrite Hpr1. }
  assert (Hcurr2 : forall l peek errs,
            currPrecedence {| lexer_ := l; currToken := o2; peekToken := peek;
                              errors := errs |} = pr2).
  { intros. unfold currPrecedence. cbn [currToken o2 token.Typ].
    now rewrite Hpr2. }
  assert (Hlt1 : (LOWEST <? pr1)%Z = true) by now apply Z.ltb_lt.
  assert (Hlt2 : (LOWEST <? pr2)%Z = true) by now apply Z.ltb_lt.
  assert (Hge1 : (pr1 <? LOWEST)%Z = false) by (apply Z.ltb_ge; lia).
  assert (Hge2 : (pr2 <? LOWEST)%Z = false) by (apply Z.ltb_ge; lia).
  eexists. split.
  replace (enough_fuel src) with (S (S (S (S (S (2 * String.length src))))))
    by (unfold enough_fuel; lia).
  generalize (2 * String.length src). intros n.
  unfold parse, New, bind. rewrite N1, N2. cbn [obind snd].
  unfold ParseProgram, bind.
  cbn [ParseProgram_loop]. unfold currTokenIs at 1.
  cbn [currToken LeftParenToken token.Typ token.TokenType_beq negb].
  unfold bind, parseStatement, parseExpressionStmt. cbv zeta.
  unfold bind. cbn [parseExpression].
  rewrite body_group by reflexivity.
  unfold bind. unfold parseGroupedExpr at 1.
  unfold bind. rewrite N3. cbn [parseExpression].
  rewrite (body_operand _ _ _ a) by (assumption || reflexivity).
  rewrite (loop_operator _ _ _ _ _ _ t1 sym1)
    by (reflexivity || assumption || now rewrite Hpeek1).
  unfold bind. rewrite N4. unfold parseInfixExpr at 1. cbv zeta.
  unfold bind. rewrite N5. rewrite Hcurr1. cbn [parseExpression].
  rewrite (body_operand _ _ _ b) by (assumption || reflexivity).
  rewrite loop_exit by (cbn; rewrite Hge1; reflexivity).
  unfold ret. cbn [currToken].
  rewrite loop_exit by reflexivity.
  unfold expectPeek.
  cbn [peekTokenIs peekToken RightParenToken token.Typ token.TokenType_beq].
  unfold bind. rewrite N6. unfold ret.
  rewrite (loop_operator _ _ _ _ _ _ t2 sym2)
    by (reflexivity || assumption || now rewrite Hpeek2).
  unfold bind. rewrite N7. unfold parseInfixExpr at 1. cbv zeta.
  unfold bind. rewrite N8. rewrite Hcurr2. cbn [parseExpression].
  rewrite (body_operand _ _ _ c) by (assumption || reflexivity).
  rewrite loop_exit by (cbn; rewrite Hge2; reflexivity).
  unfold ret. cbn [currToken].
  rewrite loop_exit by reflexivity.
  cbn [peekTokenIs peekToken EOFToken token.Typ token.TokenType_beq].
  rewrite N9. cbn [currTokenIs currToken EOFToken token.Typ
                   token.TokenType_beq negb].
  reflexivity.
  reflexivity.
Qed.

(** X12. Parentheses decide the grouping, whatever the precedences of the
    operators, and leave no node of their own in the tree.  For
    single-token operands and any two binary operators, [a op1 (b op2 c)]
    parses to the tree (a op1 (b op2 c)) and [(a op1 b) op2 c] to the tree
    ((a op1 b) op2 c), both without a diagnostic. *)
Theorem parentheses_decide_grouping (a b c : operand)
  (t1 t2 : token.TokenType) (sym1 sym2 : string) :
  operand_ok a = true -> operand_ok b = true -> operand_ok c = true ->
  operator_symbol t1 = Some sym1 -> operator_symbol t2 = Some sym2 ->
  (parsed (operand_text a ++ " " ++ sym1 ++ " (" ++ operand_text b
           ++ " " ++ sym2 ++ " " ++ operand_text c ++ ")")
   = Some ([ast.ExpressionStmt (operand_token a)
              (Some (infix_node t1 sym1 (operand_expr a)
                       (Some (infix_node t2 sym2 (operand_expr b)
                                (operand_expr c)))))], [])
   /\ render (operand_text a ++ " " ++ sym1 ++ " (" ++ operand_text b
              ++ " " ++ sym2 ++ " " ++ operand_text c ++ ")")
      = Some (Some (infix_text (operand_text a) sym1
                      (infix_text (operand_text b) sym2 (operand_text c))),
              []))
  /\ (parsed ("(" ++ operand_text a ++ " " ++ sym1 ++ " " ++ operand_text b
              ++ ") " ++ sym2 ++ " " ++ operand_text c)
      = Some ([ast.ExpressionStmt LeftParenToken
                 (Some (infix_node t2 sym2
                          (Some (infix_node t1 sym1 (operand_expr a)
                                   (operand_expr b)))
                          (operand_expr c)))], [])
      /\ render ("(" ++ operand_text a ++ " " ++ sym1 ++ " "
                 ++ operand_text b ++ ") " ++ sym2 ++ " " ++ operand_text c)
         = Some (Some (infix_text
                         (infix_text (operand_text a) sym1 (operand_text b))
                         sym2 (operand_text c)), [])).
Proof.
  intros Ha Hb Hc Hsym1 Hsym2. split.
  - destruct (group_right_parse a t1 sym1 b t2 sym2 c Ha Hb Hc Hsym1 Hsym2)
      as (p & Hparse & Herr).
    apply (render_one_statement _ _ _ p); [exact Hparse | exact Herr |].
    repeat first [ apply oString_infix_node | now apply oString_operand ].
  - destruct (group_left_parse a t1 sym1 b t2 sym2 c Ha Hb Hc Hsym1 Hsym2)
      as (p & Hparse & Herr).
    apply (render_one_statement _ _ _ p); [exact Hparse | exact Herr |].
    repeat first [ apply oString_infix_node | now apply oString_operand ].
Qed.

(** A product of a sum, and a sum inside a product. *)
Lemma parentheses_decide_grouping_witness :
  (parsed "a * (b + c)"
   = Some ([ast.ExpressionStmt (operand_token (Ident "a"))
              (Some (infix_node token.Star "*" (operand_expr (Ident "a"))
                       (Some (infix_node token.Plus "+"
                                (operand_expr (Ident "b"))
                                (operand_expr (Ident "c"))))))], [])
   /\ render "a * (b + c)" = Some (Some "(a * (b + c))", []))
  /\ (parsed "(a * b) + c"
      = Some ([ast.ExpressionStmt LeftParenToken
                 (Some (infix_node token.Plus "+"
                          (Some (infix_node token.Star "*"
                                   (operand_expr (Ident "a"))
                                   (operand_expr (Ident "b"))))
                          (operand_expr (Ident "c"))))], [])
      /\ render "(a * b) + c" = Some (Some "((a * b) + c)", [])).
Proof.
  apply (parentheses_decide_grouping (Ident "a") (Ident "b") (Ident "c")
           token.Star token.Plus "*" "+"); reflexivity.
Defined.

End Parentheses.


(** * Steps of the loop of [parseExpression] *)

Section LoopSteps.

Import lexer parser.

Lemma parseExpression_S n prec p :
  parseExpression (S n) prec p
  = parseExpression_body (parseExpression n) n prec p.
Proof. reflexivity. Qed.

Lemma loop_call rec n m prec left p :
  token.Typ (peekToken p) = token.LeftParen -> (prec <? CALL)%Z = true ->
  parseExpression_loop rec n (S m) prec left p
  = (nextToken ;;
     left' <~ parseCallExpr rec n left ;;
     parseExpression_loop rec n m prec left') p.
Proof.
  intros Ht Hprec. cbn [parseExpression_loop].
  unfold peekTokenIs, peekPrecedence. rewrite Ht.
  cbn [token.TokenType_beq negb andb precedences infixParseFns].
  now rewrite Hprec.
Qed.

End LoopSteps.


(** * Malformed input *)

Section MalformedInput.

Import lexer parser.

Lemma nextToken_any l s t s' :
  lexer_inv l -> rest_of l = s -> lexSuffix s = (t, s') ->
  exists l',
    lexer_inv l' /\ rest_of l' = s'
    /\ forall cur peek errs,
         nextToken {| lexer_ := l; currToken := cur; peekToken := peek;
                      errors := errs |}
         = Some (tt, {| lexer_ := l'; currToken := peek; peekToken := t;
                        errors := errs |}).
Proof.
  intros Hinv Hrest Hlex.
  destruct (NextToken_refines _ Hinv) as (l' & Hn & Hinv' & Hrest').
  rewrite Hrest, Hlex in Hn, Hrest'. cbn [fst snd] in Hn, Hrest'.
  exists l'. split; [assumption|]. split; [assumption|].
  intros. unfold nextToken. cbn [lexer_]. now rewrite Hn.
Qed.

Lemma body_none rec n prec p :
  starts_expression (token.Typ (currToken p)) = false ->
  parseExpression_body rec n prec p
  = (noPrefixParseFnError (token.Typ (currToken p)) ;; ret None) p.
Proof.
  intros H. unfold parseExpression_body.
  destruct (token.Typ (currToken p)); try discriminate; reflexivity.
Qed.

Lemma render_nil_statement src tok p ds :
  parse (enough_fuel src) src
  = Some ({| ast.Stmts := [ast.ExpressionStmt tok None] |}, p) ->
  errors p = ds ->
  parsed src = Some ([ast.ExpressionStmt tok None], ds)
  /\ render src = Some (Some "", ds).
Proof.
  intros Hparse Herr. unfold parsed, render, parse_render.
  rewrite Hparse. cbn [obind fst snd ast.Stmts]. unfold Errors.
  rewrite Herr. split; reflexivity.
Qed.

Lemma lexSuffix_number x :
  utils.IsNumeric (hd x) = true -> string_forall isNumberChar x = true ->
  lexSuffix x = ({| token.Literal := x; token.Typ := token.Number |}, "").
Proof.
  intros Hhd Hall.
  rewrite (lexSuffix_numeric x Hhd).
  pose proof (span_exact isNumberChar x "" Hall eq_refl) as Hspan.
  rewrite append_empty_r in Hspan. now rewrite Hspan.
Qed.

(** X13. A number token that [ParseFloat] rejects yields a statement
    without expression and the diagnostic of [parseNumberLiteral], which
    quotes the text of the token.  Such tokens exist: the lexer takes any
    run of digits and dots that starts with a digit as one number. *)
Theorem malformed_number (x : string) :
  utils.IsNumeric (hd x) = true -> string_forall isNumberChar x = true ->
  strconv.ParseFloat x = None ->
  parsed x
  = Some ([ast.ExpressionStmt
             {| token.Literal := x; token.Typ := token.Number |} None],
          ["could not parse " ++ quoted x ++ " as integer"])
  /\ render x
     = Some (Some "", ["could not parse " ++ quoted x ++ " as integer"]).
Proof.
  intros Hhd Hall Hbad.
  pose proof (lexSuffix_number x Hhd Hall) as L0.
  destruct (nextToken_any (lexer.New x) x _ _ (New_inv x) eq_refl L0)
    as (l1 & I1 & R1 & N1).
  destruct (nextToken_any l1 _ _ _ I1 R1 lexSuffix_end)
    as (l2 & I2 & R2 & N2).
  destruct (nextToken_any l2 _ _ _ I2 R2 lexSuffix_end)
    as (l3 & I3 & R3 & N3).
  eapply render_nil_statement.
  - replace (enough_fuel x)
      with (S (S (S (S (S (2 * String.length x))))))
      by (unfold enough_fuel; lia).
    generalize (2 * String.length x). intros n.
    unfold parse, New, bind. rewrite N1, N2. cbn [obind snd].
    unfold ParseProgram, bind.
    cbn [ParseProgram_loop]. unfold currTokenIs at 1.
    cbn [currToken token.Typ token.TokenType_beq negb].
    unfold bind, parseStatement, parseExpressionStmt. cbv zeta.
    unfold bind. rewrite parseExpression_S.
    unfold parseExpression_body.
    cbn [currToken token.Typ prefixParseFns].
    unfold bind, parseNumberLiteral.
    cbn [currToken token.Literal]. rewrite Hbad.
    unfold bind, appendError, ret.
    cbn [lexer_ currToken peekToken errors app].
    rewrite loop_exit by reflexivity.
    cbn [peekTokenIs peekToken EOFToken token.Typ token.TokenType_beq].
    rewrite N3. cbn [currTokenIs currToken EOFToken token.Typ
                     token.TokenType_beq negb].
    reflexivity.
  - reflexivity.
Qed.

Lemma malformed_number_witness :
  parsed "1.2.3"
  = Some ([ast.ExpressionStmt
             {| token.Literal := "1.2.3"; token.Typ := token.Number |} None],
          ["could not parse " ++ quoted "1.2.3" ++ " as integer"])
  /\ render "1.2.3"
     = Some (Some "", ["could not parse " ++ quoted "1.2.3" ++ " as integer"]).
Proof.
  apply (malformed_number "1.2.3"); reflexivity.
Defined.

Lemma lexSuffix_last_operand o :
  operand_ok o = true -> lexSuffix (operand_text o) = (operand_token o, "").
Proof.
  intros Hok. rewrite <- (append_empty_r (operand_text o)) at 1.
  now apply lexSuffix_operand.
Qed.

Lemma unclosed_group_parse a :
  operand_ok a = true ->
  exists p,
    parse (enough_fuel ("(" ++ operand_text a)) ("(" ++ operand_text a)
    = Some ({| ast.Stmts := [ast.ExpressionStmt LeftParenToken None] |}, p)
    /\ errors p
       = ["Honk! expected next token to be RightParen, got EOF instead"].
Proof.
  intros Ha.
  set (src := "(" ++ operand_text a).
  destruct (nextToken_any (lexer.New src) src _ _ (New_inv src) eq_refl
              (lexSuffix_LeftParen _)) as (l1 & I1 & R1 & N1).
  destruct (nextToken_any l1 _ _ _ I1 R1 (lexSuffix_last_operand a Ha))
    as (l2 & I2 & R2 & N2).
  destruct (nextToken_any l2 _ _ _ I2 R2 lexSuffix_end)
    as (l3 & I3 & R3 & N3).
  destruct (nextToken_any l3 _ _ _ I3 R3 lexSuffix_end)
    as (l4 & I4 & R4 & N4).
  eexists. split.
  replace (enough_fuel src) with (S (S (S (S (S (2 * String.length src))))))
    by (unfold enough_fuel; lia).
  generalize (2 * String.length src). intros n.
  unfold parse, New, bind. rewrite N1, N2. cbn [obind snd].
  unfold ParseProgram, bind.
  cbn [ParseProgram_loop]. unfold currTokenIs at 1.
  cbn [currToken LeftParenToken token.Typ token.TokenType_beq negb].
  unfold bind, parseStatement, parseExpressionStmt. cbv zeta.
  unfold bind. rewrite parseExpression_S.
  rewrite body_group by reflexivity.
  unfold bind. unfold parseGroupedExpr at 1.
  unfold bind. rewrite N3. rewrite parseExpression_S.
  rewrite (body_operand _ _ _ a) by (assumption || reflexivity).
  rewrite loop_exit by reflexivity.
  unfold expectPeek.
  cbn [peekTokenIs peekToken EOFToken token.Typ token.TokenType_beq].
  unfold bind, peekError, appendError, ret.
  cbn [lexer_ currToken peekToken errors app EOFToken token.Typ].
  rewrite loop_exit by reflexivity.
  cbn [peekTokenIs peekToken EOFToken token.Typ token.TokenType_beq].
  rewrite N4. cbn [currTokenIs currToken EOFToken token.Typ
                   token.TokenType_beq negb].
  reflexivity.
  reflexivity.
Qed.

Lemma unclosed_call_parse f a :
  operand_ok f = true -> operand_ok a = true ->
  exists p,
    parse (enough_fuel (operand_text f ++ "(" ++ operand_text a))
      (operand_text f ++ "(" ++ operand_text a)
    = Some ({| ast.Stmts :=
                 [ast.ExpressionStmt (operand_token f)
                    (Some (ast.CallExpr LeftParenToken (operand_expr f)
                             None))] |}, p)
    /\ errors p
       = ["Honk! expected next token to be RightParen, got EOF instead"].
Proof.
  intros Hf Ha.
  set (src := operand_text f ++ "(" ++ operand_text a).
  assert (L0 : lexSuffix src
               = (operand_token f, String.String "(" (operand_text a))).
  { now apply lexSuffix_operand. }
  destruct (nextToken_any (lexer.New src) src _ _ (New_inv src) eq_refl L0)
    as (l1 & I1 & R1 & N1).
  destruct (nextToken_any l1 _ _ _ I1 R1 (lexSuffix_LeftParen _))
    as (l2 & I2 & R2 & N2).
  destruct (nextToken_any l2 _ _ _ I2 R2 (lexSuffix_last_operand a Ha))
    as (l3 & I3 & R3 & N3).
  destruct (nextToken_any l3 _ _ _ I3 R3 lexSuffix_end)
    as (l4 & I4 & R4 & N4).
  destruct (nextToken_any l4 _ _ _ I4 R4 lexSuffix_end)
    as (l5 & I5 & R5 & N5).
  eexists. split.
  replace (enough_fuel src) with (S (S (S (S (S (2 * String.length src))))))
    by (unfold enough_fuel; lia).
  generalize (2 * String.length src). intros n.
  unfold parse, New, bind. rewrite N1, N2. cbn [obind snd].
  unfold ParseProgram, bind.
  cbn [ParseProgram_loop]. unfold currTokenIs at 1. cbn [currToken].
  rewrite operand_not_EOF. cbn [negb].
  unfold bind, parseStatement, parseExpressionStmt. cbv zeta.
  unfold bind. rewrite parseExpression_S.
  rewrite (body_operand _ _ _ f) by (assumption || reflexivity).
  rewrite loop_call by reflexivity.
  unfold bind. rewrite N3. unfold parseCallExpr at 1. cbv zeta.
  unfold bind. unfold parseExpressionList at 1.
  replace (peekTokenIs token.RightParen
             {| lexer_ := l3; currToken := LeftParenToken;
                peekToken := operand_token a; errors := [] |})
    with false by (destruct a; reflexivity).
  unfold bind. rewrite N4. rewrite parseExpression_S.
  rewrite (body_operand _ _ _ a) by (assumption || reflexivity).
  rewrite loop_exit by reflexivity.
  cbn [parseExpressionList_loop].
  cbn [peekTokenIs peekToken EOFToken token.Typ token.TokenType_beq].
  unfold expectPeek.
  cbn [peekTokenIs peekToken EOFToken token.Typ token.TokenType_beq].
  unfold bind, peekError, appendError, ret.
  cbn [lexer_ currToken peekToken errors app EOFToken token.Typ].
  rewrite loop_exit by reflexivity.
  cbn [peekTokenIs peekToken EOFToken token.Typ token.TokenType_beq].
  rewrite N5. cbn [currTokenIs currToken EOFToken token.Typ
                   token.TokenType_beq negb].
  reflexivity.
  reflexivity.
Qed.

(** X14. A missing closing parenthesis is reported once, and what was
    parsed behind the opening one is dropped.  For single-token operands,
    the text [(a] yields a statement without expression, and the text
    [f(a] a call of [f] with a nil argument list, which renders as a
    call without arguments; both with the one diagnostic of
    [expectPeek]. *)
Theorem missing_right_paren (f a : operand) :
  operand_ok f = true -> operand_ok a = true ->
  (parsed ("(" ++ operand_text a)
   = Some ([ast.ExpressionStmt LeftParenToken None],
           ["Honk! expected next token to be RightParen, got EOF instead"])
   /\ render ("(" ++ operand_text a)
      = Some (Some "",
              ["Honk! expected next token to be RightParen, got EOF instead"]))
  /\ (parsed (operand_text f ++ "(" ++ operand_text a)
      = Some ([ast.ExpressionStmt (operand_token f)
                 (Some (ast.CallExpr LeftParenToken (operand_expr f) None))],
              ["Honk! expected next token to be RightParen, got EOF instead"])
      /\ render (operand_text f ++ "(" ++ operand_text a)
         = Some (Some (operand_text f ++ "()"),
                 ["Honk! expected next token to be RightParen, got EOF instead"])).
Proof.
  intros Hf Ha. split.
  - destruct (unclosed_group_parse a Ha) as (p & Hparse & Herr).
    exact (render_nil_statement _ _ p _ Hparse Herr).
  - destruct (unclosed_call_parse f a Hf Ha) as (p & Hparse & Herr).
    unfold parsed, render, parse_render.
    rewrite Hparse. cbn [obind fst snd ast.Stmts]. unfold Errors.
    rewrite Herr. split; [reflexivity|].
    unfold ast.Program_String.
    cbn [ast.Stmts ast.Stmts_String ast.Stmt_String].
    rewrite Expr_String_CallExpr. rewrite (oString_operand f Hf).
    cbn [obind String.concat]. now rewrite append_empty_r.
Qed.

Lemma missing_right_paren_witness :
  (parsed "(x"
   = Some ([ast.ExpressionStmt LeftParenToken None],
           ["Honk! expected next token to be RightParen, got EOF instead"])
   /\ render "(x"
      = Some (Some "",
              ["Honk! expected next token to be RightParen, got EOF instead"]))
  /\ (parsed "f(x"
      = Some ([ast.ExpressionStmt (operand_token (Ident "f"))
                 (Some (ast.CallExpr LeftParenToken
                          (operand_expr (Ident "f")) None))],
              ["Honk! expected next token to be RightParen, got EOF instead"])
      /\ render "f(x"
         = Some (Some "f()",
                 ["Honk! expected next token to be RightParen, got EOF instead"])).
Proof.
  apply (missing_right_paren (Ident "f") (Ident "x")); reflexivity.
Defined.

End MalformedInput.


(** * The parse is a function of the tokens *)

Section TokenView.

Import lexer parser.

Lemma same_tokens_step l1 l2 :
  same_tokens l1 l2 ->
  match NextToken l1, NextToken l2 with
  | Some (t1, l1'), Some (t2, l2') => t1 = t2 /\ same_tokens l1' l2'
  | None, None => True
  | _, _ => False
  end.
Proof.
  intros H.
  destruct (NextToken l1) as [[t1 l1']|] eqn:E1,
           (NextToken l2) as [[t2 l2']|] eqn:E2.
  - split.
    + specialize (H 1). cbn [next_tokens] in H. rewrite E1, E2 in H.
      cbn in H. congruence.
    + intros n. specialize (H (S n)). cbn [next_tokens] in H.
      rewrite E1, E2 in H. cbn [obind fst snd] in H.
      destruct (next_tokens n l1'), (next_tokens n l2'); cbn [obind] in H;
        congruence.
  - specialize (H 1). cbn [next_tokens] in H. rewrite E1, E2 in H.
    discriminate.
  - specialize (H 1). cbn [next_tokens] in H. rewrite E1, E2 in H.
    discriminate.
  - exact I.
Qed.

Lemma same_tokens_cons l1 l2 t l1' l2' :
  NextToken l1 = Some (t, l1') -> NextToken l2 = Some (t, l2') ->
  same_tokens l1' l2' -> same_tokens l1 l2.
Proof.
  intros E1 E2 H [|n]; [reflexivity|]. cbn [next_tokens].
  rewrite E1, E2. cbn [obind fst snd]. now rewrite (H n).
Qed.

(** Lexers left on the same text, up to whitespace at its head, return
    the same tokens. *)
Lemma same_rest_same_tokens : forall l1 l2 ws,
  lexer_inv l1 -> lexer_inv l2 -> string_forall isSpace ws = true ->
  rest_of l1 = ws ++ rest_of l2 -> same_tokens l1 l2.
Proof.
  intros l1 l2 ws I1 I2 Hws Hrest n. revert l1 l2 ws I1 I2 Hws Hrest.
  induction n as [|n IH]; intros l1 l2 ws I1 I2 Hws Hrest; [reflexivity|].
  destruct (NextToken_refines l1 I1) as (l1' & Hn1 & I1' & Hr1).
  destruct (NextToken_refines l2 I2) as (l2' & Hn2 & I2' & Hr2).
  rewrite Hrest, (lexSuffix_spaces _ _ Hws) in Hn1, Hr1.
  cbn [next_tokens]. rewrite Hn1, Hn2. cbn [obind fst snd].
  rewrite (IH l1' l2' "" I1' I2' eq_refl); [reflexivity|].
  cbn [append]. congruence.
Qed.

Lemma agree_ret {A : Type} (a : A) p q :
  alike p q -> agree (ret a p) (ret a q) p q.
Proof.
  intros H. cbn. split; [reflexivity|]. split; [assumption|].
  exists []. now rewrite !app_nil_r.
Qed.

Lemma agree_bind {A B : Type} (m1 m2 : M A) (k1 k2 : A -> M B) p q :
  agree (m1 p) (m2 q) p q ->
  (forall a p' q', alike p' q' -> agree (k1 a p') (k2 a q') p' q') ->
  agree (bind m1 k1 p) (bind m2 k2 q) p q.
Proof.
  intros Hm Hk. unfold bind, agree in *.
  destruct (m1 p) as [[a p1]|], (m2 q) as [[b q1]|]; try contradiction;
    [|exact I].
  destruct Hm as (<- & Hal & ds1 & Hp1 & Hq1).
  specialize (Hk a p1 q1 Hal).
  destruct (k1 a p1) as [[x p2]|], (k2 a q1) as [[y q2]|];
    try contradiction; [|exact I].
  destruct Hk as (<- & Hal2 & ds2 & Hp2 & Hq2).
  split; [reflexivity|]. split; [assumption|].
  exists (ds1 ++ ds2)%list.
  rewrite Hp2, Hq2, Hp1, Hq1, !app_assoc. auto.
Qed.

Lemma agree_nextToken p q :
  alike p q -> agree (nextToken p) (nextToken q) p q.
Proof.
  intros (Hc & Hk & Ht). unfold nextToken.
  pose proof (same_tokens_step _ _ Ht) as Hs.
  destruct (NextToken (lexer_ p)) as [[t1 l1]|],
           (NextToken (lexer_ q)) as [[t2 l2]|]; try contradiction;
    [|exact I].
  destruct Hs as (<- & Ht'). cbn [obind fst snd agree].
  split; [reflexivity|]. split.
  - repeat split; cbn; assumption.
  - exists []. cbn [errors]. now rewrite !app_nil_r.
Qed.

Lemma agree_appendError msg p q :
  alike p q -> agree (appendError msg p) (appendError msg q) p q.
Proof.
  intros (Hc & Hk & Ht). cbn. split; [reflexivity|]. split.
  - repeat split; assumption.
  - exists [msg]. auto.
Qed.

Lemma agree_expectPeek t p q :
  alike p q -> agree (expectPeek t p) (expectPeek t q) p q.
Proof.
  intros H. pose proof H as (Hc & Hk & Ht).
  unfold expectPeek, peekTokenIs. rewrite <- Hk.
  destruct (token.TokenType_beq (token.Typ (peekToken p)) t).
  - apply agree_bind; [now apply agree_nextToken|].
    intros _ p' q' H'. now apply agree_ret.
  - apply agree_bind.
    + unfold peekError. rewrite <- Hk. now apply agree_appendError.
    + intros _ p' q' H'. now apply agree_ret.
Qed.

Section Callbacks.

Variable rec : Precedence -> M (option ast.Expr).
Variable n : nat.
Hypothesis Hrec : forall prec p q,
  alike p q -> agree (rec prec p) (rec prec q) p q.

Lemma agree_parsePrefixExpr p q :
  alike p q -> agree (parsePrefixExpr rec p) (parsePrefixExpr rec q) p q.
Proof.
  intros H. pose proof H as (Hc & Hk & Ht).
  unfold parsePrefixExpr. cbv zeta. rewrite <- Hc.
  apply agree_bind; [now apply agree_nextToken|]. intros _ p1 q1 H1.
  apply agree_bind; [now apply Hrec|]. intros e p2 q2 H2.
  now apply agree_ret.
Qed.

Lemma agree_parseInfixExpr left p q :
  alike p q ->
  agree (parseInfixExpr rec left p) (parseInfixExpr rec left q) p q.
Proof.
  intros H. pose proof H as (Hc & Hk & Ht).
  unfold parseInfixExpr, currPrecedence. cbv zeta. rewrite <- Hc.
  apply agree_bind; [now apply agree_nextToken|]. intros _ p1 q1 H1.
  apply agree_bind; [now apply Hrec|]. intros e p2 q2 H2.
  now apply agree_ret.
Qed.

Lemma agree_parseGroupedExpr p q :
  alike p q -> agree (parseGroupedExpr rec p) (parseGroupedExpr rec q) p q.
Proof.
  intros H. unfold parseGroupedExpr.
  apply agree_bind; [now apply agree_nextToken|]. intros _ p1 q1 H1.
  apply agree_bind; [now apply Hrec|]. intros e p2 q2 H2.
  apply agree_bind; [now apply agree_expectPeek|]. intros ok p3 q3 H3.
  destruct ok; now apply agree_ret.
Qed.

Lemma agree_parseExpressionList_loop :
  forall m items p q,
    alike p q ->
    agree (parseExpressionList_loop rec m items p)
          (parseExpressionList_loop rec m items q) p q.
Proof.
  induction m as [|m IH]; intros items p q H; [exact I|].
  pose proof H as (Hc & Hk & Ht).
  cbn [parseExpressionList_loop]. unfold peekTokenIs. rewrite <- Hk.
  destruct (token.TokenType_beq (token.Typ (peekToken p)) token.Comma).
  - apply agree_bind; [now apply agree_nextToken|]. intros _ p1 q1 H1.
    apply agree_bind; [now apply agree_nextToken|]. intros _ p2 q2 H2.
    apply agree_bind; [now apply Hrec|]. intros e p3 q3 H3.
    now apply IH.
  - now apply (agree_ret items).
Qed.

Lemma agree_parseExpressionList end_ p q :
  alike p q ->
  agree (parseExpressionList rec n end_ p) (parseExpressionList rec n end_ q)
        p q.
Proof.
  intros H. pose proof H as (Hc & Hk & Ht).
  unfold parseExpressionList, peekTokenIs. rewrite <- Hk.
  destruct (token.TokenType_beq (token.Typ (peekToken p)) end_).
  - apply agree_bind; [now apply agree_nextToken|]. intros _ p1 q1 H1.
    now apply agree_ret.
  - apply agree_bind; [now apply agree_nextToken|]. intros _ p1 q1 H1.
    apply agree_bind; [now apply Hrec|]. intros e p2 q2 H2.
    apply agree_bind; [now apply agree_parseExpressionList_loop|].
    intros items p3 q3 H3.
    apply agree_bind; [now apply agree_expectPeek|]. intros ok p4 q4 H4.
    destruct ok; now apply agree_ret.
Qed.

Lemma agree_parseCallExpr function p q :
  alike p q ->
  agree (parseCallExpr rec n function p) (parseCallExpr rec n function q)
        p q.
Proof.
  intros H. pose proof H as (Hc & Hk & Ht).
  unfold parseCallExpr. cbv zeta. rewrite <- Hc.
  apply agree_bind; [now apply agree_parseExpressionList|].
  intros args p1 q1 H1. now apply agree_ret.
Qed.

Lemma agree_parseExpression_loop precedence :
  forall m left p q,
    alike p q ->
    agree (parseExpression_loop rec n m precedence left p)
          (parseExpression_loop rec n m precedence left q) p q.
Proof.
  induction m as [|m IH]; intros left p q H; [exact I|].
  pose proof H as (Hc & Hk & Ht).
  cbn [parseExpression_loop]. unfold peekTokenIs, peekPrecedence.
  rewrite <- Hk.
  match goal with
  | |- agree (if ?c then _ else _) _ _ _ => destruct c
  end; [|now apply (agree_ret left)].
  assert (Hstep : forall infix,
            (forall l p' q', alike p' q' ->
               agree (infix l p') (infix l q') p' q') ->
            agree ((nextToken ;;
                    left' <~ infix left ;;
                    parseExpression_loop rec n m precedence left') p)
                  ((nextToken ;;
                    left' <~ infix left ;;
                    parseExpression_loop rec n m precedence left') q) p q).
  { intros infix Hinfix.
    apply agree_bind; [now apply agree_nextToken|]. intros _ p1 q1 H1.
    apply agree_bind; [now apply Hinfix|]. intros e p2 q2 H2.
    now apply IH. }
  destruct (token.Typ (peekToken p)); cbn [infixParseFns];
    first [ now apply (agree_ret left)
          | apply Hstep; intros; now apply agree_parseInfixExpr
          | apply Hstep; intros; now apply agree_parseCallExpr ].
Qed.

Lemma agree_parseExpression_body precedence p q :
  alike p q ->
  agree (parseExpression_body rec n precedence p)
        (parseExpression_body rec n precedence q) p q.
Proof.
  intros H. pose proof H as (Hc & Hk & Ht).
  unfold parseExpression_body. rewrite <- Hc.
  assert (Hstep : forall prefix : M (option ast.Expr),
            agree (prefix p) (prefix q) p q ->
            agree ((left <~ prefix ;;
                    parseExpression_loop rec n n precedence left) p)
                  ((left <~ prefix ;;
                    parseExpression_loop rec n n precedence left) q) p q).
  { intros prefix Hp. apply agree_bind; [exact Hp|].
    intros e p1 q1 H1. now apply agree_parseExpression_loop. }
  destruct (token.Typ (currToken p)) eqn:Ety; cbn [prefixParseFns];
    try (apply agree_bind;
         [unfold noPrefixParseFnError; now apply agree_appendError|];
         intros _ p1 q1 H1; now apply agree_ret);
    apply Hstep.
  - (* Identifier *)
    unfold parseIdentifier. rewrite <- Hc. now apply agree_ret.
  - (* Number *)
    unfold parseNumberLiteral. rewrite <- Hc.
    destruct (strconv.ParseFloat (token.Literal (currToken p))).
    + now apply agree_ret.
    + apply agree_bind; [now apply agree_appendError|].
      intros _ p1 q1 H1. now apply agree_ret.
  - now apply agree_parseGroupedExpr.
  - now apply agree_parsePrefixExpr.
  - now apply agree_parsePrefixExpr.
Qed.

End Callbacks.

Lemma agree_parseExpression :
  forall n prec p q,
    alike p q -> agree (parseExpression n prec p) (parseExpression n prec q)
                   p q.
Proof.
  induction n as [|n IH]; intros prec p q H; [exact I|].
  cbn [parseExpression]. now apply agree_parseExpression_body.
Qed.

Lemma agree_parseStatement fuel p q :
  alike p q -> agree (parseStatement fuel p) (parseStatement fuel q) p q.
Proof.
  intros H. pose proof H as (Hc & Hk & Ht).
  unfold parseStatement, parseExpressionStmt. cbv zeta. rewrite <- Hc.
  apply agree_bind; [now apply agree_parseExpression|].
  intros e p1 q1 H1. pose proof H1 as (Hc1 & Hk1 & Ht1).
  unfold peekTokenIs. rewrite <- Hk1.
  destruct (token.TokenType_beq (token.Typ (peekToken p1)) token.Semicolon).
  - apply agree_bind; [now apply agree_nextToken|]. intros _ p2 q2 H2.
    now apply agree_ret.
  - now apply (agree_ret (ast.ExpressionStmt (currToken p) e)).
Qed.

Lemma agree_ParseProgram_loop fuel :
  forall n stmts p q,
    alike p q ->
    agree (ParseProgram_loop n fuel stmts p)
          (ParseProgram_loop n fuel stmts q) p q.
Proof.
  induction n as [|n IH]; intros stmts p q H; [exact I|].
  pose proof H as (Hc & Hk & Ht).
  cbn [ParseProgram_loop]. unfold currTokenIs. rewrite <- Hc.
  destruct (negb (token.TokenType_beq (token.Typ (currToken p)) token.EOF)).
  - apply agree_bind; [now apply agree_parseStatement|]. intros s p1 q1 H1.
    apply agree_bind; [now apply agree_nextToken|]. intros _ p2 q2 H2.
    now apply IH.
  - now apply (agree_ret stmts).
Qed.

Lemma agree_ParseProgram fuel p q :
  alike p q -> agree (ParseProgram fuel p) (ParseProgram fuel q) p q.
Proof.
  intros H. unfold ParseProgram.
  apply agree_bind; [now apply agree_ParseProgram_loop|].
  intros stmts p1 q1 H1. now apply agree_ret.
Qed.

Lemma agree_parse fuel l1 l2 :
  same_tokens l1 l2 ->
  match (p <- New l1 ;; ParseProgram fuel p),
        (q <- New l2 ;; ParseProgram fuel q) with
  | Some (prog1, p'), Some (prog2, q') =>
      prog1 = prog2 /\ errors p' = errors q'
  | None, None => True
  | _, _ => False
  end.
Proof.
  intros Ht. unfold New.
  set (p0 := {| lexer_ := l1; currToken := token.zeroToken;
                peekToken := token.zeroToken; errors := [] |}).
  set (q0 := {| lexer_ := l2; currToken := token.zeroToken;
                peekToken := token.zeroToken; errors := [] |}).
  assert (H0 : alike p0 q0) by (repeat split; exact Ht).
  assert (Hnew : agree ((nextToken ;; nextToken) p0)
                       ((nextToken ;; nextToken) q0) p0 q0).
  { apply agree_bind; [now apply agree_nextToken|]. intros _ p1 q1 H1.
    now apply agree_nextToken. }
  unfold agree in Hnew.
  destruct ((nextToken ;; nextToken) p0) as [[[] p2]|],
           ((nextToken ;; nextToken) q0) as [[[] q2]|];
    try contradiction; [|exact I].
  destruct Hnew as (_ & H2 & ds & Hp2 & Hq2). cbn [obind snd].
  pose proof (agree_ParseProgram fuel p2 q2 H2) as Hrun. unfold agree in Hrun.
  destruct (ParseProgram fuel p2) as [[prog1 p3]|],
           (ParseProgram fuel q2) as [[prog2 q3]|];
    try contradiction; [|exact I].
  destruct Hrun as (-> & _ & ds' & Hp3 & Hq3). split; [reflexivity|].
  rewrite Hp3, Hq3, Hp2, Hq2. reflexivity.
Qed.

(** X15. The parse is a function of the tokens.  Two source texts on which
    the lexer returns the same tokens, call after call, give the same
    program, the same diagnostics and the same rendering: layout that the
    lexer does not turn into tokens never reaches the parser. *)
Theorem parse_depends_on_tokens (src1 src2 : string) :
  same_tokens (lexer.New src1) (lexer.New src2) ->
  parsed src1 = parsed src2 /\ render src1 = render src2.
Proof.
  intros Ht.
  set (F := Nat.max (enough_fuel src1) (enough_fuel src2)).
  assert (E1 : parse F src1 = parse (enough_fuel src1) src1)
    by (apply parse_fuel_stable; unfold F; lia).
  assert (E2 : parse F src2 = parse (enough_fuel src2) src2)
    by (apply parse_fuel_stable; unfold F; lia).
  unfold parsed, render, parse_render. rewrite <- E1, <- E2.
  pose proof (agree_parse F _ _ Ht) as H. unfold parse.
  destruct (p <- New (lexer.New src1) ;; ParseProgram F p) as [[prog1 p']|],
           (q <- New (lexer.New src2) ;; ParseProgram F q) as [[prog2 q']|];
    try contradiction; [|split; reflexivity].
  destruct H as (-> & He). cbn [obind fst snd]. unfold Errors.
  rewrite He. split; reflexivity.
Qed.

(** The same tokens, with and without spaces between them. *)
Lemma parse_depends_on_tokens_witness :
  parsed "f(a,b)-1" = parsed "f ( a , b ) - 1"
  /\ render "f(a,b)-1" = render "f ( a , b ) - 1".
Proof.
  apply (parse_depends_on_tokens "f(a,b)-1" "f ( a , b ) - 1").
  do 8 (eapply same_tokens_cons;
        [vm_compute; reflexivity | vm_compute; reflexivity |]).
  apply (same_rest_same_tokens _ _ "");
    [repeat split; cbn; lia | repeat split; cbn; lia
     | reflexivity | reflexivity].
Defined.

End TokenView.


(** * Statements in sequence *)

Section Sequencing.

Import lexer parser.

Lemma ParseProgram_loop_S n fuel stmts p :
  ParseProgram_loop (S n) fuel stmts p
  = if negb (currTokenIs token.EOF p) then
      (stmt <~ parseStatement fuel ;;
       nextToken ;;
       ParseProgram_loop n fuel (stmts ++ [stmt])) p
    else Some (stmts, p).
Proof. reflexivity. Qed.

Lemma ParseProgram_loop_app fuel :
  forall n stmts p,
    ParseProgram_loop n fuel stmts p
    = match ParseProgram_loop n fuel [] p with
      | Some (r, p') => Some ((stmts ++ r)%list, p')
      | None => None
      end.
Proof.
  induction n as [|n IH]; intros stmts p; [reflexivity|].
  cbn [ParseProgram_loop].
  destruct (negb (currTokenIs token.EOF p));
    [|now rewrite app_nil_r].
  unfold bind. destruct (parseStatement fuel p) as [[s p1]|]; [|reflexivity].
  destruct (nextToken p1) as [[[] p2]|]; [|reflexivity].
  rewrite (IH (stmts ++ [s])%list), (IH ([] ++ [s])%list).
  destruct (ParseProgram_loop n fuel [] p2) as [[r p3]|]; [|reflexivity].
  cbn [app]. now rewrite <- app_assoc.
Qed.

(** The loop of [ParseProgram], entered on the first two tokens of the
    text [rest] with the statements [pre] and the diagnostics [ds0] at
    hand, adds to them what a parse of [rest] alone gives. *)
Lemma resume_at rest pre ds0 l t2 t3 rest2 rest3 n fuel :
  lexSuffix rest = (t2, rest2) -> lexSuffix rest2 = (t3, rest3) ->
  lexer_inv l -> rest_of l = rest3 ->
  enough_fuel rest <= n -> enough_fuel rest <= fuel ->
  exists stmts ds p',
    parsed rest = Some (stmts, ds)
    /\ ParseProgram_loop n fuel pre
         {| lexer_ := l; currToken := t2; peekToken := t3; errors := ds0 |}
       = Some ((pre ++ stmts)%list, p')
    /\ errors p' = (ds0 ++ ds)%list.
Proof.
  intros L1 L2 Il Rl Hn Hfuel.
  destruct (parse_returns rest) as (prog & pr & k & Hrun & _).
  destruct (nextToken_any (lexer.New rest) rest _ _ (New_inv rest) eq_refl L1)
    as (l1 & I1 & R1 & N1).
  destruct (nextToken_any l1 _ _ _ I1 R1 L2) as (l2 & I2 & R2 & N2).
  exists (ast.Stmts prog), (errors pr).
  unfold parsed. rewrite Hrun. cbn [obind fst snd]. unfold Errors.
  unfold parse, New, bind in Hrun. rewrite N1, N2 in Hrun.
  cbn [obind snd] in Hrun. unfold ParseProgram, bind in Hrun.
  set (q0 := {| lexer_ := l2; currToken := t2; peekToken := t3;
                errors := [] |}) in Hrun.
  destruct (ParseProgram_loop (enough_fuel rest) (enough_fuel rest) [] q0)
    as [[stmts pr']|] eqn:Hloop; [|discriminate].
  unfold ret in Hrun. injection Hrun as <- <-. cbn [ast.Stmts].
  pose proof (ParseProgram_loop_below _ _ Hfuel _ _ [] Hn q0 _ Hloop)
    as Hbig.
  set (p1 := {| lexer_ := l; currToken := t2; peekToken := t3;
                errors := ds0 |}).
  assert (Hal : alike q0 p1).
  { split; [reflexivity|]. split; [reflexivity|].
    apply (same_rest_same_tokens _ _ ""); cbn [lexer_ q0 p1];
      [assumption | assumption | reflexivity | cbn [append]; congruence]. }
  pose proof (agree_ParseProgram_loop fuel n [] q0 p1 Hal) as Hag.
  rewrite Hbig in Hag. unfold agree in Hag.
  rewrite (ParseProgram_loop_app fuel n pre p1).
  destruct (ParseProgram_loop n fuel [] p1) as [[r p']|]; [|contradiction].
  destruct Hag as (<- & _ & ds & Hq & Hp).
  exists p'. split; [reflexivity|]. split; [reflexivity|].
  cbn [errors q0 p1 app] in Hq, Hp. now rewrite Hp, Hq.
Qed.

Lemma big_fuel src rest :
  exists k,
    Nat.max (enough_fuel src) (enough_fuel rest) = S (S (S (S (S k)))).
Proof.
  exists (Nat.max (enough_fuel src) (enough_fuel rest) - 5).
  unfold enough_fuel. lia.
Qed.

(** X16. Recovery after a token that cannot start an expression.  When
    the first token [tok] of a source is of a kind without prefix handler
    and the token after it is not a semicolon, the parser reports [tok]
    once, with a statement without expression, and goes on with the text
    [rest] behind [tok] as if it parsed [rest] alone: its statements and
    its diagnostics follow, unchanged. *)
Theorem recovery_after_bad_token (src rest : string) (tok : token.Token) :
  lexSuffix src = (tok, rest) ->
  starts_expression (token.Typ tok) = false ->
  token.Typ tok <> token.EOF ->
  token.Typ (fst (lexSuffix rest)) <> token.Semicolon ->
  exists stmts ds,
    parsed rest = Some (stmts, ds)
    /\ parsed src
       = Some (ast.ExpressionStmt tok None :: stmts,
               ("Honk! no prefix parse function for "
                ++ token.TokenType_string (token.Typ tok) ++ " found") :: ds).
Proof.
  intros L0 Hno Hne Hsemi.
  destruct (lexSuffix rest) as [t2 rest2] eqn:L1. cbn [fst] in Hsemi.
  destruct (lexSuffix rest2) as [t3 rest3] eqn:L2.
  destruct (nextToken_any (lexer.New src) src _ _ (New_inv src) eq_refl L0)
    as (l1 & I1 & R1 & N1).
  destruct (nextToken_any l1 _ _ _ I1 R1 L1) as (l2 & I2 & R2 & N2).
  destruct (nextToken_any l2 _ _ _ I2 R2 L2) as (l3 & I3 & R3 & N3).
  assert (HneEOF : token.TokenType_beq (token.Typ tok) token.EOF = false).
  { destruct (token.Typ tok); try reflexivity. now elim Hne. }
  assert (HneSemi : token.TokenType_beq (token.Typ t2) token.Semicolon
                    = false).
  { destruct (token.Typ t2); try reflexivity. now elim Hsemi. }
  set (msg := "Honk! no prefix parse function for "
              ++ token.TokenType_string (token.Typ tok) ++ " found").
  destruct (big_fuel src rest) as (k & Hk).
  destruct (resume_at rest [ast.ExpressionStmt tok None] [msg] l3 t2 t3
              rest2 rest3 (S (S (S (S (S k))))) (S (S (S (S (S (S k))))))
              L1 L2 I3 R3 ltac:(lia) ltac:(lia))
    as (stmts & ds & p' & Hrest & Hloop & Herr).
  exists stmts, ds. split; [exact Hrest|].
  unfold parsed.
  rewrite <- (parse_fuel_stable src (S (S (S (S (S (S k))))))) by lia.
  unfold parse, New, bind. rewrite N1, N2. cbn [obind snd].
  unfold ParseProgram, bind.
  rewrite ParseProgram_loop_S. unfold currTokenIs at 1. cbn [currToken].
  rewrite HneEOF. cbn [negb].
  unfold bind, parseStatement, parseExpressionStmt. cbv zeta.
  unfold bind. rewrite parseExpression_S.
  rewrite body_none by assumption.
  unfold bind, noPrefixParseFnError, appendError, ret.
  cbn [lexer_ currToken peekToken errors app].
  unfold peekTokenIs. cbn [peekToken]. rewrite HneSemi.
  rewrite N3. fold msg. cbn [app]. rewrite Hloop.
  cbn [obind fst snd ast.Stmts app]. unfold Errors. now rewrite Herr.
Qed.

(** The keyword [def] before a call. *)
Lemma recovery_after_bad_token_witness :
  exists stmts ds,
    parsed " f(x)" = Some (stmts, ds)
    /\ parsed "def f(x)"
       = Some (ast.ExpressionStmt
                 {| token.Literal := "def"; token.Typ := token.Def |} None
               :: stmts,
               ("Honk! no prefix parse function for "
                ++ token.TokenType_string
                     (token.Typ {| token.Literal := "def";
                                   token.Typ := token.Def |})
                ++ " found") :: ds).
Proof.
  apply (recovery_after_bad_token "def f(x)" " f(x)"
           {| token.Literal := "def"; token.Typ := token.Def |});
    [reflexivity | reflexivity | discriminate | discriminate].
Defined.

Lemma loop_no_infix rec n m prec left p :
  continues_expression (token.Typ (peekToken p)) = false ->
  parseExpression_loop rec n (S m) prec left p = Some (left, p).
Proof.
  intros H. cbn [parseExpression_loop].
  destruct (negb (peekTokenIs token.Semicolon p)
            && (prec <? peekPrecedence p)%Z); [|reflexivity].
  destruct (token.Typ (peekToken p)); try discriminate; reflexivity.
Qed.

(** X17. Statements in sequence.  A single-token operand followed by a
    semicolon is a statement of its own, whatever follows; without the
    semicolon it is one as well, when the token that follows continues no
    expression (no infix handler is registered for its kind: another
    operand, a keyword, a closing parenthesis, an opening square bracket,
    the end of input, ...).  In both cases the rest of the source is
    parsed as if it stood alone. *)
Theorem statement_then_rest (a : operand) (semi : bool) (rest : string) :
  operand_ok a = true ->
  (semi = false ->
   continues_expression (token.Typ (fst (lexSuffix rest))) = false
   /\ token.Typ (fst (lexSuffix rest)) <> token.Semicolon) ->
  exists stmts ds,
    parsed rest = Some (stmts, ds)
    /\ parsed (operand_text a ++ (if semi then ";" else " ") ++ rest)
       = Some (operand_stmt a :: stmts, ds).
Proof.
  intros Ha Hnext.
  set (src := operand_text a ++ (if semi then ";" else " ") ++ rest).
  destruct (lexSuffix rest) as [t2 rest2] eqn:L1. cbn [fst] in Hnext.
  destruct (lexSuffix rest2) as [t3 rest3] eqn:L2.
  destruct (big_fuel src rest) as (k & Hk).
  assert (L0 : lexSuffix src
               = (operand_token a, (if semi then ";" else " ") ++ rest)).
  { apply lexSuffix_operand; [assumption | |]; now destruct semi. }
  destruct (nextToken_any (lexer.New src) src _ _ (New_inv src) eq_refl L0)
    as (l1 & I1 & R1 & N1).
  destruct semi.
  - (* with the semicolon *)
    assert (Ls : lexSuffix (";" ++ rest)
                 = ({| token.Literal := ";"; token.Typ := token.Semicolon |},
                    rest)) by reflexivity.
    destruct (nextToken_any l1 _ _ _ I1 R1 Ls) as (l2 & I2 & R2 & N2).
    destruct (nextToken_any l2 _ _ _ I2 R2 L1) as (l3 & I3 & R3 & N3).
    destruct (nextToken_any l3 _ _ _ I3 R3 L2) as (l4 & I4 & R4 & N4).
    destruct (resume_at rest [operand_stmt a] [] l4 t2 t3
                rest2 rest3 (S (S (S (S (S k))))) (S (S (S (S (S (S k))))))
                L1 L2 I4 R4 ltac:(lia) ltac:(lia))
      as (stmts & ds & p' & Hrest & Hloop & Herr).
    exists stmts, ds. split; [exact Hrest|].
    unfold parsed.
    rewrite <- (parse_fuel_stable src (S (S (S (S (S (S k))))))) by lia.
    unfold parse, New, bind. rewrite N1, N2. cbn [obind snd].
    unfold ParseProgram, bind.
    rewrite ParseProgram_loop_S. unfold currTokenIs at 1. cbn [currToken].
    rewrite operand_not_EOF. cbn [negb].
    unfold bind, parseStatement, parseExpressionStmt. cbv zeta.
    unfold bind. rewrite parseExpression_S.
    rewrite (body_operand _ _ _ a) by (assumption || reflexivity).
    rewrite loop_exit by reflexivity.
    cbn [peekTokenIs peekToken token.Typ token.TokenType_beq].
    unfold bind. rewrite N3. unfold ret. cbn [currToken].
    rewrite N4. fold (operand_stmt a). cbn [app]. rewrite Hloop.
    cbn [obind fst snd ast.Stmts app]. unfold Errors. now rewrite Herr.
  - (* without it *)
    destruct (Hnext eq_refl) as (Hprec & Hsemi).
    assert (HneSemi : token.TokenType_beq (token.Typ t2) token.Semicolon
                      = false).
    { destruct (token.Typ t2); try reflexivity. now elim Hsemi. }
    assert (Lsp : lexSuffix (" " ++ rest) = (t2, rest2)).
    { cbn [append]. now rewrite lexSuffix_space. }
    destruct (nextToken_any l1 _ _ _ I1 R1 Lsp) as (l2 & I2 & R2 & N2).
    destruct (nextToken_any l2 _ _ _ I2 R2 L2) as (l3 & I3 & R3 & N3).
    destruct (resume_at rest [operand_stmt a] [] l3 t2 t3
                rest2 rest3 (S (S (S (S (S k))))) (S (S (S (S (S (S k))))))
                L1 L2 I3 R3 ltac:(lia) ltac:(lia))
      as (stmts & ds & p' & Hrest & Hloop & Herr).
    exists stmts, ds. split; [exact Hrest|].
    unfold parsed.
    rewrite <- (parse_fuel_stable src (S (S (S (S (S (S k))))))) by lia.
    unfold parse, New, bind. rewrite N1, N2. cbn [obind snd].
    unfold ParseProgram, bind.
    rewrite ParseProgram_loop_S. unfold currTokenIs at 1. cbn [currToken].
    rewrite operand_not_EOF. cbn [negb].
    unfold bind, parseStatement, parseExpressionStmt. cbv zeta.
    unfold bind. rewrite parseExpression_S.
    rewrite (body_operand _ _ _ a) by (assumption || reflexivity).
    rewrite loop_no_infix by exact Hprec.
    unfold peekTokenIs. cbn [peekToken]. rewrite HneSemi.
    cbn [currToken].
    rewrite N3. fold (operand_stmt a). cbn [app]. rewrite Hloop.
    unfold ret. cbn [obind fst snd ast.Stmts app]. unfold Errors.
    now rewrite Herr.
Qed.

(** An operand before a semicolon and an operator, and an operand before
    an opening square bracket. *)
Lemma statement_then_rest_witness :
  (exists stmts ds,
     parsed "+ 1" = Some (stmts, ds)
     /\ parsed ("x" ++ ";" ++ "+ 1")
        = Some (operand_stmt (Ident "x") :: stmts, ds))
  /\ (exists stmts ds,
        parsed "[1]" = Some (stmts, ds)
        /\ parsed ("x" ++ " " ++ "[1]")
           = Some (operand_stmt (Ident "x") :: stmts, ds)).
Proof.
  split.
  - apply (statement_then_rest (Ident "x") true "+ 1");
      [reflexivity | discriminate].
  - apply (statement_then_rest (Ident "x") false "[1]");
      [reflexivity | intros _; split; [reflexivity | discriminate]].
Defined.

End Sequencing.


(** * The first token *)

Section FirstToken.

Import lexer parser.

Lemma lexSuffix_EOF s :
  token.Typ (fst (lexSuffix s)) = token.EOF -> fst (lexSuffix s) = EOFToken.
Proof.
  unfold lexSuffix, twoCharSuffix, LookupIdent, keywords. cbv zeta.
  repeat match goal with
         | |- context [if ?c then _ else _] => destruct c
         end; cbn; intros H; try discriminate; reflexivity.
Qed.

(** X18. A source of whitespace only, the empty source included, gives
    the empty program without a diagnostic; it renders as the empty
    text. *)
Theorem blank_source (src : string) :
  string_forall utils.IsSkipable src = true ->
  parsed src = Some ([], []) /\ render src = Some (Some "", []).
Proof.
  intros Hws.
  rewrite (string_forall_ext _ _ _ IsSkipable_isSpace) in Hws.
  assert (L0 : lexSuffix src = (EOFToken, "")).
  { rewrite <- (append_empty_r src). now rewrite (lexSuffix_spaces _ _ Hws). }
  destruct (nextToken_any (lexer.New src) src _ _ (New_inv src) eq_refl L0)
    as (l1 & I1 & R1 & N1).
  destruct (nextToken_any l1 _ _ _ I1 R1 lexSuffix_end)
    as (l2 & I2 & R2 & N2).
  assert (Hparse : exists p,
            parse (enough_fuel src) src = Some ({| ast.Stmts := [] |}, p)
            /\ errors p = []).
  { eexists. split.
    - replace (enough_fuel src) with (S (2 * String.length src + 4))
        by (unfold enough_fuel; lia).
      unfold parse, New, bind. rewrite N1, N2. cbn [obind snd].
      unfold ParseProgram, bind. rewrite ParseProgram_loop_S.
      reflexivity.
    - reflexivity. }
  destruct Hparse as (p & Hparse & Herr).
  unfold parsed, render, parse_render. rewrite Hparse.
  cbn [obind fst snd ast.Stmts]. unfold Errors. rewrite Herr.
  split; reflexivity.
Qed.

Lemma blank_source_witness :
  parsed (String.String " " (String.String "010" (String.String "009" "")))
  = Some ([], [])
  /\ render (String.String " " (String.String "010" (String.String "009" "")))
     = Some (Some "", []).
Proof.
  apply (blank_source
           (String.String " " (String.String "010" (String.String "009" ""))));
    reflexivity.
Defined.

Lemma parseStatement_token fuel p s p' :
  parseStatement fuel p = Some (s, p') ->
  ast.Stmt_TokenLiteral s = token.Literal (currToken p).
Proof.
  unfold parseStatement, parseExpressionStmt. cbv zeta. unfold bind.
  destruct (parseExpression fuel LOWEST p) as [[e p1]|]; [|discriminate].
  destruct (peekTokenIs token.Semicolon p1).
  - destruct (nextToken p1) as [[[] p2]|]; [|discriminate].
    unfold ret. intros [= <- <-]. reflexivity.
  - intros [= <- <-]. reflexivity.
Qed.

Lemma ParseProgram_loop_first fuel n p r p' :
  ParseProgram_loop n fuel [] p = Some (r, p') ->
  ast.Program_TokenLiteral {| ast.Stmts := r |}
  = if currTokenIs token.EOF p then "" else token.Literal (currToken p).
Proof.
  destruct n as [|n]; [discriminate|]. rewrite ParseProgram_loop_S.
  destruct (currTokenIs token.EOF p); cbn [negb].
  - intros [= <- <-]. reflexivity.
  - unfold bind.
    destruct (parseStatement fuel p) as [[s p1]|] eqn:Hs; [|discriminate].
    destruct (nextToken p1) as [[[] p2]|]; [|discriminate].
    rewrite ParseProgram_loop_app.
    destruct (ParseProgram_loop n fuel [] p2) as [[r' p3]|]; [|discriminate].
    intros [= <- <-]. cbn. exact (parseStatement_token _ _ _ _ Hs).
Qed.

(** X19. The token literal of a program is the literal of the first token
    of its source: [Program.TokenLiteral] of the program [ParseProgram]
    returns is the literal of the token the first call of [NextToken]
    returns on the source, which is the empty text when the source holds
    no token. *)
Theorem program_token_literal :
  forall src,
    exists prog p t l,
      parse (enough_fuel src) src = Some (prog, p)
      /\ NextToken (lexer.New src) = Some (t, l)
      /\ ast.Program_TokenLiteral prog = token.Literal t.
Proof.
  intros src.
  destruct (parse_returns src) as (prog & p & k & Hrun & _).
  destruct (lexSuffix src) as [t1 s1] eqn:L0.
  destruct (lexSuffix s1) as [t2 s2] eqn:L1.
  destruct (NextToken_refines _ (New_inv src)) as (l & Hn & Il & Rl).
  change (rest_of (lexer.New src)) with src in Hn, Rl.
  rewrite L0 in Hn, Rl. cbn [fst snd] in Hn, Rl.
  destruct (nextToken_any (lexer.New src) src _ _ (New_inv src) eq_refl L0)
    as (l1 & I1 & R1 & N1).
  destruct (nextToken_any l1 _ _ _ I1 R1 L1) as (l2 & I2 & R2 & N2).
  exists prog, p, t1, l. split; [exact Hrun|]. split; [exact Hn|].
  unfold parse, New, bind in Hrun. rewrite N1, N2 in Hrun.
  cbn [obind snd] in Hrun. unfold ParseProgram, bind in Hrun.
  destruct (ParseProgram_loop (enough_fuel src) (enough_fuel src) [] _)
    as [[r p']|] eqn:Hloop; [|discriminate].
  unfold ret in Hrun. injection Hrun as <- <-.
  rewrite (ParseProgram_loop_first _ _ _ _ _ Hloop).
  unfold currTokenIs. cbn [currToken].
  destruct (token.TokenType_beq (token.Typ t1) token.EOF) eqn:E;
    [|reflexivity].
  assert (Ht : token.Typ t1 = token.EOF)
    by (destruct (token.Typ t1); try discriminate; reflexivity).
  pose proof (lexSuffix_EOF src) as HE. rewrite L0 in HE. cbn [fst] in HE.
  now rewrite (HE Ht).
Qed.

End FirstToken.


(** * The shape of the trees *)

Section TreeShape.

Import lexer parser.

Lemma produces_ret {A : Type} (a : A) p (Q : A -> Prop) :
  Q a -> produces (ret a p) Q.
Proof. intros HQ a' p' [= <- <-]. exact HQ. Qed.

Lemma produces_bind {A B : Type} (m : M A) (f : A -> M B) p
  (Q1 : A -> Prop) (Q : B -> Prop) :
  produces (m p) Q1 ->
  (forall a p1, m p = Some (a, p1) -> Q1 a -> produces (f a p1) Q) ->
  produces (bind m f p) Q.
Proof.
  intros Hm Hf b p2. unfold bind.
  destruct (m p) as [[a p1]|] eqn:E; [|discriminate].
  apply (Hf a p1 eq_refl). now apply (Hm a p1).
Qed.

Lemma produces_any {A : Type} (r : option (A * Parser)) :
  produces r (fun _ => True).
Proof. intros a p' _. exact I. Qed.

Lemma nextToken_curr p p1 :
  nextToken p = Some (tt, p1) -> currToken p1 = peekToken p.
Proof.
  unfold nextToken. destruct (NextToken (lexer_ p)) as [[t l']|];
    [|discriminate]. cbn [obind]. now intros [= <-].
Qed.

Lemma every_well_formed (l : list (option ast.Expr)) :
  (fix every (l : list (option ast.Expr)) : Prop :=
     match l with
     | [] => True
     | arg :: l' =>
         match arg with
         | Some x => well_formed x
         | None => True
         end /\ every l'
     end) l
  <-> Forall owell_formed l.
Proof.
  induction l as [|a l IH]; [split; auto|].
  split.
  - intros (Ha & Hl). constructor; [exact Ha | now apply IH].
  - intros H. inversion H; subst. split; [assumption | now apply IH].
Qed.

Lemma well_formed_CallExpr t f a :
  token.Typ t = token.LeftParen -> owell_formed f ->
  match a with Some l => Forall owell_formed l | None => True end ->
  well_formed (ast.CallExpr t f a).
Proof.
  intros Ht Hf Ha. cbn [well_formed]. split; [assumption|].
  split; [exact Hf|]. destruct a as [l|]; [|exact I].
  now apply every_well_formed.
Qed.

Section Callbacks.

Variable rec : Precedence -> M (option ast.Expr).
Variable n : nat.
Hypothesis Hrec : forall prec p, produces (rec prec p) owell_formed.

Lemma produces_parsePrefixExpr p :
  prefix_symbol (token.Typ (currToken p)) <> None ->
  produces (parsePrefixExpr rec p) owell_formed.
Proof.
  intros Ht. unfold parsePrefixExpr. cbv zeta.
  eapply produces_bind; [apply produces_any|]. intros [] p1 _ _.
  eapply produces_bind; [apply Hrec|]. intros e p2 _ He.
  apply produces_ret. cbn [owell_formed well_formed]. auto.
Qed.

Lemma produces_parseInfixExpr left p :
  operator_symbol (token.Typ (currToken p)) <> None -> owell_formed left ->
  produces (parseInfixExpr rec left p) owell_formed.
Proof.
  intros Ht Hl. unfold parseInfixExpr. cbv zeta.
  eapply produces_bind; [apply produces_any|]. intros [] p1 _ _.
  eapply produces_bind; [apply Hrec|]. intros e p2 _ He.
  apply produces_ret. cbn [owell_formed well_formed]. auto.
Qed.

Lemma produces_parseExpressionList_loop :
  forall m items p,
    Forall owell_formed items ->
    produces (parseExpressionList_loop rec m items p) (Forall owell_formed).
Proof.
  induction m as [|m IH]; intros items p Hi; [intros a p'; discriminate|].
  cbn [parseExpressionList_loop]. destruct (peekTokenIs token.Comma p).
  - eapply produces_bind; [apply produces_any|]. intros [] p1 _ _.
    eapply produces_bind; [apply produces_any|]. intros [] p2 _ _.
    eapply produces_bind; [apply Hrec|]. intros e p3 _ He.
    apply IH. apply Forall_app. split; [assumption|]. now constructor.
  - now apply (produces_ret items).
Qed.

Lemma produces_parseExpressionList end_ p :
  produces (parseExpressionList rec n end_ p)
    (fun a => match a with
              | Some l => Forall owell_formed l
              | None => True
              end).
Proof.
  unfold parseExpressionList. destruct (peekTokenIs end_ p).
  - eapply produces_bind; [apply produces_any|]. intros [] p1 _ _.
    apply produces_ret. constructor.
  - eapply produces_bind; [apply produces_any|]. intros [] p1 _ _.
    eapply produces_bind; [apply Hrec|]. intros e p2 _ He.
    eapply produces_bind.
    + apply produces_parseExpressionList_loop. now constructor.
    + intros items p3 _ Hi.
      eapply produces_bind; [apply produces_any|]. intros ok p4 _ _.
      destruct ok; now apply produces_ret.
Qed.

Lemma produces_parseCallExpr function p :
  token.Typ (currToken p) = token.LeftParen -> owell_formed function ->
  produces (parseCallExpr rec n function p) owell_formed.
Proof.
  intros Ht Hf. unfold parseCallExpr. cbv zeta.
  eapply produces_bind; [apply produces_parseExpressionList|].
  intros args p1 _ Ha. apply produces_ret.
  now apply well_formed_CallExpr.
Qed.

Lemma produces_parseExpression_loop precedence :
  forall m left p,
    owell_formed left ->
    produces (parseExpression_loop rec n m precedence left p) owell_formed.
Proof.
  induction m as [|m IH]; intros left p Hl; [intros a p'; discriminate|].
  cbn [parseExpression_loop].
  destruct (negb (peekTokenIs token.Semicolon p)
            && (precedence <? peekPrecedence p)%Z);
    [|now apply (produces_ret left)].
  destruct (infixParseFns rec n (token.Typ (peekToken p))) as [infix|] eqn:Ei;
    [|now apply (produces_ret left)].
  eapply produces_bind; [apply produces_any|]. intros [] p1 Hn _.
  apply nextToken_curr in Hn.
  apply produces_bind with (Q1 := owell_formed);
    [|intros e p2 _ He; now apply IH].
  destruct (token.Typ (peekToken p)) eqn:Ety; cbn [infixParseFns] in Ei;
    try discriminate; injection Ei as <-;
    first [ apply produces_parseInfixExpr;
            [rewrite Hn, Ety; discriminate | assumption]
          | apply produces_parseCallExpr;
            [now rewrite Hn, Ety | assumption] ].
Qed.

Lemma produces_parseExpression_body precedence p :
  produces (parseExpression_body rec n precedence p) owell_formed.
Proof.
  unfold parseExpression_body.
  assert (Hstep : forall prefix,
            produces (prefix p) owell_formed ->
            produces ((left <~ prefix ;;
                       parseExpression_loop rec n n precedence left) p)
              owell_formed).
  { intros prefix Hp. eapply produces_bind; [exact Hp|].
    intros e p1 _ He. now apply produces_parseExpression_loop. }
  destruct (token.Typ (currToken p)) eqn:Ety; cbn [prefixParseFns];
    try (eapply produces_bind; [apply produces_any|];
         intros [] p1 _ _; now apply produces_ret);
    apply Hstep.
  - (* Identifier *)
    intros a p' [= <- <-]. cbn. auto.
  - (* Number *)
    unfold parseNumberLiteral.
    destruct (strconv.ParseFloat (token.Literal (currToken p))) eqn:Ev.
    + intros a p' [= <- <-]. cbn. auto.
    + eapply produces_bind; [apply produces_any|].
      intros [] p1 _ _. now apply produces_ret.
  - (* LeftParen *)
    unfold parseGroupedExpr.
    eapply produces_bind; [apply produces_any|]. intros [] p1 _ _.
    eapply produces_bind; [apply Hrec|]. intros e p2 _ He.
    eapply produces_bind; [apply produces_any|]. intros ok p3 _ _.
    destruct ok; now apply produces_ret.
  - apply produces_parsePrefixExpr. rewrite Ety. discriminate.
  - apply produces_parsePrefixExpr. rewrite Ety. discriminate.
Qed.

End Callbacks.

Lemma produces_parseExpression :
  forall n prec p, produces (parseExpression n prec p) owell_formed.
Proof.
  induction n as [|n IH]; intros prec p; [intros a p'; discriminate|].
  cbn [parseExpression]. now apply produces_parseExpression_body.
Qed.

Lemma produces_parseStatement fuel p :
  produces (parseStatement fuel p) well_formed_stmt.
Proof.
  unfold parseStatement, parseExpressionStmt. cbv zeta.
  eapply produces_bind; [apply produces_parseExpression|].
  intros e p1 _ He. cbv beta.
  destruct (peekTokenIs token.Semicolon p1).
  - eapply produces_bind; [apply produces_any|]. intros [] p2 _ _.
    now apply produces_ret.
  - intros a p' [= <- <-]. exact He.
Qed.

Lemma produces_ParseProgram_loop fuel :
  forall n stmts p,
    Forall well_formed_stmt stmts ->
    produces (ParseProgram_loop n fuel stmts p) (Forall well_formed_stmt).
Proof.
  induction n as [|n IH]; intros stmts p Hs; [intros a p'; discriminate|].
  cbn [ParseProgram_loop]. destruct (negb (currTokenIs token.EOF p)).
  - eapply produces_bind; [apply produces_parseStatement|].
    intros s p1 _ Hwf.
    eapply produces_bind; [apply produces_any|]. intros [] p2 _ _.
    apply IH. apply Forall_app. split; [assumption|]. now constructor.
  - now apply (produces_ret stmts).
Qed.

(** X20. The shape of the trees.  In every program [ParseProgram]
    returns, each node sits on a token of a kind its handler is
    registered for (a prefix node on a bang or minus, an infix node on a
    binary operator, a call on an opening parenthesis), the operator of a
    prefix or infix node and the value of an identifier are the literal of
    the node's token, and the value of a number is what [ParseFloat]
    makes of the literal of its token. *)
Theorem parsed_trees_well_formed :
  forall src,
    exists prog p,
      parse (enough_fuel src) src = Some (prog, p)
      /\ Forall well_formed_stmt (ast.Stmts prog).
Proof.
  intros src.
  destruct (parse_returns src) as (prog & p & k & Hrun & _).
  exists prog, p. split; [exact Hrun|].
  unfold parse in Hrun.
  destruct (New (lexer.New src)) as [p0|]; [|discriminate].
  cbn [obind] in Hrun. unfold ParseProgram, bind in Hrun.
  destruct (ParseProgram_loop (enough_fuel src) (enough_fuel src) [] p0)
    as [[stmts p1]|] eqn:Hloop; [|discriminate].
  unfold ret in Hrun. injection Hrun as <- <-. cbn [ast.Stmts].
  exact (produces_ParseProgram_loop _ _ [] p0 (Forall_nil _) _ _ Hloop).
Qed.

End TreeShape.


(** * Rendering, then parsing *)

Section RoundTrip.

Import lexer parser.

Lemma after_next p s :
  after p s ->
  exists p',
    nextToken p = Some (tt, p')
    /\ currToken p' = fst (lexSuffix s)
    /\ errors p' = errors p
    /\ after p' (snd (lexSuffix s)).
Proof.
  intros (Hinv & Hpeek & Hrest).
  destruct (NextToken_refines _ Hinv) as (l' & Hn & Hinv' & Hrest').
  eexists. unfold nextToken. rewrite Hn. cbn [obind fst snd].
  split; [reflexivity|]. split; [exact Hpeek|]. split; [reflexivity|].
  split; [exact Hinv'|]. cbn [lexer_ peekToken]. rewrite <- Hrest. auto.
Qed.

Lemma after_at p s t s' :
  after p s -> lexSuffix s = (t, s') ->
  lexer_inv (lexer_ p) /\ peekToken p = t /\ rest_of (lexer_ p) = s'.
Proof. intros (Hinv & Hpeek & Hrest) L. rewrite L in *. auto. Qed.

Lemma loop_ends rec n m prec left p s :
  after p s -> ends_at prec (fst (lexSuffix s)) = true ->
  parseExpression_loop rec n (S m) prec left p = Some (left, p).
Proof.
  intros (_ & Hpeek & _) Hend. apply loop_exit.
  unfold peekTokenIs, peekPrecedence. rewrite Hpeek.
  unfold ends_at in Hend.
  destruct (token.TokenType_beq (token.Typ (fst (lexSuffix s)))
              token.Semicolon); [reflexivity|].
  cbn [orb negb andb] in *. now apply negb_true_iff.
Qed.

Lemma calls_lt_need tr : calls tr < need tr.
Proof.
  induction tr as [o|t r IH|t l IHl r IHr|f IH args]; cbn [calls need];
    lia.
Qed.

Lemma need_pos tr : 1 <= need tr.
Proof. pose proof (calls_lt_need tr). lia. Qed.

Lemma start_not_stop c : start_char c = true -> (c =? eqSym)%char = false.
Proof.
  intros H. destruct (c =? eqSym)%char eqn:E; [|reflexivity].
  apply Ascii.eqb_eq in E. subst c. discriminate.
Qed.

Lemma infix_text_app x op y rest :
  infix_text x op y ++ rest
  = String.String "("
      (x ++ String.String " " (op ++ String.String " "
                                 (y ++ String.String ")" rest))).
Proof.
  unfold infix_text.
  repeat first [rewrite append_assoc | progress cbn [append]]. reflexivity.
Qed.

Lemma prefix_text_app op x rest :
  prefix_text op x ++ rest
  = String.String "(" (op ++ x ++ String.String ")" rest).
Proof.
  unfold prefix_text.
  repeat first [rewrite append_assoc | progress cbn [append]]. reflexivity.
Qed.

Lemma call_text_app f a rest :
  (f ++ "(" ++ a ++ ")") ++ rest
  = f ++ String.String "(" (a ++ String.String ")" rest).
Proof.
  repeat first [rewrite append_assoc | progress cbn [append]]. reflexivity.
Qed.

Lemma tree_text_start tr rest :
  tree_ok tr = true -> start_char (hd (tree_text tr ++ rest)) = true.
Proof.
  revert rest.
  induction tr as [o|t r IH|t l IHl r IHr|f IH args]; intros rest Hok;
    cbn [tree_text tree_ok] in *.
  - assert (Hhd : utils.IsAlpha (hd (operand_text o)) = true
                  \/ utils.IsNumeric (hd (operand_text o)) = true).
    { destruct o; cbn [operand_ok operand_text] in *;
        apply andb_true_iff in Hok as [Hok _];
        apply andb_true_iff in Hok as [Hok _]; auto. }
    assert (Hne : operand_text o <> "").
    { destruct Hhd; [now apply alpha_nonempty | now apply numeric_nonempty]. }
    rewrite (hd_append _ _ Hne). unfold start_char.
    destruct Hhd as [-> | ->]; [reflexivity | apply orb_true_iff; left;
                                              apply orb_true_r].
  - rewrite prefix_text_app. reflexivity.
  - rewrite infix_text_app. reflexivity.
  - apply andb_true_iff in Hok as [Hf _]. rewrite call_text_app.
    now apply IH.
Qed.

Lemma tree_first_kind tr :
  tree_ok tr = true ->
  token.Typ (tree_first tr) = token.Identifier
  \/ token.Typ (tree_first tr) = token.Number
  \/ token.Typ (tree_first tr) = token.LeftParen.
Proof.
  induction tr as [o|t r IH|t l IHl r IHr|f IH args]; intros Hok;
    cbn [tree_first tree_ok] in *; auto.
  - destruct o; auto.
  - apply andb_true_iff in Hok as [Hf _]. auto.
Qed.

Lemma tree_lex_first tr rest :
  tree_ok tr = true -> stop_char (hd rest) = true ->
  fst (lexSuffix (tree_text tr ++ rest)) = tree_first tr.
Proof.
  revert rest.
  induction tr as [o|t r IH|t l IHl r IHr|f IH args]; intros rest Hok Hstop;
    cbn [tree_text tree_ok tree_first] in *.
  - apply andb_true_iff in Hstop as [Ha Hn].
    apply negb_true_iff in Ha, Hn.
    now rewrite lexSuffix_operand.
  - rewrite prefix_text_app. reflexivity.
  - rewrite infix_text_app. reflexivity.
  - apply andb_true_iff in Hok as [Hf _]. rewrite call_text_app.
    now apply IH.
Qed.

Lemma lexSuffix_prefix_symbol t sym y :
  prefix_symbol t = Some sym -> (hd y =? eqSym)%char = false ->
  lexSuffix (sym ++ y) = ({| token.Literal := sym; token.Typ := t |}, y).
Proof.
  intros Hsym Hne.
  destruct t; try discriminate; injection Hsym as <-.
  - reflexivity.
  - cbn [append]. unfold lexSuffix. cbn. unfold twoCharSuffix.
    rewrite Hne. reflexivity.
Qed.

Lemma concat_trees a rest y :
  String.concat ", " (map tree_text (a :: rest)) ++ String.String ")" y
  = tree_text a ++ more_trees rest y.
Proof.
  revert a. induction rest as [|b r IH]; intros a.
  - reflexivity.
  - change (String.concat ", " (map tree_text (a :: b :: r)))
      with (tree_text a ++ ", "
            ++ String.concat ", " (map tree_text (b :: r))).
    rewrite !append_assoc. rewrite IH. reflexivity.
Qed.

Lemma more_trees_stop rest y : stop_char (hd (more_trees rest y)) = true.
Proof. destruct rest; reflexivity. Qed.

Lemma more_trees_ends rest y :
  ends_at LOWEST (fst (lexSuffix (more_trees rest y))) = true.
Proof. destruct rest; reflexivity. Qed.

Lemma oString_tree :
  forall tr, tree_ok tr = true -> oString (tree_expr tr) = Some (tree_text tr).
Proof.
  fix IH 1. intros [o|t r|t l r|f args] Hok; cbn [tree_ok] in Hok.
  - now apply oString_operand.
  - apply andb_true_iff in Hok as [_ Hr]. cbn [tree_expr tree_text].
    apply oString_prefix_node. now apply IH.
  - apply andb_true_iff in Hok as [Hok Hr].
    apply andb_true_iff in Hok as [_ Hl]. cbn [tree_expr tree_text].
    apply oString_infix_node; now apply IH.
  - apply andb_true_iff in Hok as [Hf Ha]. cbn [tree_expr tree_text oString].
    rewrite Expr_String_CallExpr. rewrite (IH f Hf).
    assert (Hargs : args_String (map tree_expr args)
                    = Some (map tree_text args)).
    { clear Hf. induction args as [|a r IHr]; [reflexivity|].
      cbn [forallb] in Ha. apply andb_true_iff in Ha as [Ha Hr].
      cbn [map]. rewrite args_String_cons, (IH a Ha), (IHr Hr).
      reflexivity. }
    rewrite Hargs. reflexivity.
Qed.

Lemma continues_ends tr F prec rest p p' :
  calls tr < F -> after p' rest ->
  ends_at prec (fst (lexSuffix rest)) = true ->
  parseExpression (S F) prec p
  = parseExpression_loop (parseExpression F) F (F - calls tr) prec
      (tree_expr tr) p' ->
  parseExpression (S F) prec p = Some (tree_expr tr, p').
Proof.
  intros Hlt Haf Hend ->.
  destruct (F - calls tr) as [|m] eqn:Em; [lia|].
  now apply (loop_ends _ _ _ _ _ _ rest).
Qed.

Lemma args_need_length (args : list tree) :
  List.length args <= fold_right (fun a n => S (need a) + n) 0 args.
Proof. induction args as [|a r IH]; cbn [List.length fold_right]; lia. Qed.

Lemma args_need_In (args : list tree) x :
  In x args -> S (need x) <= fold_right (fun a n => S (need a) + n) 0 args.
Proof.
  induction args as [|a r IH]; [intros []|].
  cbn [In fold_right]. intros [<-|Hin]; [lia|]. specialize (IH Hin). lia.
Qed.

(** [parseExpression] on the text of a tree: the prefix handler and the
    calls at the root of the tree are parsed, and the loop goes on with
    the node of the tree at hand, behind its text. *)
Lemma parse_tree_continues : forall n tr,
  need tr <= n -> tree_ok tr = true ->
  forall F prec rest p,
    need tr <= F -> (prec <? CALL)%Z = true -> stop_char (hd rest) = true ->
    currToken p = fst (lexSuffix (tree_text tr ++ rest)) ->
    after p (snd (lexSuffix (tree_text tr ++ rest))) ->
    exists p',
      after p' rest /\ errors p' = errors p
      /\ parseExpression (S F) prec p
         = parseExpression_loop (parseExpression F) F (F - calls tr) prec
             (tree_expr tr) p'.
Proof.
  induction n as [|n IH]; intros tr Hn Hok F prec rest p HF Hprec Hstop
    Hcurr Hafter.
  { pose proof (need_pos tr). lia. }
  destruct tr as [o|t r|t l r|f args]; cbn [tree_ok tree_text need] in *.
  - (* an operand *)
    apply andb_true_iff in Hstop as [Ha Hnum].
    apply negb_true_iff in Ha, Hnum.
    rewrite (lexSuffix_operand o rest Hok Ha Hnum) in Hcurr, Hafter.
    cbn [fst snd] in Hcurr, Hafter.
    exists p. split; [assumption|]. split; [reflexivity|].
    rewrite parseExpression_S, (body_operand _ _ _ o) by assumption.
    cbn [calls tree_expr]. now rewrite Nat.sub_0_r.
  - (* a prefix node *)
    apply andb_true_iff in Hok as [Hsym Hr].
    destruct (prefix_symbol t) as [sym|] eqn:Esym; [clear Hsym|discriminate].
    assert (Hsp : prefix_spelling t = sym)
      by (unfold prefix_spelling; now rewrite Esym).
    rewrite Hsp in *.
    destruct F as [|[|F2]]; [lia | lia |].
    rewrite prefix_text_app, lexSuffix_LeftParen in Hcurr, Hafter.
    cbn [fst snd] in Hcurr, Hafter.
    set (R1 := String.String ")" rest) in *.
    assert (L1 : lexSuffix (sym ++ tree_text r ++ R1)
                 = ({| token.Literal := sym; token.Typ := t |},
                    tree_text r ++ R1)).
    { apply lexSuffix_prefix_symbol; [assumption|].
      apply start_not_stop. now apply tree_text_start. }
    destruct (after_next p _ Hafter) as (p1 & N1 & C1 & E1 & A1).
    rewrite L1 in C1, A1. cbn [fst snd] in C1, A1.
    destruct (after_next p1 _ A1) as (p2 & N2 & C2 & E2 & A2).
    destruct (IH r ltac:(lia) Hr F2 PREFIX R1 p2 ltac:(lia) eq_refl eq_refl
                C2 A2) as (p3 & A3 & E3 & Hrun).
    apply (continues_ends r F2 PREFIX R1 p2 p3) in Hrun;
      [|pose proof (calls_lt_need r); lia | assumption | reflexivity].
    destruct (after_at p3 R1 _ _ A3 (lexSuffix_RightParen rest))
      as (_ & K3 & _).
    destruct (after_next p3 _ A3) as (p4 & N4 & C4 & E4 & A4).
    unfold R1 in A4. rewrite lexSuffix_RightParen in A4. cbn [snd] in A4.
    exists p4. split; [assumption|]. split; [congruence|].
    rewrite parseExpression_S.
    rewrite body_group by (now rewrite Hcurr).
    unfold bind. unfold parseGroupedExpr at 1. unfold bind. rewrite N1.
    rewrite parseExpression_S.
    rewrite (body_prefix _ _ _ _ t sym) by (assumption || now rewrite C1).
    unfold bind. unfold parsePrefixExpr at 1. cbv zeta. unfold bind.
    rewrite N2, Hrun. unfold ret.
    rewrite (loop_ends _ _ _ _ _ _ R1) by (assumption || reflexivity).
    unfold expectPeek, peekTokenIs. rewrite K3.
    cbn [RightParenToken token.Typ token.TokenType_beq].
    unfold bind. rewrite N4. unfold ret.
    rewrite C1. cbn [calls tree_expr token.Literal]. rewrite Hsp.
    now rewrite Nat.sub_0_r.
  - (* an infix node *)
    apply andb_true_iff in Hok as [Hok Hr].
    apply andb_true_iff in Hok as [Hsym Hl].
    destruct (operator_symbol t) as [sym|] eqn:Esym;
      [clear Hsym|discriminate].
    assert (Hsp : operator_spelling t = sym)
      by (unfold operator_spelling; now rewrite Esym).
    rewrite Hsp in *.
    destruct (operator_below_prefix t sym Esym) as (pr & Hpr & Hlow & Hhigh).
    pose proof (calls_lt_need l) as Hcl.
    pose proof (calls_lt_need r) as Hcr.
    destruct F as [|[|F2]]; [lia | lia |].
    rewrite infix_text_app, lexSuffix_LeftParen in Hcurr, Hafter.
    cbn [fst snd] in Hcurr, Hafter.
    set (R2 := String.String ")" rest) in *.
    set (R1 := String.String " " (sym ++ String.String " "
                                    (tree_text r ++ R2))) in *.
    assert (L1 : lexSuffix R1
                 = ({| token.Literal := sym; token.Typ := t |},
                    String.String " " (tree_text r ++ R2))).
    { unfold R1. rewrite lexSuffix_space. now apply lexSuffix_operator. }
    destruct (after_next p _ Hafter) as (p1 & N1 & C1 & E1 & A1).
    destruct (IH l ltac:(lia) Hl (S F2) LOWEST R1 p1 ltac:(lia) eq_refl
                eq_refl C1 A1) as (p2 & A2 & E2 & Hleft).
    destruct (after_at p2 R1 _ _ A2 L1) as (_ & K2 & _).
    destruct (after_next p2 _ A2) as (p3 & N3 & C3 & E3 & A3).
    rewrite L1 in C3, A3. cbn [fst snd] in C3, A3.
    destruct (after_next p3 _ A3) as (p4 & N4 & C4 & E4 & A4).
    rewrite lexSuffix_space in C4, A4.
    destruct (IH r ltac:(lia) Hr F2 pr R2 p4 ltac:(lia)
                ltac:(apply Z.ltb_lt; unfold CALL, PREFIX in *; lia)
                eq_refl C4 A4) as (p5 & A5 & E5 & Hright).
    apply (continues_ends r F2 pr R2 p4 p5) in Hright;
      [|lia | assumption|].
    2:{ unfold R2. rewrite lexSuffix_RightParen. unfold ends_at.
        cbn [fst RightParenToken token.Typ token.TokenType_beq precedences
             orb]. apply negb_true_iff, Z.ltb_ge. lia. }
    destruct (after_at p5 R2 _ _ A5 (lexSuffix_RightParen rest))
      as (_ & K5 & _).
    destruct (after_next p5 _ A5) as (p6 & N6 & C6 & E6 & A6).
    unfold R2 in A6. rewrite lexSuffix_RightParen in A6. cbn [snd] in A6.
    exists p6. split; [assumption|]. split; [congruence|].
    rewrite parseExpression_S.
    rewrite body_group by (now rewrite Hcurr).
    unfold bind. unfold parseGroupedExpr at 1. unfold bind. rewrite N1.
    rewrite Hleft.
    destruct (S F2 - calls l) as [|[|m]] eqn:Em; [lia | lia |].
    rewrite (loop_operator _ _ _ _ _ _ t sym);
      [| now rewrite K2 | assumption
       | unfold peekPrecedence; rewrite K2; cbn [token.Typ];
         rewrite Hpr; now apply Z.ltb_lt].
    unfold bind. rewrite N3. unfold parseInfixExpr at 1. cbv zeta.
    unfold bind. rewrite N4.
    replace (currPrecedence p3) with pr
      by (unfold currPrecedence; rewrite C3; cbn [token.Typ];
          now rewrite Hpr).
    rewrite Hright. unfold ret.
    rewrite (loop_ends _ _ _ _ _ _ R2) by (assumption || reflexivity).
    unfold expectPeek, peekTokenIs. rewrite K5.
    cbn [RightParenToken token.Typ token.TokenType_beq].
    unfold bind. rewrite N6. unfold ret.
    rewrite C3. cbn [calls tree_expr token.Literal]. rewrite Hsp.
    now rewrite Nat.sub_0_r.
  - (* a call *)
    apply andb_true_iff in Hok as [Hf Hargs].
    pose proof (calls_lt_need f) as Hcf.
    pose proof (args_need_length args) as Hlen.
    assert (Hneed : forall x, In x args -> S (need x) <= F /\ need x <= n).
    { intros x Hin. pose proof (args_need_In args x Hin). lia. }
    rewrite call_text_app in Hcurr, Hafter.
    set (Rf := String.String "("
                 (String.concat ", " (map tree_text args)
                  ++ String.String ")" rest)) in *.
    destruct (IH f ltac:(lia) Hf F prec Rf p ltac:(lia) Hprec eq_refl
                Hcurr Hafter) as (p1 & A1 & E1 & Hfun).
    destruct (after_at p1 Rf _ _ A1 (lexSuffix_LeftParen _)) as (_ & K1 & _).
    destruct (after_next p1 _ A1) as (p2 & N2 & C2 & E2 & A2).
    unfold Rf in C2, A2. rewrite lexSuffix_LeftParen in C2, A2.
    cbn [fst snd] in C2, A2.
    rewrite Hfun. cbn [calls].
    destruct (F - calls f) as [|m] eqn:Em; [lia|].
    replace (F - S (calls f)) with m by lia.
    assert (Hgoal : forall list_ p',
              after p' rest -> errors p' = errors p2 ->
              parseExpressionList (parseExpression F) F token.RightParen p2
              = Some (Some list_, p') ->
              list_ = map tree_expr args ->
              exists p'0,
                after p'0 rest /\ errors p'0 = errors p
                /\ parseExpression_loop (parseExpression F) F (S m) prec
                     (tree_expr f) p1
                   = parseExpression_loop (parseExpression F) F m prec
                       (tree_expr (Call f args)) p'0).
    { intros list_ p' Ap' Ep' Hlist ->. exists p'.
      split; [assumption|]. split; [congruence|].
      rewrite loop_call by (assumption || now rewrite K1).
      unfold bind. rewrite N2. unfold parseCallExpr at 1. cbv zeta.
      unfold bind. rewrite Hlist. unfold ret. now rewrite C2. }
    destruct args as [|a rest_args].
    + (* no argument *)
      cbn [map String.concat append] in A2.
      destruct (after_at p2 _ _ _ A2 (lexSuffix_RightParen rest))
        as (_ & K2 & _).
      destruct (after_next p2 _ A2) as (p3 & N3 & C3 & E3 & A3).
      rewrite lexSuffix_RightParen in A3. cbn [snd] in A3.
      apply (Hgoal [] p3); [assumption | assumption | | reflexivity].
      unfold parseExpressionList, peekTokenIs. rewrite K2.
      cbn [RightParenToken token.Typ token.TokenType_beq].
      unfold bind. now rewrite N3.
    + (* at least one argument *)
      rewrite concat_trees in A2.
      cbn [forallb] in Hargs. apply andb_true_iff in Hargs as [Ha Hrest].
      destruct (Hneed a (or_introl eq_refl)) as (HaF & Han).
      destruct F as [|F1]; [lia|].
      assert (K2 : token.TokenType_beq (token.Typ (peekToken p2))
                     token.RightParen = false).
      { destruct A2 as (_ & -> & _).
        rewrite tree_lex_first by (assumption || apply more_trees_stop).
        destruct (tree_first_kind a Ha) as [-> | [-> | ->]]; reflexivity. }
      destruct (after_next p2 _ A2) as (p3 & N3 & C3 & E3 & A3).
      destruct (IH a Han Ha F1 LOWEST (more_trees rest_args rest) p3
                  ltac:(lia) eq_refl (more_trees_stop rest_args rest) C3 A3)
        as (p4 & A4 & E4 & Hfirst).
      apply (continues_ends a F1 LOWEST (more_trees rest_args rest) p3 p4)
        in Hfirst;
        [|pose proof (calls_lt_need a); lia | assumption
         | apply more_trees_ends].
      assert (Hloop : forall xs acc q k,
                forallb tree_ok xs = true ->
                (forall x, In x xs -> S (need x) <= S F1 /\ need x <= n) ->
                after q (more_trees xs rest) -> List.length xs < k ->
                exists q',
                  after q' (String.String ")" rest)
                  /\ errors q' = errors q
                  /\ parseExpressionList_loop (parseExpression (S F1)) k acc q
                     = Some ((acc ++ map tree_expr xs)%list, q')).
      { induction xs as [|x xs IHxs]; intros acc q k Hxs Hnd Aq Hk.
        - destruct k as [|k]; [cbn in Hk; lia|].
          cbn [more_trees append] in Aq.
          destruct (after_at q _ _ _ Aq (lexSuffix_RightParen rest))
            as (_ & Kq & _).
          exists q. split; [assumption|]. split; [reflexivity|].
          cbn [parseExpressionList_loop map]. unfold peekTokenIs.
          rewrite Kq. cbn [RightParenToken token.Typ token.TokenType_beq].
          now rewrite app_nil_r.
        - destruct k as [|k]; [cbn in Hk; lia|].
          cbn [forallb] in Hxs. apply andb_true_iff in Hxs as [Hx Hxs].
          destruct (Hnd x (or_introl eq_refl)) as (HxF & Hxn).
          assert (Lc : lexSuffix (more_trees (x :: xs) rest)
                       = (CommaToken,
                          String.String " "
                            (tree_text x ++ more_trees xs rest)))
            by reflexivity.
          destruct (after_at q _ _ _ Aq Lc) as (_ & Kq & _).
          destruct (after_next q _ Aq) as (q1 & M1 & D1 & G1 & B1).
          rewrite Lc in D1, B1. cbn [fst snd] in D1, B1.
          destruct (after_next q1 _ B1) as (q2 & M2 & D2 & G2 & B2).
          rewrite lexSuffix_space in D2, B2.
          destruct (IH x Hxn Hx F1 LOWEST (more_trees xs rest) q2
                      ltac:(lia) eq_refl (more_trees_stop xs rest) D2 B2)
            as (q3 & B3 & G3 & Hx3).
          apply (continues_ends x F1 LOWEST (more_trees xs rest) q2 q3) in Hx3;
            [|pose proof (calls_lt_need x); lia | assumption
             | apply more_trees_ends].
          destruct (IHxs (acc ++ [tree_expr x])%list q3 k Hxs
                      ltac:(intros y Hy; apply Hnd; now right) B3
                      ltac:(cbn in Hk; lia))
            as (q' & Bq' & Gq' & Hrest').
          exists q'. split; [assumption|]. split; [congruence|].
          cbn [parseExpressionList_loop]. unfold peekTokenIs. rewrite Kq.
          cbn [CommaToken token.Typ token.TokenType_beq].
          unfold bind. rewrite M1, M2, Hx3, Hrest'.
          cbn [map]. now rewrite <- app_assoc. }
      assert (Hk : List.length rest_args < S F1)
        by (cbn [List.length fold_right] in Hlen, HF; lia).
      destruct (Hloop rest_args [tree_expr a] p4 (S F1) Hrest
                  ltac:(intros y Hy; apply Hneed; now right) A4 Hk)
        as (p5 & A5 & E5 & Hrun5).
      destruct (after_at p5 _ _ _ A5 (lexSuffix_RightParen rest))
        as (_ & K5 & _).
      destruct (after_next p5 _ A5) as (p6 & N6 & C6 & E6 & A6).
      rewrite lexSuffix_RightParen in A6. cbn [snd] in A6.
      apply (Hgoal (map tree_expr (a :: rest_args)) p6);
        [assumption | congruence | | reflexivity].
      unfold parseExpressionList, peekTokenIs. rewrite K2.
      unfold bind. rewrite N3, Hfirst, Hrun5.
      unfold expectPeek, peekTokenIs. rewrite K5.
      cbn [RightParenToken token.Typ token.TokenType_beq].
      unfold bind. rewrite N6. reflexivity.
Qed.

Lemma tree_parse tr :
  tree_ok tr = true ->
  exists p,
    parse (enough_fuel (tree_text tr)) (tree_text tr)
    = Some ({| ast.Stmts :=
                 [ast.ExpressionStmt (tree_first tr) (tree_expr tr)] |}, p)
    /\ errors p = [].
Proof.
  intros Hok.
  set (src := tree_text tr).
  set (F := Nat.max (need tr) (enough_fuel src)).
  pose proof (calls_lt_need tr) as Hc.
  destruct (lexSuffix src) as [t1 s1] eqn:L0.
  destruct (lexSuffix s1) as [t2 s2] eqn:L1.
  assert (Ht1 : t1 = tree_first tr).
  { pose proof (tree_lex_first tr "" Hok eq_refl) as H.
    rewrite append_empty_r in H. fold src in H. now rewrite L0 in H. }
  destruct (nextToken_any (lexer.New src) src _ _ (New_inv src) eq_refl L0)
    as (l1 & I1 & R1 & N1).
  destruct (nextToken_any l1 _ _ _ I1 R1 L1) as (l2 & I2 & R2 & N2).
  set (p0 := {| lexer_ := l2; currToken := t1; peekToken := t2;
                errors := [] |}).
  assert (A0 : after p0 (snd (lexSuffix (tree_text tr ++ "")))).
  { rewrite append_empty_r. fold src. rewrite L0. cbn [snd].
    split; [exact I2|]. rewrite L1. split; [reflexivity | exact R2]. }
  assert (C0 : currToken p0 = fst (lexSuffix (tree_text tr ++ ""))).
  { rewrite append_empty_r. fold src. now rewrite L0. }
  destruct (parse_tree_continues (need tr) tr (Nat.le_refl _) Hok (S F)
              LOWEST "" p0 ltac:(unfold F; lia) eq_refl eq_refl C0 A0)
    as (p1 & A1 & E1 & Hrun).
  apply (continues_ends tr (S F) LOWEST "" p0 p1) in Hrun;
    [|unfold F; lia | assumption | reflexivity].
  destruct (after_at p1 "" _ _ A1 lexSuffix_end) as (_ & K1 & _).
  destruct (after_next p1 _ A1) as (p2 & N3 & C2 & E2 & A2).
  rewrite lexSuffix_end in C2. cbn [fst] in C2.
  exists p2. split; [|cbn [errors p0] in E1; congruence].
  rewrite <- (parse_fuel_stable src (S (S F))) by (unfold F; lia).
  unfold parse, New, bind. rewrite N1, N2. cbn [obind snd]. fold p0.
  unfold ParseProgram, bind. rewrite ParseProgram_loop_S.
  assert (HnEOF : currTokenIs token.EOF p0 = false).
  { unfold currTokenIs. cbn [currToken p0]. rewrite Ht1.
    destruct (tree_first_kind tr Hok) as [-> | [-> | ->]]; reflexivity. }
  rewrite HnEOF. cbn [negb].
  unfold bind, parseStatement, parseExpressionStmt. cbv zeta.
  unfold bind. rewrite Hrun.
  unfold peekTokenIs. rewrite K1.
  cbn [EOFToken token.Typ token.TokenType_beq].
  rewrite N3. rewrite ParseProgram_loop_S.
  unfold currTokenIs. rewrite C2.
  cbn [EOFToken token.Typ token.TokenType_beq negb app].
  unfold ret. cbn [currToken p0]. now rewrite Ht1.
Qed.

(** X21. Rendering, then parsing.  For every expression tree built from
    single-token operands, the prefix operators, the binary operators and
    calls with any number of arguments, [String()] of its node gives its
    text, fully parenthesised; parsing that text gives back, without a
    diagnostic, the one statement that holds exactly this node; and
    rendering the parsed program gives the text again. *)
Theorem render_then_parse (tr : tree) :
  tree_ok tr = true ->
  oString (tree_expr tr) = Some (tree_text tr)
  /\ parsed (tree_text tr)
     = Some ([ast.ExpressionStmt (tree_first tr) (tree_expr tr)], [])
  /\ render (tree_text tr) = Some (Some (tree_text tr), []).
Proof.
  intros Hok. pose proof (oString_tree tr Hok) as Hs.
  split; [exact Hs|].
  destruct (tree_parse tr Hok) as (p & Hparse & Herr).
  unfold parsed, render, parse_render. rewrite Hparse.
  cbn [obind fst snd ast.Stmts]. unfold Errors. rewrite Herr.
  split; [reflexivity|].
  unfold ast.Program_String.
  cbn [ast.Stmts ast.Stmts_String ast.Stmt_String].
  destruct (tree_expr tr) as [e|]; [|discriminate].
  cbn [oString] in Hs. rewrite Hs. cbn [obind].
  now rewrite append_empty_r.
Qed.

(** The call of [f] on a sum with a negated number and on a call without
    arguments. *)
Lemma render_then_parse_witness :
  oString (tree_expr
             (Call (Leaf (Ident "f"))
                [Infix token.Plus (Leaf (Ident "a"))
                   (Prefix token.Minus (Leaf (Num "2")));
                 Call (Leaf (Ident "g")) []]))
  = Some "f((a + (-2)), g())"
  /\ parsed "f((a + (-2)), g())"
     = Some ([ast.ExpressionStmt
                (tree_first
                   (Call (Leaf (Ident "f"))
                      [Infix token.Plus (Leaf (Ident "a"))
                         (Prefix token.Minus (Leaf (Num "2")));
                       Call (Leaf (Ident "g")) []]))
                (tree_expr
                   (Call (Leaf (Ident "f"))
                      [Infix token.Plus (Leaf (Ident "a"))
                         (Prefix token.Minus (Leaf (Num "2")));
                       Call (Leaf (Ident "g")) []]))], [])
  /\ render "f((a + (-2)), g())" = Some (Some "f((a + (-2)), g())", []).
Proof.
  apply (render_then_parse
           (Call (Leaf (Ident "f"))
              [Infix token.Plus (Leaf (Ident "a"))
                 (Prefix token.Minus (Leaf (Num "2")));
               Call (Leaf (Ident "g")) []])).
  reflexivity.
Defined.

End RoundTrip.


(** * The trees of a parse without diagnostics *)

Section ParsedTrees.

Import lexer parser.

Lemma span_hd cond s :
  cond (hd s) = true -> hd (fst (span cond s)) = hd s.
Proof.
  destruct s as [|c s]; [reflexivity|]. cbn [hd span]. intros ->.
  reflexivity.
Qed.

Lemma lexSuffix_lexed s : lexed (fst (lexSuffix s)) = true.
Proof.
  unfold lexSuffix, twoCharSuffix. cbv zeta.
  set (s' := snd (span isSpace s)).
  repeat match goal with
         | |- lexed (fst (if (?c =? ?k)%char then _ else _)) = true =>
             let E := fresh "E" in
             destruct (c =? k)%char eqn:E;
             [ apply Ascii.eqb_eq in E;
               first
                 [ try rewrite E; reflexivity
                 | match goal with
                   | |- lexed (fst (if (?d =? ?k')%char then _ else _))
                        = true =>
                       let Eb := fresh "Eb" in
                       destruct (d =? k')%char eqn:Eb;
                       [ apply Ascii.eqb_eq in Eb; rewrite E, Eb;
                         reflexivity
                       | rewrite E; reflexivity ]
                   end ]
             | ]
         end.
  destruct (utils.IsAlpha (hd s')) eqn:Eal.
  { cbn [fst]. unfold lexed, LookupIdent. cbn [token.Typ token.Literal].
    destruct (keywords (fst (span utils.IsAlpha s'))) as [k|] eqn:Ek.
    - unfold keywords in Ek.
      destruct (fst (span utils.IsAlpha s') =? "def")%string;
        [injection Ek as <-; reflexivity|].
      destruct (fst (span utils.IsAlpha s') =? "extern")%string;
        [injection Ek as <-; reflexivity | discriminate].
    - cbn [operand_ok]. rewrite Ek, span_hd, Eal by assumption.
      now rewrite span_forall. }
  destruct (utils.IsNumeric (hd s')) eqn:Enum; [|reflexivity].
  cbn [fst]. unfold lexed. cbn [token.Typ token.Literal].
  assert (Hn : isNumberChar (hd s') = true)
    by (unfold isNumberChar; now rewrite Enum).
  rewrite span_hd, Enum by assumption. now rewrite span_forall.
Qed.

Lemma shaped_ret {A : Type} (a : A) p (Q : A -> list string -> Prop) :
  Q a [] -> shaped (ret a p) p Q.
Proof.
  intros HQ Hok a' p' [= <- <-]. split; [assumption|].
  exists []. now rewrite app_nil_r.
Qed.

Lemma shaped_bind {A B : Type} (m : M A) (f : A -> M B) p
  (Q1 : A -> list string -> Prop) (Q : B -> list string -> Prop) :
  shaped (m p) p Q1 ->
  (forall a ds1 p1, m p = Some (a, p1) -> Q1 a ds1 ->
     shaped (f a p1) p1 (fun b ds2 => Q b (ds1 ++ ds2)%list)) ->
  shaped (bind m f p) p Q.
Proof.
  intros Hm Hf Hok b p2. unfold bind.
  destruct (m p) as [[a p1]|] eqn:E; [|discriminate]. intros Hfa.
  destruct (Hm Hok a p1 eq_refl) as (Hok1 & ds1 & He1 & HQ1).
  destruct (Hf a ds1 p1 eq_refl HQ1 Hok1 b p2 Hfa) as (Hok2 & ds2 & He2 & HQ).
  split; [assumption|]. exists (ds1 ++ ds2)%list. split; [|assumption].
  now rewrite He2, He1, app_assoc.
Qed.

Lemma shaped_weaken {A : Type} (r : option (A * Parser)) p
  (Q Q' : A -> list string -> Prop) :
  shaped r p Q -> (forall a ds, Q a ds -> Q' a ds) -> shaped r p Q'.
Proof.
  intros H HQ Hok a p' E. destruct (H Hok a p' E) as (Hok' & ds & He & Hq).
  split; [assumption|]. exists ds. auto.
Qed.

Lemma shaped_nextToken p :
  shaped (nextToken p) p (fun _ ds => ds = []).
Proof.
  intros (Hc & Hk & Hinv) a p'. unfold nextToken.
  destruct (NextToken_refines _ Hinv) as (l' & Hn & Hinv' & Hrest').
  rewrite Hn. cbn [obind fst snd]. intros [= <- <-]. split.
  - split; [exact Hk|]. split; [apply lexSuffix_lexed | exact Hinv'].
  - exists []. cbn [errors]. now rewrite app_nil_r.
Qed.

Lemma shaped_appendError msg p :
  shaped (appendError msg p) p (fun _ ds => ds = [msg]).
Proof.
  intros Hok a p' [= <- <-]. split; [exact Hok|]. exists [msg]. auto.
Qed.

Lemma shaped_expectPeek t p :
  shaped (expectPeek t p) p
    (fun ok ds => (ok = true /\ ds = []) \/ (ok = false /\ ds <> [])).
Proof.
  unfold expectPeek. destruct (peekTokenIs t p).
  - eapply shaped_bind; [apply shaped_nextToken|].
    intros [] ds1 p1 _ ->. apply shaped_ret. left; auto.
  - eapply shaped_bind; [unfold peekError; apply shaped_appendError|].
    intros [] ds1 p1 _ ->. apply shaped_ret. right.
    split; [auto|discriminate].
Qed.

Lemma token_eta (t : token.Token) :
  t = {| token.Literal := token.Literal t; token.Typ := token.Typ t |}.
Proof. now destruct t. Qed.

Lemma shape_prefix tok r :
  lexed tok = true -> prefix_symbol (token.Typ tok) <> None -> shape r ->
  shape (Some (ast.PrefixExpr tok (token.Literal tok) r)).
Proof.
  intros Hlex Hsym (tr & Hok & ->).
  exists (Prefix (token.Typ tok) tr). cbn [tree_ok tree_expr].
  destruct tok as [lit ty]. cbn [token.Typ token.Literal] in *.
  unfold lexed in Hlex. cbn [token.Typ token.Literal] in Hlex.
  unfold prefix_node, prefix_spelling.
  destruct ty; try (now elim Hsym); cbn in Hlex |- *;
    apply String.eqb_eq in Hlex; subst lit; auto.
Qed.

Lemma shape_infix tok l r :
  lexed tok = true -> operator_symbol (token.Typ tok) <> None ->
  shape l -> shape r ->
  shape (Some (ast.InfixExpr tok l (token.Literal tok) r)).
Proof.
  intros Hlex Hsym (tl_ & Hokl & ->) (tr & Hokr & ->).
  exists (Infix (token.Typ tok) tl_ tr). cbn [tree_ok tree_expr].
  destruct tok as [lit ty]. cbn [token.Typ token.Literal] in *.
  unfold lexed in Hlex. cbn [token.Typ token.Literal] in Hlex.
  unfold infix_node, operator_spelling.
  destruct ty; try (now elim Hsym); cbn in Hlex |- *;
    apply String.eqb_eq in Hlex; subst lit; rewrite Hokl, Hokr; auto.
Qed.

Lemma shape_call tok f l :
  lexed tok = true -> token.Typ tok = token.LeftParen ->
  shape f -> shapes l ->
  shape (Some (ast.CallExpr tok f (Some l))).
Proof.
  intros Hlex Hty (tf & Hokf & ->) (trs & Hoks & ->).
  exists (Call tf trs). cbn [tree_ok tree_expr].
  destruct tok as [lit ty]. cbn [token.Typ token.Literal] in *. subst ty.
  unfold lexed in Hlex. cbn [token.Typ token.Literal] in Hlex.
  apply String.eqb_eq in Hlex. subst lit. rewrite Hokf, Hoks. auto.
Qed.

Lemma shapes_snoc l e : shapes l -> shape e -> shapes (l ++ [e]).
Proof.
  intros (trs & Hoks & ->) (tr & Hok & ->). exists (trs ++ [tr])%list.
  rewrite forallb_app, map_app, Hoks. cbn. now rewrite Hok.
Qed.

Section Callbacks.

Variable rec : Precedence -> M (option ast.Expr).
Variable n : nat.
Hypothesis Hrec : forall prec p,
  shaped (rec prec p) p (fun e ds => ds = [] -> shape e).

Lemma shaped_parsePrefixExpr p :
  prefix_symbol (token.Typ (currToken p)) <> None ->
  shaped (parsePrefixExpr rec p) p (fun e ds => ds = [] -> shape e).
Proof.
  intros Ht Hok. pose proof Hok as (Hc & _). revert Hok.
  unfold parsePrefixExpr. cbv zeta.
  eapply shaped_bind; [apply shaped_nextToken|]. intros [] ds1 p1 _ ->.
  eapply shaped_bind; [apply Hrec|]. intros e ds2 p2 _ He.
  apply shaped_ret. cbn [app]. rewrite app_nil_r. intros ->.
  apply shape_prefix; auto.
Qed.

Lemma shaped_parseInfixExpr left p :
  operator_symbol (token.Typ (currToken p)) <> None ->
  shaped (parseInfixExpr rec left p) p
    (fun e ds => ds = [] -> shape left -> shape e).
Proof.
  intros Ht Hok. pose proof Hok as (Hc & _). revert Hok.
  unfold parseInfixExpr. cbv zeta.
  eapply shaped_bind; [apply shaped_nextToken|]. intros [] ds1 p1 _ ->.
  eapply shaped_bind; [apply Hrec|]. intros e ds2 p2 _ He.
  apply shaped_ret. cbn [app]. rewrite app_nil_r. intros -> Hl.
  apply shape_infix; auto.
Qed.

Lemma shaped_parseGroupedExpr p :
  shaped (parseGroupedExpr rec p) p (fun e ds => ds = [] -> shape e).
Proof.
  unfold parseGroupedExpr.
  eapply shaped_bind; [apply shaped_nextToken|]. intros [] ds1 p1 _ ->.
  eapply shaped_bind; [apply Hrec|]. intros e ds2 p2 _ He.
  eapply shaped_bind; [apply shaped_expectPeek|].
  intros ok ds3 p3 _ [(-> & ->)|(-> & Hds)]; apply shaped_ret; cbn [app].
  - rewrite !app_nil_r. exact He.
  - rewrite app_nil_r. intros H. apply app_eq_nil in H as [_ H].
    contradiction.
Qed.

Lemma shaped_parseExpressionList_loop :
  forall m items p,
    shaped (parseExpressionList_loop rec m items p) p
      (fun items' ds => ds = [] -> shapes items -> shapes items').
Proof.
  induction m as [|m IH]; intros items p; [intros _ a p'; discriminate|].
  cbn [parseExpressionList_loop]. destruct (peekTokenIs token.Comma p).
  - eapply shaped_bind; [apply shaped_nextToken|]. intros [] ds1 p1 _ ->.
    eapply shaped_bind; [apply shaped_nextToken|]. intros [] ds2 p2 _ ->.
    eapply shaped_bind; [apply Hrec|]. intros e ds3 p3 _ He.
    eapply shaped_weaken; [apply IH|]. cbv beta. cbn [app].
    intros items' ds4 Hkeep Hnil Hitems.
    apply app_eq_nil in Hnil as [-> ->].
    apply Hkeep; [reflexivity|]. apply shapes_snoc; auto.
  - change (Some (items, p)) with (ret items p).
    apply shaped_ret. auto.
Qed.

Lemma shaped_parseExpressionList end_ p :
  shaped (parseExpressionList rec n end_ p) p
    (fun args ds => ds = [] -> exists l, args = Some l /\ shapes l).
Proof.
  unfold parseExpressionList. destruct (peekTokenIs end_ p).
  - eapply shaped_bind; [apply shaped_nextToken|]. intros [] ds1 p1 _ ->.
    apply shaped_ret. intros _. exists []. split; [reflexivity|].
    now exists [].
  - eapply shaped_bind; [apply shaped_nextToken|]. intros [] ds1 p1 _ ->.
    eapply shaped_bind; [apply Hrec|]. intros e ds2 p2 _ He.
    eapply shaped_bind; [apply shaped_parseExpressionList_loop|].
    cbv beta. intros items ds3 p3 _ Hkeep.
    eapply shaped_bind; [apply shaped_expectPeek|].
    intros ok ds4 p4 _ [(-> & ->)|(-> & Hne)]; apply shaped_ret; cbn [app].
    + rewrite !app_nil_r. intros Hnil.
      apply app_eq_nil in Hnil as [-> ->].
      exists items. split; [reflexivity|]. apply Hkeep; [reflexivity|].
      destruct (He eq_refl) as (tr & Hok & ->).
      exists [tr]. cbn. now rewrite Hok.
    + rewrite app_nil_r. intros Hnil.
      apply app_eq_nil in Hnil as [_ Hnil].
      apply app_eq_nil in Hnil as [_ Hnil]. contradiction.
Qed.

Lemma shaped_parseCallExpr function p :
  token.Typ (currToken p) = token.LeftParen ->
  shaped (parseCallExpr rec n function p) p
    (fun e ds => ds = [] -> shape function -> shape e).
Proof.
  intros Ht Hok. pose proof Hok as (Hc & _). revert Hok.
  unfold parseCallExpr. cbv zeta.
  eapply shaped_bind; [apply shaped_parseExpressionList|].
  intros args ds1 p1 _ Ha. apply shaped_ret. rewrite app_nil_r.
  intros -> Hf. destruct (Ha eq_refl) as (l & -> & Hl).
  now apply shape_call.
Qed.

Lemma shaped_parseExpression_loop precedence :
  forall m left p,
    shaped (parseExpression_loop rec n m precedence left p) p
      (fun e ds => ds = [] -> shape left -> shape e).
Proof.
  induction m as [|m IH]; intros left p; [intros _ a p'; discriminate|].
  cbn [parseExpression_loop].
  destruct (negb (peekTokenIs token.Semicolon p)
            && (precedence <? peekPrecedence p)%Z);
    [|now apply (shaped_ret left)].
  destruct (infixParseFns rec n (token.Typ (peekToken p))) as [infix|] eqn:Ei;
    [|now apply (shaped_ret left)].
  eapply shaped_bind; [apply shaped_nextToken|]. intros [] ds1 p1 Hn ->.
  apply nextToken_curr in Hn.
  apply shaped_bind
    with (Q1 := fun e ds => ds = [] -> shape left -> shape e).
  - destruct (token.Typ (peekToken p)) eqn:Ety; cbn [infixParseFns] in Ei;
      try discriminate; injection Ei as <-;
      first [ apply shaped_parseInfixExpr; rewrite Hn, Ety; discriminate
            | apply shaped_parseCallExpr; now rewrite Hn, Ety ].
  - intros e ds2 p2 _ He.
    eapply shaped_weaken; [apply IH|]. cbv beta. cbn [app].
    intros e' ds3 Hkeep Hnil Hl.
    apply app_eq_nil in Hnil as [-> ->]. auto.
Qed.

Lemma shaped_parseExpression_body precedence p :
  shaped (parseExpression_body rec n precedence p) p
    (fun e ds => ds = [] -> shape e).
Proof.
  intros Hok. pose proof Hok as (Hc & _). revert Hok.
  unfold parseExpression_body.
  assert (Hstep : forall prefix,
            shaped (prefix p) p (fun e ds => ds = [] -> shape e) ->
            shaped ((left <~ prefix ;;
                     parseExpression_loop rec n n precedence left) p) p
              (fun e ds => ds = [] -> shape e)).
  { intros prefix Hp. eapply shaped_bind; [exact Hp|].
    intros e ds1 p1 _ He.
    eapply shaped_weaken; [apply shaped_parseExpression_loop|]. cbv beta.
    intros e' ds2 Hkeep Hnil. apply app_eq_nil in Hnil as [-> ->]. auto. }
  destruct (token.Typ (currToken p)) eqn:Ety; cbn [prefixParseFns];
    try (eapply shaped_bind;
         [unfold noPrefixParseFnError; apply shaped_appendError|];
         intros [] ds1 p1 _ ->; apply shaped_ret; discriminate);
    apply Hstep.
  - (* Identifier *)
    intros Hok a p' [= <- <-]. split; [assumption|]. exists [].
    rewrite app_nil_r. split; [reflexivity|]. intros _.
    exists (Leaf (Ident (token.Literal (currToken p)))).
    unfold lexed in Hc. rewrite Ety in Hc. split; [exact Hc|].
    cbn [tree_expr operand_expr operand_token]. rewrite <- Ety.
    now rewrite <- token_eta.
  - (* Number *)
    unfold parseNumberLiteral.
    destruct (strconv.ParseFloat (token.Literal (currToken p))) eqn:Ev.
    + intros Hok a p' [= <- <-]. split; [assumption|]. exists [].
      rewrite app_nil_r. split; [reflexivity|]. intros _.
      exists (Leaf (Num (token.Literal (currToken p)))).
      unfold lexed in Hc. rewrite Ety in Hc.
      cbn [tree_ok operand_ok tree_expr operand_expr operand_token].
      rewrite Ev, Hc. split; [reflexivity|]. rewrite <- Ety.
      now rewrite <- token_eta.
    + eapply shaped_bind; [apply shaped_appendError|].
      intros [] ds1 p1 _ ->. apply shaped_ret. discriminate.
  - apply shaped_parseGroupedExpr.
  - apply shaped_parsePrefixExpr. rewrite Ety. discriminate.
  - apply shaped_parsePrefixExpr. rewrite Ety. discriminate.
Qed.

End Callbacks.

Lemma shaped_parseExpression :
  forall n prec p,
    shaped (parseExpression n prec p) p (fun e ds => ds = [] -> shape e).
Proof.
  induction n as [|n IH]; intros prec p; [intros _ a p'; discriminate|].
  cbn [parseExpression]. now apply shaped_parseExpression_body.
Qed.

Lemma shaped_parseStatement fuel p :
  shaped (parseStatement fuel p) p (fun s ds => ds = [] -> stmt_shape s).
Proof.
  unfold parseStatement, parseExpressionStmt. cbv zeta.
  eapply shaped_bind; [apply shaped_parseExpression|].
  intros e ds1 p1 _ He. cbv beta.
  destruct (peekTokenIs token.Semicolon p1).
  - eapply shaped_bind; [apply shaped_nextToken|]. intros [] ds2 p2 _ ->.
    apply shaped_ret. rewrite !app_nil_r. intros Hnil.
    destruct (He Hnil) as (tr & Hok & ->). now exists (currToken p), tr.
  - intros Hok a p' [= <- <-]. split; [assumption|]. exists [].
    rewrite app_nil_r. split; [reflexivity|]. rewrite app_nil_r.
    intros Hnil. destruct (He Hnil) as (tr & Hok' & ->).
    now exists (currToken p), tr.
Qed.

Lemma shaped_ParseProgram_loop fuel :
  forall n stmts p,
    shaped (ParseProgram_loop n fuel stmts p) p
      (fun stmts' ds =>
         ds = [] -> Forall stmt_shape stmts -> Forall stmt_shape stmts').
Proof.
  induction n as [|n IH]; intros stmts p; [intros _ a p'; discriminate|].
  cbn [ParseProgram_loop]. destruct (negb (currTokenIs token.EOF p)).
  - eapply shaped_bind; [apply shaped_parseStatement|].
    intros s ds1 p1 _ Hs.
    eapply shaped_bind; [apply shaped_nextToken|]. intros [] ds2 p2 _ ->.
    eapply shaped_weaken; [apply IH|]. cbv beta. cbn [app].
    intros stmts' ds3 Hkeep Hnil Hall.
    apply app_eq_nil in Hnil as [-> ->].
    apply Hkeep; [reflexivity|]. apply Forall_app. split; [assumption|].
    constructor; [auto | constructor].
  - change (Some (stmts, p)) with (ret stmts p).
    apply shaped_ret. auto.
Qed.

Lemma parsed_shapes src stmts :
  parsed src = Some (stmts, []) -> Forall stmt_shape stmts.
Proof.
  unfold parsed, parse. intros H.
  destruct (lexSuffix src) as [t1 s1] eqn:L0.
  destruct (lexSuffix s1) as [t2 s2] eqn:L1.
  destruct (nextToken_any (lexer.New src) src _ _ (New_inv src) eq_refl L0)
    as (l1 & I1 & R1 & N1).
  destruct (nextToken_any l1 _ _ _ I1 R1 L1) as (l2 & I2 & R2 & N2).
  unfold New, bind in H. rewrite N1, N2 in H. cbn [obind snd] in H.
  unfold ParseProgram, bind in H.
  set (p0 := {| lexer_ := l2; currToken := t1; peekToken := t2;
                errors := [] |}) in H.
  destruct (ParseProgram_loop (enough_fuel src) (enough_fuel src) [] p0)
    as [[r p1]|] eqn:Hloop; [|discriminate].
  unfold ret in H. cbn [obind fst snd ast.Stmts] in H.
  injection H as <- Herr.
  assert (Hok0 : state_ok p0).
  { split; [|split; [|exact I2]]; cbn [currToken peekToken p0].
    - pose proof (lexSuffix_lexed src) as Hl. now rewrite L0 in Hl.
    - pose proof (lexSuffix_lexed s1) as Hl. now rewrite L1 in Hl. }
  destruct (shaped_ParseProgram_loop _ _ [] p0 Hok0 _ _ Hloop)
    as (_ & ds & He & Hkeep).
  cbn [errors p0 app] in He. unfold Errors in Herr. rewrite He in Herr.
  apply Hkeep; [assumption | constructor].
Qed.

Lemma render_of_parsed src stmts ds :
  parsed src = Some (stmts, ds) ->
  render src = Some (ast.Stmts_String stmts, ds).
Proof.
  unfold parsed, render, parse_render.
  destruct (parse (enough_fuel src) src) as [[prog p]|]; [|discriminate].
  cbn [obind fst snd]. now intros [= <- <-].
Qed.

(** X22. The rendering is canonical.  When a source parses without a
    diagnostic to one statement, the rendering of the program is a text
    that parses, again without a diagnostic, to one statement with the
    same expression, node for node and token for token, and that renders
    to itself: rendering adds the parentheses that make the grouping
    explicit, and a second pass changes nothing. *)
Theorem rendering_is_canonical (src : string) (tok : token.Token)
  (e : option ast.Expr) :
  parsed src = Some ([ast.ExpressionStmt tok e], []) ->
  exists s tok',
    render src = Some (Some s, [])
    /\ parsed s = Some ([ast.ExpressionStmt tok' e], [])
    /\ render s = Some (Some s, []).
Proof.
  intros Hparsed.
  pose proof (parsed_shapes _ _ Hparsed) as Hall.
  inversion Hall as [|s0 l0 (tok0 & tr & Hok & Heq) _]; subst.
  injection Heq as _ ->.
  pose proof (oString_tree tr Hok) as Hs.
  exists (tree_text tr), (tree_first tr). split.
  - rewrite (render_of_parsed _ _ _ Hparsed).
    cbn [ast.Stmts_String ast.Stmt_String].
    destruct (tree_expr tr) as [x|]; [|discriminate].
    cbn [oString] in Hs. rewrite Hs. cbn [obind].
    now rewrite append_empty_r.
  - destruct (tree_parse tr Hok) as (p & Hparse & Herr).
    assert (Hp : parsed (tree_text tr)
                 = Some ([ast.ExpressionStmt (tree_first tr) (tree_expr tr)],
                         [])).
    { unfold parsed. rewrite Hparse. cbn [obind fst snd ast.Stmts].
      unfold Errors. now rewrite Herr. }
    split; [exact Hp|].
    rewrite (render_of_parsed _ _ _ Hp).
    cbn [ast.Stmts_String ast.Stmt_String].
    destruct (tree_expr tr) as [x|]; [|discriminate].
    cbn [oString] in Hs. rewrite Hs. cbn [obind].
    now rewrite append_empty_r.
Qed.

(** The source [-a * f(b, 2) == c]. *)
Lemma rendering_is_canonical_witness :
  exists s tok',
    render "-a * f(b, 2) == c" = Some (Some s, [])
    /\ parsed s
       = Some ([ast.ExpressionStmt tok'
                  (tree_expr
                     (Infix token.EqualTo
                        (Infix token.Star
                           (Prefix token.Minus (Leaf (Ident "a")))
                           (Call (Leaf (Ident "f"))
                              [Leaf (Ident "b"); Leaf (Num "2")]))
                        (Leaf (Ident "c"))))], [])
    /\ render s = Some (Some s, []).
Proof.
  apply (rendering_is_canonical "-a * f(b, 2) == c"
           {| token.Literal := "-"; token.Typ := token.Minus |}
           (tree_expr
              (Infix token.EqualTo
                 (Infix token.Star
                    (Prefix token.Minus (Leaf (Ident "a")))
                    (Call (Leaf (Ident "f"))
                       [Leaf (Ident "b"); Leaf (Num "2")]))
                 (Leaf (Ident "c"))))).
  vm_compute. reflexivity.
Defined.

End ParsedTrees.


(** * Chains of binary operators *)

Section OperatorSequences.

Import lexer parser.

Lemma items_text_stop items : stop_char (hd (items_text items)) = true.
Proof. destruct items as [|[t a] r]; reflexivity. Qed.

Lemma items_text_cons t sym a rest :
  operator_symbol t = Some sym -> operand_ok a = true ->
  lexSuffix (items_text ((t, a) :: rest))
  = ({| token.Literal := sym; token.Typ := t |},
     String.String " " (operand_text a ++ items_text rest))
  /\ lexSuffix (String.String " " (operand_text a ++ items_text rest))
     = (operand_token a, items_text rest).
Proof.
  intros Hsym Ha. cbn [items_text]. unfold operator_spelling. rewrite Hsym.
  split.
  - cbn [append]. rewrite lexSuffix_space. now apply lexSuffix_operator.
  - rewrite lexSuffix_space.
    pose proof (items_text_stop rest) as Hs.
    apply andb_true_iff in Hs as [Hal Hnu].
    apply negb_true_iff in Hal, Hnu. now apply lexSuffix_operand.
Qed.

Lemma climbed_end bl F m prec p items :
  respects bl = true -> above prec bl -> stops_before prec items ->
  after p (items_text items) ->
  parseExpression_loop (parseExpression F) F (S m) prec
    (tree_expr (bin_tree bl)) p
  = Some (tree_expr (bin_tree bl), p) ->
  climbed (parseExpression_loop (parseExpression F) F (S m) prec
             (tree_expr (bin_tree bl)) p) p prec
    (fst (flatten bl)) (snd (flatten bl)) items.
Proof.
  intros Hres Hab Hst Haf Hrun. exists bl, [], items, p.
  rewrite app_nil_r.
  split; [exact Hrun|]. split; [reflexivity|].
  split; [now destruct (flatten bl)|].
  split; [assumption|]. split; [assumption|]. split; [assumption|].
  split; [assumption | reflexivity].
Qed.

(** The loop of [parseExpression] and [parseExpression] itself on a
    chain: the operators that bind tighter than [prec] are taken, up to
    the first one that does not. *)
Lemma climb : forall n,
  (forall a0 items F prec p,
     List.length items <= n -> List.length items < F ->
     operand_ok a0 = true -> forallb item_ok items = true ->
     (LOWEST <= prec)%Z ->
     currToken p = operand_token a0 -> after p (items_text items) ->
     climbed (parseExpression (S F) prec p) p prec a0 [] items)
  /\ (forall bl items F m prec p,
        List.length items <= n -> List.length items < F ->
        List.length items < m ->
        respects bl = true -> above prec bl -> left_ok bl items ->
        forallb item_ok items = true -> (LOWEST <= prec)%Z ->
        after p (items_text items) ->
        climbed (parseExpression_loop (parseExpression F) F m prec
                   (tree_expr (bin_tree bl)) p) p prec
          (fst (flatten bl)) (snd (flatten bl)) items).
Proof.
  assert (Hbody : forall n,
            (forall bl items F m prec p,
               List.length items <= n -> List.length items < F ->
               List.length items < m ->
               respects bl = true -> above prec bl -> left_ok bl items ->
               forallb item_ok items = true -> (LOWEST <= prec)%Z ->
               after p (items_text items) ->
               climbed (parseExpression_loop (parseExpression F) F m prec
                          (tree_expr (bin_tree bl)) p) p prec
                 (fst (flatten bl)) (snd (flatten bl)) items) ->
            forall a0 items F prec p,
              List.length items <= n -> List.length items < F ->
              operand_ok a0 = true -> forallb item_ok items = true ->
              (LOWEST <= prec)%Z ->
              currToken p = operand_token a0 ->
              after p (items_text items) ->
              climbed (parseExpression (S F) prec p) p prec a0 [] items).
  { intros n HL a0 items F prec p Hlen HF Ha Hok Hlow Hcurr Haf.
    rewrite parseExpression_S, (body_operand _ _ _ a0) by assumption.
    exact (HL (BLeaf a0) items F F prec p Hlen HF HF eq_refl I I Hok
             Hlow Haf). }
  assert (Hnil : forall bl F m prec p,
            0 < m -> respects bl = true -> above prec bl ->
            (LOWEST <= prec)%Z -> after p (items_text []) ->
            climbed (parseExpression_loop (parseExpression F) F m prec
                       (tree_expr (bin_tree bl)) p) p prec
              (fst (flatten bl)) (snd (flatten bl)) []).
  { intros bl F m prec p Hm Hres Hab Hlow Haf.
    destruct m as [|m]; [lia|].
    assert (Hrun : parseExpression_loop (parseExpression F) F (S m) prec
                     (tree_expr (bin_tree bl)) p
                   = Some (tree_expr (bin_tree bl), p)).
    { apply (loop_ends _ _ _ _ _ _ "" Haf). unfold ends_at. cbn.
      apply negb_true_iff, Z.ltb_ge. exact Hlow. }
    apply climbed_end; auto. exact I. }
  induction n as [|n [IHP IHL]].
  - assert (HL0 : forall bl items F m prec p,
              List.length items <= 0 -> List.length items < F ->
              List.length items < m ->
              respects bl = true -> above prec bl -> left_ok bl items ->
              forallb item_ok items = true -> (LOWEST <= prec)%Z ->
              after p (items_text items) ->
              climbed (parseExpression_loop (parseExpression F) F m prec
                         (tree_expr (bin_tree bl)) p) p prec
                (fst (flatten bl)) (snd (flatten bl)) items).
    { intros bl items F m prec p Hlen HF Hm Hres Hab Hleft Hok Hlow Haf.
      destruct items; [|cbn in Hlen; lia]. apply Hnil; auto. }
    split; [exact (Hbody 0 HL0) | exact HL0].
  - assert (HLn : forall bl items F m prec p,
              List.length items <= S n -> List.length items < F ->
              List.length items < m ->
              respects bl = true -> above prec bl -> left_ok bl items ->
              forallb item_ok items = true -> (LOWEST <= prec)%Z ->
              after p (items_text items) ->
              climbed (parseExpression_loop (parseExpression F) F m prec
                         (tree_expr (bin_tree bl)) p) p prec
                (fst (flatten bl)) (snd (flatten bl)) items).
    { intros bl items F m prec p Hlen HF Hm Hres Hab Hleft Hok Hlow Haf.
      destruct items as [|[t a] rest]; [apply Hnil; auto; lia|].
      cbn [forallb] in Hok. apply andb_true_iff in Hok as [Hit Hok].
      unfold item_ok in Hit. cbn [fst snd] in Hit.
      apply andb_true_iff in Hit as [Hsym Ha].
      destruct (operator_symbol t) as [sym|] eqn:Esym;
        [clear Hsym|discriminate].
      destruct (items_text_cons t sym a rest Esym Ha) as (L1 & L2).
      destruct (operator_precedence t sym Esym) as (pr & Hpr & Hprlow).
      assert (Hpo : prec_of t = pr) by (unfold prec_of; now rewrite Hpr).
      destruct (after_at p _ _ _ Haf L1) as (_ & K & _).
      destruct m as [|m]; [lia|].
      cbn [List.length] in Hlen, HF, Hm.
      destruct (prec <? pr)%Z eqn:Ecmp.
      + (* the operator is taken *)
        destruct (after_next p _ Haf) as (p1 & N1 & C1 & E1 & A1).
        rewrite L1 in C1, A1. cbn [fst snd] in C1, A1.
        destruct (after_next p1 _ A1) as (p2 & N2 & C2 & E2 & A2).
        rewrite L2 in C2, A2. cbn [fst snd] in C2, A2.
        destruct F as [|F']; [lia|].
        destruct (IHP a rest F' pr p2 ltac:(lia) ltac:(lia) Ha Hok
                    ltac:(lia) C2 A2)
          as (br & taken2 & items2 & p3 & Hrun & Hsplit & Hfl & Hrr & Habr
              & Hst & A3 & E3).
        cbn [app] in Hfl.
        assert (Hlen2 : List.length items2 <= List.length rest).
        { rewrite Hsplit, length_app. lia. }
        assert (Hok2 : forallb item_ok items2 = true).
        { rewrite Hsplit, forallb_app in Hok.
          now apply andb_true_iff in Hok as [_ Hok]. }
        assert (Hres1 : respects (BNode t bl br) = true).
        { cbn [respects]. rewrite Hres, Hrr. cbn [andb].
          apply andb_true_iff. split.
          - unfold left_ok in Hleft. destruct (root_prec bl) as [pl|];
              [|reflexivity]. cbn [stops_before] in Hleft.
            now apply Z.leb_le.
          - unfold above in Habr. destruct (root_prec br) as [pr'|];
              [|reflexivity]. apply Z.ltb_lt. now rewrite Hpo. }
        assert (Hab1 : above prec (BNode t bl br)).
        { unfold above. cbn [root_prec]. rewrite Hpo. now apply Z.ltb_lt. }
        assert (Hleft1 : left_ok (BNode t bl br) items2).
        { unfold left_ok. cbn [root_prec]. now rewrite Hpo. }
        destruct (IHL (BNode t bl br) items2 (S F') m prec p3
                    ltac:(lia) ltac:(lia) ltac:(lia) Hres1 Hab1 Hleft1
                    Hok2 Hlow A3)
          as (b & taken' & items' & p' & Hrun' & Hsplit' & Hfl' & Hr'
              & Hab' & Hst' & A' & E').
        exists b, ((t, a) :: taken2 ++ taken')%list, items', p'.
        split.
        * rewrite (loop_operator _ _ _ _ _ _ t sym);
            [| now rewrite K | assumption
             | unfold peekPrecedence; rewrite K; cbn [token.Typ];
               now rewrite Hpr].
          unfold bind. rewrite N1. unfold parseInfixExpr at 1. cbv zeta.
          unfold bind. rewrite N2.
          replace (currPrecedence p1) with pr
            by (unfold currPrecedence; rewrite C1; cbn [token.Typ];
                now rewrite Hpr).
          rewrite Hrun. unfold ret.
          rewrite C1. cbn [token.Literal].
          cbn [bin_tree tree_expr] in Hrun'.
          unfold operator_spelling in Hrun'. rewrite Esym in Hrun'.
          exact Hrun'.
        * split.
          { rewrite Hsplit, Hsplit'. cbn [app].
            now rewrite <- app_assoc. }
          split.
          { rewrite Hfl'. cbn [flatten fst snd]. rewrite Hfl.
            cbn [fst snd]. f_equal. rewrite <- !app_assoc.
            reflexivity. }
          split; [assumption|]. split; [assumption|].
          split; [assumption|]. split; [assumption | congruence].
      + (* the loop ends before the operator *)
        apply climbed_end; auto.
        * cbn [stops_before]. rewrite Hpo. now apply Z.ltb_ge.
        * apply (loop_ends _ _ _ _ _ _ _ Haf). rewrite L1.
          unfold ends_at. cbn [fst token.Typ]. rewrite Hpr.
          apply orb_true_iff. right. now rewrite Ecmp. }
    split; [exact (Hbody (S n) HLn) | exact HLn].
Qed.

Lemma bin_ok : forall b,
  operand_ok (fst (flatten b)) = true ->
  forallb item_ok (snd (flatten b)) = true ->
  tree_ok (bin_tree b) = true.
Proof.
  induction b as [o|t l IHl r IHr]; cbn [flatten fst snd bin_tree tree_ok].
  - auto.
  - intros Ha Hitems. rewrite forallb_app in Hitems.
    apply andb_true_iff in Hitems as [Hl Hr]. cbn [forallb] in Hr.
    apply andb_true_iff in Hr as [Hit Hr]. unfold item_ok in Hit.
    cbn [fst snd] in Hit. apply andb_true_iff in Hit as [Hsym Hc].
    rewrite Hsym, (IHl Ha Hl), (IHr Hc Hr). reflexivity.
Qed.

(** In a tree that [respects] the precedences, the operator at the root
    binds at most like every operator on its left and less tightly than
    every operator on its right. *)
Lemma respects_root : forall b,
  respects b = true ->
  match root_prec b with
  | Some pr => Forall (fun it => (pr <= prec_of (fst it))%Z) (snd (flatten b))
  | None => snd (flatten b) = []
  end.
Proof.
  induction b as [o|t l IHl r IHr]; [reflexivity|].
  cbn [respects root_prec flatten snd]. intros H.
  apply andb_true_iff in H as [H Hr]. apply andb_true_iff in H as [H Hl].
  apply andb_true_iff in H as [Hrl Hrr].
  specialize (IHl Hrl). specialize (IHr Hrr).
  apply Forall_app. split.
  - destruct (root_prec l) as [pl|]; [|rewrite IHl; constructor].
    apply Z.leb_le in Hl. eapply Forall_impl; [|exact IHl].
    cbv beta. intros it Hit. lia.
  - constructor; [cbn [fst]; lia|].
    destruct (root_prec r) as [pr|]; [|rewrite IHr; constructor].
    apply Z.ltb_lt in Hr. eapply Forall_impl; [|exact IHr].
    cbv beta. intros it Hit. lia.
Qed.

Lemma respects_sides t l r :
  respects (BNode t l r) = true ->
  Forall (fun it => (prec_of t <= prec_of (fst it))%Z) (snd (flatten l))
  /\ Forall (fun it => (prec_of t < prec_of (fst it))%Z) (snd (flatten r)).
Proof.
  cbn [respects]. intros H.
  apply andb_true_iff in H as [H Hr]. apply andb_true_iff in H as [H Hl].
  apply andb_true_iff in H as [Hrl Hrr].
  pose proof (respects_root l Hrl) as Rl.
  pose proof (respects_root r Hrr) as Rr. split.
  - destruct (root_prec l) as [pl|]; [|rewrite Rl; constructor].
    apply Z.leb_le in Hl. eapply Forall_impl; [|exact Rl].
    cbv beta. intros it Hit. lia.
  - destruct (root_prec r) as [pr|]; [|rewrite Rr; constructor].
    apply Z.ltb_lt in Hr. eapply Forall_impl; [|exact Rr].
    cbv beta. intros it Hit. lia.
Qed.

Lemma split_unique {A : Type} :
  forall (xs xs' ys ys' : list A) (y y' : A),
    (xs ++ y :: ys = xs' ++ y' :: ys')%list ->
    (In y xs' -> In y' ys -> False) ->
    (In y' xs -> In y ys' -> False) ->
    xs = xs' /\ y = y' /\ ys = ys'.
Proof.
  induction xs as [|x xs IH]; intros [|x' xs'] ys ys' y y' H H1 H2;
    cbn [app] in H.
  - injection H as -> ->. auto.
  - injection H as -> ->. exfalso. apply H1; [now left|].
    apply in_or_app. right. now left.
  - injection H as -> <-. exfalso. apply H2; [now left|].
    apply in_or_app. right. now left.
  - injection H as -> H.
    destruct (IH xs' ys ys' y y' H) as (-> & -> & ->); auto.
    + intros Hi. apply H1. now right.
    + intros Hi. apply H2. now right.
Qed.

(** The operands, the operators and the precedences determine the
    tree. *)
Lemma respects_unique : forall b1 b2,
  respects b1 = true -> respects b2 = true ->
  flatten b1 = flatten b2 -> b1 = b2.
Proof.
  induction b1 as [o|t l IHl r IHr]; intros [o'|t' l' r'] H1 H2 Hfl.
  - cbn in Hfl. now injection Hfl as ->.
  - cbn [flatten] in Hfl. injection Hfl as _ Hfl.
    now destruct (snd (flatten l')).
  - cbn [flatten] in Hfl. injection Hfl as _ Hfl.
    now destruct (snd (flatten l)).
  - destruct (respects_sides _ _ _ H1) as (Hl1 & Hr1).
    destruct (respects_sides _ _ _ H2) as (Hl2 & Hr2).
    cbn [flatten] in Hfl. injection Hfl as Hfst Hsnd.
    apply split_unique in Hsnd.
    + destruct Hsnd as (Hxs & Hy & Hys). injection Hy as -> Hc.
      cbn [respects] in H1, H2.
      apply andb_true_iff in H1 as [H1 _]. apply andb_true_iff in H1 as [H1 _].
      apply andb_true_iff in H1 as [Hrl Hrr].
      apply andb_true_iff in H2 as [H2 _]. apply andb_true_iff in H2 as [H2 _].
      apply andb_true_iff in H2 as [Hrl' Hrr'].
      f_equal.
      * apply IHl; auto. destruct (flatten l), (flatten l').
        cbn [fst snd] in *. congruence.
      * apply IHr; auto. destruct (flatten r), (flatten r').
        cbn [fst snd] in *. congruence.
    + intros Hin Hin'.
      rewrite Forall_forall in Hl2, Hr1.
      specialize (Hl2 _ Hin). specialize (Hr1 _ Hin').
      cbn [fst] in Hl2, Hr1. lia.
    + intros Hin Hin'.
      rewrite Forall_forall in Hl1, Hr2.
      specialize (Hl1 _ Hin). specialize (Hr2 _ Hin').
      cbn [fst] in Hl1, Hr2. lia.
Qed.

Lemma chain_parse_general a0 items :
  operand_ok a0 = true -> forallb item_ok items = true ->
  exists b p,
    flatten b = (a0, items) /\ respects b = true
    /\ parse (enough_fuel (operand_text a0 ++ items_text items))
         (operand_text a0 ++ items_text items)
       = Some ({| ast.Stmts :=
                    [ast.ExpressionStmt (operand_token a0)
                       (tree_expr (bin_tree b))] |}, p)
    /\ errors p = [].
Proof.
  intros Ha Hok.
  set (src := operand_text a0 ++ items_text items).
  set (F := Nat.max (enough_fuel src) (S (List.length items))).
  assert (L0 : lexSuffix src = (operand_token a0, items_text items)).
  { pose proof (items_text_stop items) as Hs.
    apply andb_true_iff in Hs as [Hal Hnu].
    apply negb_true_iff in Hal, Hnu. now apply lexSuffix_operand. }
  destruct (lexSuffix (items_text items)) as [t2 s2] eqn:L1.
  destruct (nextToken_any (lexer.New src) src _ _ (New_inv src) eq_refl L0)
    as (l1 & I1 & R1 & N1).
  destruct (nextToken_any l1 _ _ _ I1 R1 L1) as (l2 & I2 & R2 & N2).
  set (p0 := {| lexer_ := l2; currToken := operand_token a0;
                peekToken := t2; errors := [] |}).
  assert (A0 : after p0 (items_text items)).
  { split; [exact I2|]. rewrite L1. split; [reflexivity | exact R2]. }
  destruct (climb (List.length items)) as (HP & _).
  destruct (HP a0 items (S F) LOWEST p0 (Nat.le_refl _)
              ltac:(unfold F; lia) Ha Hok ltac:(lia) eq_refl A0)
    as (b & taken & items' & p1 & Hrun & Hsplit & Hfl & Hres & _ & Hst
        & A1 & E1).
  assert (Hnil : items' = []).
  { destruct items' as [|[t a] rest']; [reflexivity|]. exfalso.
    rewrite Hsplit, forallb_app in Hok.
    apply andb_true_iff in Hok as [_ Hok]. cbn [forallb] in Hok.
    apply andb_true_iff in Hok as [Hit _]. unfold item_ok in Hit.
    cbn [fst snd] in Hit. apply andb_true_iff in Hit as [Hsym _].
    destruct (operator_symbol t) as [sym|] eqn:Esym; [|discriminate].
    destruct (operator_precedence t sym Esym) as (pr & Hpr & Hlow).
    cbn [stops_before] in Hst. unfold prec_of in Hst. rewrite Hpr in Hst.
    lia. }
  subst items'. rewrite app_nil_r in Hsplit. subst taken.
  cbn [app items_text] in Hfl, A1.
  destruct (after_at p1 "" _ _ A1 lexSuffix_end) as (_ & K1 & _).
  destruct (after_next p1 _ A1) as (p2 & N3 & C2 & E2 & A2).
  rewrite lexSuffix_end in C2. cbn [fst] in C2.
  exists b, p2. split; [exact Hfl|]. split; [exact Hres|].
  split; [|cbn [errors p0] in E1; congruence].
  rewrite <- (parse_fuel_stable src (S (S F))) by (unfold F; lia).
  unfold parse, New, bind. rewrite N1, N2. cbn [obind snd]. fold p0.
  unfold ParseProgram, bind. rewrite ParseProgram_loop_S.
  unfold currTokenIs at 1. cbn [currToken p0].
  rewrite operand_not_EOF. cbn [negb].
  unfold bind, parseStatement, parseExpressionStmt. cbv zeta.
  unfold bind. rewrite Hrun.
  unfold peekTokenIs. rewrite K1.
  cbn [EOFToken token.Typ token.TokenType_beq].
  rewrite N3. rewrite ParseProgram_loop_S.
  unfold currTokenIs. rewrite C2.
  cbn [EOFToken token.Typ token.TokenType_beq negb app].
  reflexivity.
Qed.

(** X23. Chains of binary operators of any length group by precedence,
    from left to right.  For single-token operands and binary operators,
    the text [a0 op1 a1 ... opn an] parses without a diagnostic to the
    node of a tree that holds the operands and operators in their order
    and in which, at every node, the operator at the root of the left
    operand binds at least as tightly as the node's, and the one at the
    root of the right operand strictly tighter; this tree is the only one
    with these two properties.  The rendering shows the grouping. *)
Theorem operator_chain_grouping (a0 : operand)
  (items : list (token.TokenType * operand)) :
  operand_ok a0 = true -> forallb item_ok items = true ->
  exists b,
    flatten b = (a0, items) /\ respects b = true
    /\ (forall b', flatten b' = (a0, items) -> respects b' = true -> b' = b)
    /\ parsed (operand_text a0 ++ items_text items)
       = Some ([ast.ExpressionStmt (operand_token a0)
                  (tree_expr (bin_tree b))], [])
    /\ render (operand_text a0 ++ items_text items)
       = Some (Some (tree_text (bin_tree b)), []).
Proof.
  intros Ha Hok.
  destruct (chain_parse_general a0 items Ha Hok)
    as (b & p & Hfl & Hres & Hparse & Herr).
  exists b. split; [exact Hfl|]. split; [exact Hres|]. split.
  - intros b' Hfl' Hres'. apply respects_unique; congruence.
  - assert (Hp : parsed (operand_text a0 ++ items_text items)
                 = Some ([ast.ExpressionStmt (operand_token a0)
                            (tree_expr (bin_tree b))], [])).
    { unfold parsed. rewrite Hparse. cbn [obind fst snd ast.Stmts].
      unfold Errors. now rewrite Herr. }
    split; [exact Hp|].
    rewrite (render_of_parsed _ _ _ Hp).
    assert (Htree : tree_ok (bin_tree b) = true).
    { apply bin_ok; rewrite Hfl; assumption. }
    pose proof (oString_tree _ Htree) as Hs.
    cbn [ast.Stmts_String ast.Stmt_String].
    destruct (tree_expr (bin_tree b)) as [x|]; [|discriminate].
    cbn [oString] in Hs. rewrite Hs. cbn [obind].
    now rewrite append_empty_r.
Qed.

(** The chain [a + b * c - d < e]. *)
Lemma operator_chain_grouping_witness :
  exists b,
    flatten b
    = (Ident "a",
       [(token.Plus, Ident "b"); (token.Star, Ident "c");
        (token.Minus, Ident "d"); (token.LessThan, Ident "e")])
    /\ respects b = true
    /\ (forall b',
          flatten b'
          = (Ident "a",
             [(token.Plus, Ident "b"); (token.Star, Ident "c");
              (token.Minus, Ident "d"); (token.LessThan, Ident "e")]) ->
          respects b' = true -> b' = b)
    /\ parsed "a + b * c - d < e"
       = Some ([ast.ExpressionStmt (operand_token (Ident "a"))
                  (tree_expr (bin_tree b))], [])
    /\ render "a + b * c - d < e" = Some (Some (tree_text (bin_tree b)), []).
Proof.
  apply (operator_chain_grouping (Ident "a")
           [(token.Plus, Ident "b"); (token.Star, Ident "c");
            (token.Minus, Ident "d"); (token.LessThan, Ident "e")]);
    reflexivity.
Defined.

End OperatorSequences.
